(** * ClawBands: policy evaluation and human-in-the-loop arbitration

    A shallow embedding of [src/core/ApprovalQueue.ts], [src/core/Arbitrator.ts],
    [src/core/Interceptor.ts], [src/types.ts], [src/config.ts] and the reply
    handler of [src/plugin/tool-interceptor.ts], together with the properties of
    the approval state machine.

    Conventions of the embedding.
    - Timestamps are milliseconds since the epoch, as returned by [Date.now()],
      and are integers ([Z]).  Every queue operation reads the clock; one call
      is modelled at one instant [now], passed as an explicit argument, and
      so is one judgment of the arbitrator.
    - A JavaScript [Map<string, V>] is a [gmap string V].  Iteration order of the
      [Map] (insertion order) is not represented; the loops of [approve], [deny]
      and [cleanup] treat each key on its own, so the resulting queue does not
      depend on it.  The list returned by [getPendingActions], and with it the
      text of the reply to [allow], is in the order of the keys here and in
      insertion order in the code: statements about them are made up to a
      permutation.
    - A policy is an object of its declared type, [SecurityPolicy]: the own
      properties of [modules] and of each module are the finite maps of the
      record.  Reading a property that is not an own property continues on
      [Object.prototype] (module [JS]).
    - The mutable singleton [approvalQueue] is threaded explicitly: an operation
      takes the queue and returns its result together with the new queue.
    - Logging through winston has no effect on the queue and is left out, and
      so are the writes to the audit trail and to the statistics, whose
      failures [logDecision] swallows. *)

From Stdlib Require Import ZArith String Ascii.
From stdpp Require Import gmap strings list fin_maps.

Local Open Scope string_scope.
Local Open Scope Z_scope.

(* ===================================================================== *)
(** * Types ([src/types.ts]) *)
(* ===================================================================== *)

(** The declared type [Decision] is ['ALLOW' | 'DENY' | 'ASK'].  Nothing checks
    a value against it at run time: [UNDEFINED] is what reading [action] gives
    on a value that has no such property, which [lookupRule] can return and
    the [default:] branch of [executeDecision] handles. *)
Inductive Decision := ALLOW | DENY | ASK | UNDEFINED.

#[global] Instance Decision_eq_dec : EqDecision Decision.
Proof. solve_decision. Defined.

Record SecurityRule := mkRule {
  action : Decision;
  description : option string;
}.

Record SecurityPolicy := mkPolicy {
  defaultAction : Decision;
  modules : gmap string (gmap string SecurityRule);
}.

(** [args] are opaque to the decision logic: they are only logged. *)
Record ExecutionContext := mkContext {
  ctx_moduleName : string;
  ctx_methodName : string;
  ctx_args : list string;
  ctx_rule : SecurityRule;
  ctx_sessionKey : option string;
}.

(* ===================================================================== *)
(** * Property reads *)
(* ===================================================================== *)

Module JS.

(** The string-keyed properties of [Object.prototype].  An object literal and
    an object built by [JSON.parse] inherit them: a read [obj[name]] that
    finds no own property [name] continues on the prototype. *)
Definition Object_prototype : list string :=
  [ "constructor"; "__defineGetter__"; "__defineSetter__"; "hasOwnProperty";
    "__lookupGetter__"; "__lookupSetter__"; "isPrototypeOf"; "propertyIsEnumerable";
    "toString"; "valueOf"; "__proto__"; "toLocaleString" ].

Definition inherited (name : string) : bool := bool_decide (name ∈ Object_prototype).

(** What [obj[name]] finds: an own property, a member of [Object.prototype]
    (a function, or for [__proto__] the prototype itself: truthy in each
    case), or [undefined]. *)
Inductive Read (A : Type) := Own (a : A) | Inherited | Undefined.

Arguments Own {A} a.
Arguments Inherited {A}.
Arguments Undefined {A}.

Definition get {A} (obj : gmap string A) (name : string) : Read A :=
  match obj !! name with
  | Some a => Own a
  | None => if inherited name then Inherited else Undefined
  end.

End JS.

(* ===================================================================== *)
(** * The approval queue ([src/core/ApprovalQueue.ts]) *)
(* ===================================================================== *)

Module ApprovalQueue.

Inductive Status := pending | approved | denied.

#[global] Instance Status_eq_dec : EqDecision Status.
Proof. solve_decision. Defined.

Record ApprovalEntry := mkEntry {
  sessionKey : string;
  moduleName : string;
  methodName : string;
  status : Status;
  createdAt : Z;
  expiresAt : Z;
}.

Definition DEFAULT_TTL_MS : Z := 120000.
Definition CONSUME_MAX_AGE_MS : Z := 60000.
Definition CLEANUP_INTERVAL_MS : Z := 30000.

(** The private fields of the class. *)
Record t := mkQueue {
  entries : gmap string ApprovalEntry;
  blanketAllows : gmap string Z;
  lastCleanup : Z;
  ttl : Z;
}.

(** [constructor(ttlMs = DEFAULT_TTL_MS)]; [lastCleanup = Date.now()]. *)
Definition new (now : Z) (ttlMs : option Z) : t :=
  {| entries := ∅;
     blanketAllows := ∅;
     lastCleanup := now;
     ttl := default DEFAULT_TTL_MS ttlMs |}.

Definition with_entries (q : t) (m : gmap string ApprovalEntry) : t :=
  {| entries := m;
     blanketAllows := blanketAllows q;
     lastCleanup := lastCleanup q;
     ttl := ttl q |}.

Definition with_blanketAllows (q : t) (b : gmap string Z) : t :=
  {| entries := entries q;
     blanketAllows := b;
     lastCleanup := lastCleanup q;
     ttl := ttl q |}.

(** ** Key helpers *)

(** [`${sessionKey}::${moduleName}.${methodName}`] *)
Definition key (sessionKey moduleName methodName : string) : string :=
  sessionKey +:+ "::" +:+ moduleName +:+ "." +:+ methodName.

(** [Array.from(this.entries.keys()).filter(k => k.startsWith(`${sessionKey}::`))],
    the keys in the order of the finite map. *)
Definition keysForSession (sessionKey : string) (q : t) : list string :=
  filter (λ k, String.prefix (sessionKey +:+ "::") k) (map_to_list (entries q)).*1.

(** ** Housekeeping *)

Definition cleanup (now : Z) (q : t) : t :=
  {| entries := filter (λ kv, now < expiresAt kv.2) (entries q);
     blanketAllows := filter (λ kv, now < kv.2) (blanketAllows q);
     lastCleanup := now;
     ttl := ttl q |}.

Definition maybeCleanup (now : Z) (q : t) : t :=
  if CLEANUP_INTERVAL_MS <? now - lastCleanup q then cleanup now q else q.

(** ** Core API *)

(** The test [existing.status === 'pending' && Date.now() < existing.expiresAt]
    shared by [request], [consumePending], [approve], [hasPending] and
    [getPendingActions]. *)
Definition live_pending (now : Z) (e : ApprovalEntry) : bool :=
  bool_decide (status e = pending) && (now <? expiresAt e).

Definition live_approved (now : Z) (e : ApprovalEntry) : bool :=
  bool_decide (status e = approved) && (now <? expiresAt e).

Definition fresh_entry (now : Z) (q : t) (sessionKey moduleName methodName : string)
  : ApprovalEntry :=
  {| sessionKey := sessionKey;
     moduleName := moduleName;
     methodName := methodName;
     status := pending;
     createdAt := now;
     expiresAt := now + ttl q |}.

Definition request (now : Z) (sessionKey moduleName methodName : string) (q : t)
  : string * t :=
  let q := maybeCleanup now q in
  let k := key sessionKey moduleName methodName in
  let install :=
    (k, with_entries q (<[k := fresh_entry now q sessionKey moduleName methodName]> (entries q))) in
  match entries q !! k with
  | Some existing =>
      if live_pending now existing then
        let age := now - createdAt existing in
        if age <=? CONSUME_MAX_AGE_MS then (k, q) else install
      else install
  | None => install
  end.

Definition consume (now : Z) (sessionKey moduleName methodName : string) (q : t)
  : bool * t :=
  let k := key sessionKey moduleName methodName in
  match entries q !! k with
  | Some entry =>
      if live_approved now entry
      then (true, with_entries q (delete k (entries q)))
      else (false, q)
  | None => (false, q)
  end.

Definition consumePending (now : Z) (sessionKey moduleName methodName : string) (q : t)
  : bool * t :=
  let k := key sessionKey moduleName methodName in
  match entries q !! k with
  | Some entry =>
      if live_pending now entry then
        let age := now - createdAt entry in
        if CONSUME_MAX_AGE_MS <? age then (false, q)
        else (true, with_entries q (delete k (entries q)))
      else (false, q)
  | None => (false, q)
  end.

(** One iteration of the loop of [approve]:
    [const entry = this.entries.get(k)!; if (pending && unexpired) { ... count++ }].
    The entry is mutated in place; in the map this is a write under the same
    key.  The keys come from a snapshot of the map, so [get] always succeeds. *)
Definition approve_step (now ttlMs : Z) (acc : gmap string ApprovalEntry * nat) (k : string)
  : gmap string ApprovalEntry * nat :=
  let '(m, count) := acc in
  match m !! k with
  | Some entry =>
      if live_pending now entry
      then (<[k := {| sessionKey := sessionKey entry;
                      moduleName := moduleName entry;
                      methodName := methodName entry;
                      status := approved;
                      createdAt := createdAt entry;
                      expiresAt := now + ttlMs |}]> m, S count)
      else (m, count)
  | None => (m, count)
  end.

Definition approve (now : Z) (sessionKey : string) (q : t) : nat * t :=
  let q := maybeCleanup now q in
  let '(m, count) :=
    fold_left (approve_step now (ttl q)) (keysForSession sessionKey q) (entries q, 0%nat) in
  (count, with_entries q m).

(** One iteration of the loop of [deny]. *)
Definition deny_step (acc : gmap string ApprovalEntry * nat) (k : string)
  : gmap string ApprovalEntry * nat :=
  let '(m, count) := acc in
  match m !! k with
  | Some entry =>
      if bool_decide (status entry = pending)
      then (delete k m, S count)
      else (m, count)
  | None => (m, count)
  end.

Definition deny (now : Z) (sessionKey : string) (q : t) : nat * t :=
  let q := maybeCleanup now q in
  let '(m, count) :=
    fold_left deny_step (keysForSession sessionKey q) (entries q, 0%nat) in
  (count, with_entries q m).

Definition hasPending (now : Z) (sessionKey : string) (q : t) : bool :=
  existsb (λ k, from_option (live_pending now) false (entries q !! k))
          (keysForSession sessionKey q).

(** ** Blanket allows *)

Definition allowFor (now : Z) (sessionKey moduleName methodName : string) (durationMs : Z)
  (q : t) : t :=
  let k := key sessionKey moduleName methodName in
  with_blanketAllows q (<[k := now + durationMs]> (blanketAllows q)).

(** [if (!expiresAt) return false]: a missing key and the number [0] are both
    falsy. *)
Definition hasBlanketAllow (now : Z) (sessionKey moduleName methodName : string) (q : t)
  : bool * t :=
  let k := key sessionKey moduleName methodName in
  match blanketAllows q !! k with
  | None => (false, q)
  | Some expiresAt =>
      if expiresAt =? 0 then (false, q)
      else if expiresAt <=? now
           then (false, with_blanketAllows q (delete k (blanketAllows q)))
           else (true, q)
  end.

Definition getPendingActions (now : Z) (sessionKey : string) (q : t)
  : list (string * string) :=
  map (λ e, (moduleName e, methodName e))
      (filter (λ e, live_pending now e)
         (omap (λ k, entries q !! k) (keysForSession sessionKey q))).

End ApprovalQueue.

(* ===================================================================== *)
(** * The arbitrator ([src/core/Arbitrator.ts]) *)
(* ===================================================================== *)

Module Arbitrator.

Import ApprovalQueue.

(** What a judgment reads from its environment: [process.stdin.isTTY], the
    choice the human makes at the inquirer prompt, and the clock. *)
Record Env := mkEnv {
  stdinIsTTY : bool;
  promptDecision : bool;
  dateNow : Z;
}.

(** Mode 1: the prompt; the banner and the context are only printed. *)
Definition judgeTTY (env : Env) (context : ExecutionContext) : bool :=
  promptDecision env.

(** Mode 2: [sessionKey] is [context.sessionKey!]. *)
Definition judgeChannel (env : Env) (sessionKey : string) (context : ExecutionContext)
  (q : ApprovalQueue.t) : bool * ApprovalQueue.t :=
  let moduleName := ctx_moduleName context in
  let methodName := ctx_methodName context in
  let '(a, q) := consume (dateNow env) sessionKey moduleName methodName q in
  if a then (true, q)
  else
    let '(b, q) := consumePending (dateNow env) sessionKey moduleName methodName q in
    if b then (true, q)
    else
      let '(_, q) := request (dateNow env) sessionKey moduleName methodName q in
      (false, q).

(** [if (context.sessionKey)]: [undefined] and the empty string are falsy. *)
Definition truthy (sessionKey : option string) : bool :=
  match sessionKey with
  | Some s => negb (String.eqb s "")
  | None => false
  end.

Definition judge (env : Env) (context : ExecutionContext) (q : ApprovalQueue.t)
  : bool * ApprovalQueue.t :=
  if stdinIsTTY env then (judgeTTY env context, q)
  else
    match ctx_sessionKey context with
    | Some sessionKey =>
        if truthy (Some sessionKey) then judgeChannel env sessionKey context q
        else (false, q)
    | None => (false, q)
    end.

End Arbitrator.

(* ===================================================================== *)
(** * The interceptor ([src/core/Interceptor.ts]) *)
(* ===================================================================== *)

Module Interceptor.

Import Arbitrator.

Record t := mkInterceptor {
  policy : SecurityPolicy;
  logEnabled : bool;
  respondToolAvailable : bool;
}.

(** What the code reads of a member of [Object.prototype] returned in place
    of a rule: it has no [action] and no [description]. *)
Definition inherited_member : SecurityRule :=
  {| action := UNDEFINED; description := None |}.

(** [moduleRules && moduleRules[methodName]] are property reads, which also
    find the members of [Object.prototype]; a rule object is truthy.  When
    the module name itself is found on the prototype, [moduleRules] is a
    builtin function or, for [__proto__], [Object.prototype] itself, whose
    [__proto__] is [null].  The members of [Object.prototype] are read on it
    as on any object; the properties a builtin function has of its own or
    through [Function.prototype] ([name], [length], [call], the static
    methods of [Object], ...) are not modelled, and the statements that
    unfold [lookupRule] exclude such a module name. *)
Definition lookupRule (this : t) (moduleName methodName : string) : SecurityRule :=
  let fallback :=
    {| action := defaultAction (policy this);
       description :=
         Some ("No specific rule defined for " +:+ moduleName +:+ "." +:+ methodName) |} in
  match JS.get (modules (policy this)) moduleName with
  | JS.Own moduleRules =>
      match JS.get moduleRules methodName with
      | JS.Own rule => rule
      | JS.Inherited => inherited_member
      | JS.Undefined => fallback
      end
  | JS.Inherited =>
      if JS.inherited methodName
         && negb (String.eqb moduleName "__proto__" && String.eqb methodName "__proto__")
      then inherited_member
      else fallback
  | JS.Undefined => fallback
  end.

(** The decision written to the audit trail by [logDecision]. *)
Inductive AuditDecision := ALLOWED | APPROVED | REJECTED | BLOCKED.

(** Returns the verdict with the audited decision, or the message of the
    error thrown by the [default:] branch, and the queue.  Writing the record
    to [DecisionLog] and [StatsTracker] cannot change the verdict:
    [logDecision] swallows their failures. *)
Definition executeDecision (this : t) (env : Env) (rule : SecurityRule)
  (moduleName methodName : string) (args : list string) (sessionKey : option string)
  (q : ApprovalQueue.t) : (bool * AuditDecision + string) * ApprovalQueue.t :=
  match action rule with
  | ALLOW => (inl (true, ALLOWED), q)
  | DENY => (inl (false, BLOCKED), q)
  | ASK =>
      let context :=
        {| ctx_moduleName := moduleName;
           ctx_methodName := methodName;
           ctx_args := args;
           ctx_rule := rule;
           ctx_sessionKey := sessionKey |} in
      let '(approved, q) := judge env context q in
      (inl (approved, if approved then APPROVED else REJECTED), q)
  | UNDEFINED => (inr "Unknown decision type: undefined", q)
  end.

Definition nl : string := String "010"%char EmptyString.
Definition dq : string := String "034"%char EmptyString.

(** [rule.description || 'No description provided.'] *)
Definition detail (rule : SecurityRule) : string :=
  match description rule with
  | Some d => if String.eqb d "" then "No description provided." else d
  | None => "No description provided."
  end.

Definition instructions (this : t) (moduleName methodName : string) : string :=
  if respondToolAvailable this
  then "Ask the user: YES, NO, or ALLOW (auto-approve for 15 min)." +:+ nl +:+
       "- YES → clawbands_respond({ decision: " +:+ dq +:+ "yes" +:+ dq +:+ " }), then retry." +:+ nl +:+
       "- NO → clawbands_respond({ decision: " +:+ dq +:+ "no" +:+ dq +:+ " }). Do NOT retry." +:+ nl +:+
       "- ALLOW → clawbands_respond({ decision: " +:+ dq +:+ "allow" +:+ dq +:+
       " }), then retry. Auto-approves this action for 15 minutes."
  else "Ask the user YES or NO." +:+ nl +:+
       "- If YES: call " +:+ moduleName +:+ "." +:+ methodName +:+ "() again exactly as before." +:+ nl +:+
       "- If NO: do NOT call the tool again. Tell the user the action was cancelled.".

(** [evaluate] resolves or throws; the thrown [Error] is its message. *)
Inductive Outcome := Resolved | Thrown (message : string).

Definition evaluate (this : t) (env : Env) (moduleName methodName : string)
  (args : list string) (sessionKey : option string) (q : ApprovalQueue.t)
  : Outcome * ApprovalQueue.t :=
  let rule := lookupRule this moduleName methodName in
  let '(verdict, q) :=
    executeDecision this env rule moduleName methodName args sessionKey q in
  match verdict with
  | inr message => (Thrown message, q)
  | inl (allowed, _) =>
    if allowed then (Resolved, q)
    else
      let isChannelMode := negb (stdinIsTTY env) && truthy sessionKey in
      if isChannelMode
      then (Thrown ("[ClawBands:APPROVAL_REQUIRED] " +:+ moduleName +:+ "." +:+ methodName +:+
                    "() is blocked pending human approval. " +:+
                    "Risk: " +:+ detail rule +:+ nl +:+
                    instructions this moduleName methodName), q)
      else (Thrown ("ClawBands Security Violation: " +:+ moduleName +:+ "." +:+ methodName +:+
                    "() was DENIED. " +:+ detail rule), q)
  end.

End Interceptor.

(* ===================================================================== *)
(** * The default policy ([src/config.ts]) *)
(* ===================================================================== *)

Definition DEFAULT_POLICY : SecurityPolicy :=
  {| defaultAction := ASK;
     modules :=
       list_to_map
         [ ("FileSystem",
            list_to_map
              [ ("read", mkRule ALLOW (Some "Read-only access is generally safe"));
                ("write", mkRule ASK (Some "Modification of files requires approval"));
                ("delete", mkRule DENY (Some "Deletion is strictly prohibited")) ]);
           ("Shell",
            list_to_map
              [ ("bash", mkRule ASK (Some "Shell command execution risk"));
                ("exec", mkRule ASK (Some "Arbitrary Code Execution (RCE) risk"));
                ("spawn", mkRule ASK (Some "Process spawning risk")) ]);
           ("Network",
            list_to_map
              [ ("fetch", mkRule ASK (Some "Potential data exfiltration"));
                ("request", mkRule ASK (Some "HTTP request may leak data")) ]) ] |}.

(** [new Interceptor(policy?, logEnabled = true)] *)
Definition new_Interceptor (policy : option SecurityPolicy) (logEnabled : option bool)
  : Interceptor.t :=
  {| Interceptor.policy := default DEFAULT_POLICY policy;
     Interceptor.logEnabled := default true logEnabled;
     Interceptor.respondToolAvailable := false |}.

(* ===================================================================== *)
(** * The reply tool ([src/plugin/tool-interceptor.ts]) *)
(* ===================================================================== *)

Module ToolInterceptor.

Import ApprovalQueue.

Record BeforeToolCallResult := mkResult {
  block : bool;
  blockReason : string;
}.

(** [handleRespondTool(params, ctx)].  [decision] is the normalised reply,
    [typeof params.decision === 'string' ? params.decision.toLowerCase() : ''],
    and [sessionKey] is [ctx.sessionKey]; [if (!sessionKey)] rejects a missing
    and an empty key.  The pending actions are listed in the order of
    [keysForSession]: the order of the keys here, the order of insertion in
    the code, which reaches the text of the reply to [allow] and nothing
    else. *)
Definition handleRespondTool (now : Z) (decision : string) (sessionKey : option string)
  (q : ApprovalQueue.t) : BeforeToolCallResult * ApprovalQueue.t :=
  let BLANKET_DURATION_MS := 15 * 60 * 1000 in
  match sessionKey with
  | None => (mkResult true "Error: no session context available.", q)
  | Some sessionKey =>
    if String.eqb sessionKey ""
    then (mkResult true "Error: no session context available.", q)
    else if String.eqb decision "yes" then
      if negb (hasPending now sessionKey q)
      then (mkResult true "No pending approvals to approve.", q)
      else
        let '(_, q) := approve now sessionKey q in
        (mkResult true "Approved. Retry the blocked tool.", q)
    else if String.eqb decision "no" then
      let '(_, q) := deny now sessionKey q in
      (mkResult true "Denied. Do NOT retry the blocked tool.", q)
    else if String.eqb decision "allow" then
      let pendingActions := getPendingActions now sessionKey q in
      match pendingActions with
      | [] => (mkResult true "No pending approvals to allow.", q)
      | _ =>
        let q :=
          fold_left (λ q p, allowFor now sessionKey p.1 p.2 BLANKET_DURATION_MS q)
                    pendingActions q in
        let '(_, q) := approve now sessionKey q in
        let rules := String.concat ", " (map (λ p, p.1 +:+ "." +:+ p.2) pendingActions) in
        (mkResult true ("Approved for 15 minutes: " +:+ rules +:+ ". Retry the blocked tool."), q)
      end
    else (mkResult true ("Invalid decision. Use " +:+ Interceptor.dq +:+ "yes" +:+ Interceptor.dq +:+
                         ", " +:+ Interceptor.dq +:+ "no" +:+ Interceptor.dq +:+
                         ", or " +:+ Interceptor.dq +:+ "allow" +:+ Interceptor.dq +:+ "."), q)
  end.

End ToolInterceptor.

(** ** The [before_tool_call] hook ([src/plugin/tool-interceptor.ts]) *)

Module ToolCallHook.

Import ApprovalQueue Arbitrator ToolInterceptor.

Definition CLAWBANDS_RESPOND_TOOL : string := "clawbands_respond".

(** The table maps a flat tool name to [(module, method)].  Reading a name
    that is not a key of the object literal yields [undefined] or a member of
    [Object.prototype] without [module] and [method] fields; both take the
    [??] defaults, as a failed lookup does here. *)
Definition TOOL_TO_MODULE : gmap string (string * string) :=
  list_to_map
    [ ("read", ("FileSystem", "read"));
      ("write", ("FileSystem", "write"));
      ("edit", ("FileSystem", "edit"));
      ("glob", ("FileSystem", "list"));
      ("bash", ("Shell", "bash"));
      ("exec", ("Shell", "exec"));
      ("navigate", ("Browser", "navigate"));
      ("screenshot", ("Browser", "screenshot"));
      ("click", ("Browser", "click"));
      ("type", ("Browser", "type"));
      ("evaluate", ("Browser", "evaluate"));
      ("fetch", ("Network", "fetch"));
      ("request", ("Network", "request"));
      ("webhook", ("Network", "webhook"));
      ("download", ("Network", "download"));
      ("list_sessions", ("Gateway", "listSessions"));
      ("list_nodes", ("Gateway", "listNodes"));
      ("send_message", ("Gateway", "sendMessage")) ].

Section Hook.

(** [String.prototype.toLowerCase], which the embedding does not fix. *)
Variable toLowerCase : string → string.

(** The handler returned by [createToolCallHook(interceptor)], applied to
    [event = { toolName, params }] and [ctx = { sessionKey }].  [decision] is
    the normalised [params.decision] read by [handleRespondTool], [args] is
    [[params]].  [None] is the passthrough result [{}]. *)
Definition createToolCallHook (interceptor : Interceptor.t) (env : Env)
  (toolName decision : string) (args : list string) (sessionKey : option string)
  (q : ApprovalQueue.t) : option BeforeToolCallResult * ApprovalQueue.t :=
  if String.eqb toolName CLAWBANDS_RESPOND_TOOL
  then
    let '(r, q) := handleRespondTool (dateNow env) decision sessionKey q in
    (Some r, q)
  else
    let mapping := TOOL_TO_MODULE !! toLowerCase toolName in
    let moduleName := from_option fst "Unknown" mapping in
    let methodName := from_option snd toolName mapping in
    let '(outcome, q) :=
      Interceptor.evaluate interceptor env moduleName methodName args sessionKey q in
    match outcome with
    | Interceptor.Resolved => (None, q)
    | Interceptor.Thrown reason => (Some (mkResult true reason), q)
    end.

End Hook.

End ToolCallHook.

(* ===================================================================== *)
(** * Plugin registration ([src/plugin/index.ts]) *)
(* ===================================================================== *)

Module Plugin.

(** What calling an optional method of the gateway API does: the method is
    missing, returns, or throws. *)
Inductive ApiMethod := Missing | Returns | Throws.

Record OpenClawPluginApi := mkApi {
  on : ApiMethod;
  registerTool : ApiMethod;
}.

Definition tryRegisterTool (api : OpenClawPluginApi) : bool :=
  match registerTool api with
  | Missing => false
  | Returns => true
  | Throws => false
  end.

Definition tryOn (api : OpenClawPluginApi) : bool :=
  match on api with
  | Missing => false
  | Returns => true
  | Throws => false
  end.

(** [register(api)].  [loaded] is the result of [PolicyStore.loadSync()],
    [None] when it throws; the error is rethrown.  A loaded policy is taken
    to have its declared type: [loadSync] parses the file without validating
    it.  On success the result is the interceptor and whether the
    [before_tool_call] hook was attached. *)
Definition register (loaded : option SecurityPolicy) (api : OpenClawPluginApi)
  : option (Interceptor.t * bool) :=
  match loaded with
  | None => None
  | Some policy =>
      let interceptor := new_Interceptor (Some policy) None in
      let attached := tryOn api in
      let toolRegistered := tryRegisterTool api in
      Some ({| Interceptor.policy := Interceptor.policy interceptor;
               Interceptor.logEnabled := Interceptor.logEnabled interceptor;
               Interceptor.respondToolAvailable := toolRegistered |}, attached)
  end.

End Plugin.

(* ===================================================================== *)
(** * Statistics ([src/storage/StatsTracker.ts]) *)
(* ===================================================================== *)

Module StatsTracker.

(** The counters are JavaScript numbers holding integers; they and the
    products below are exact as long as they stay under 2^52. *)
Record Stats := mkStats {
  totalCalls : Z;
  approved : Z;
  rejected : Z;
  blocked : Z;
  allowed : Z;
  avgDecisionTime : Z;
  lastReset : string;
}.

(** The content of [stats.json]; [None] when the file does not exist. *)
Definition Store := option Stats.

Definition zeroStats (isoNow : string) : Stats :=
  {| totalCalls := 0; approved := 0; rejected := 0; blocked := 0; allowed := 0;
     avgDecisionTime := 0; lastReset := isoNow |}.

(** [load()]: the file's content, or fresh zeros written to the file. *)
Definition load (isoNow : string) (file : Store) : Stats * Store :=
  match file with
  | Some stats => (stats, file)
  | None => (zeroStats isoNow, Some (zeroStats isoNow))
  end.

(** [Math.round(a / n)] for integers [a] and [n > 0]: the nearest integer,
    halves rounded up. *)
Definition round_div (a n : Z) : Z := (2 * a + n) / (2 * n).

(** [increment(decision, decisionTime)]: one link of the write chain, which
    runs the links one after the other. *)
Definition increment (isoNow : string) (decision : Interceptor.AuditDecision)
  (decisionTime : Z) (file : Store) : Store :=
  let '(stats, _) := load isoNow file in
  let totalCalls' := totalCalls stats + 1 in
  let '(allowed', approved', rejected', blocked') :=
    match decision with
    | Interceptor.ALLOWED =>
        (allowed stats + 1, approved stats, rejected stats, blocked stats)
    | Interceptor.APPROVED =>
        (allowed stats, approved stats + 1, rejected stats, blocked stats)
    | Interceptor.REJECTED =>
        (allowed stats, approved stats, rejected stats + 1, blocked stats)
    | Interceptor.BLOCKED =>
        (allowed stats, approved stats, rejected stats, blocked stats + 1)
    end in
  let totalDecisionTime := avgDecisionTime stats * (totalCalls' - 1) + decisionTime in
  Some {| totalCalls := totalCalls';
          approved := approved';
          rejected := rejected';
          blocked := blocked';
          allowed := allowed';
          avgDecisionTime := round_div totalDecisionTime totalCalls';
          lastReset := lastReset stats |}.

Definition reset (isoNow : string) (file : Store) : Store := Some (zeroStats isoNow).

End StatsTracker.

(* ===================================================================== *)
(** * The audit trail ([src/storage/DecisionLog.ts]) *)
(* ===================================================================== *)

Module DecisionLog.

(** [Array.prototype.slice(start)] for an integer [start]: a negative start
    counts from the end, and the start is clamped to the array. *)
Definition slice {A} (start : Z) (l : list A) : list A :=
  let len := Z.of_nat (length l) in
  let k := if start <? 0 then Z.max (len + start) 0 else Z.min start len in
  drop (Z.to_nat k) l.

(** [readLast(n)] on the records returned by [readAll()]. *)
Definition readLast {A} (n : Z) (all : list A) : list A := slice (- n) all.

End DecisionLog.

(* ===================================================================== *)
(** * The terminal display ([src/core/Arbitrator.ts]) *)
(* ===================================================================== *)

Module Display.

(** [s.split(sep)] for a separator of one character. *)
Fixpoint split (sep : ascii) (s : string) : list string :=
  match s with
  | EmptyString => [EmptyString]
  | String a s' =>
      if bool_decide (a = sep) then EmptyString :: split sep s'
      else match split sep s' with
           | line :: lines => String a line :: lines
           | [] => [String a EmptyString]
           end
  end.

(** [json.split('\n').map((line) => '  ' + line).join('\n')] *)
Definition indentJson (json : string) : string :=
  String.concat Interceptor.nl (map (λ line, "  " +:+ line) (split "010" json)).

End Display.

Import ApprovalQueue Arbitrator Interceptor ToolInterceptor.

(* ===================================================================== *)
(** * Vocabulary of the properties *)
(* ===================================================================== *)

(** Every entry is stored under the composite key of its own fields.  All
    operations of the queue keep this (see [well_keyed_request] and the
    lemmas after it). *)
Definition well_keyed (q : ApprovalQueue.t) : Prop :=
  map_Forall (λ k e, k = key (sessionKey e) (moduleName e) (methodName e)) (entries q).

(** [keysForSession s] selects, among the stored keys, exactly those of the
    entries whose [sessionKey] is [s]. *)
Definition selects_own_entries (s : string) (q : ApprovalQueue.t) : Prop :=
  map_Forall (λ k e, String.prefix (s +:+ "::") k = true ↔ sessionKey e = s) (entries q).

#[global] Instance well_keyed_dec (q : ApprovalQueue.t) : base.Decision (well_keyed q).
Proof. unfold well_keyed. apply _. Defined.

#[global] Instance selects_own_entries_dec (s : string) (q : ApprovalQueue.t) :
  base.Decision (selects_own_entries s q).
Proof. unfold selects_own_entries. apply _. Defined.

(** What [approve] writes into a pending, unexpired entry. *)
Definition approved_at (now ttlMs : Z) (e : ApprovalEntry) : ApprovalEntry :=
  {| sessionKey := sessionKey e;
     moduleName := moduleName e;
     methodName := methodName e;
     status := approved;
     createdAt := createdAt e;
     expiresAt := now + ttlMs |}.

(** The effect of the loop of [approve] on the entry stored under [k]. *)
Definition approve_entry (now ttlMs : Z) (e : ApprovalEntry) : ApprovalEntry :=
  if live_pending now e then approved_at now ttlMs e else e.

(** The effect of the loop of [deny] on the entry stored under [k]. *)
Definition deny_entry (e : ApprovalEntry) : option ApprovalEntry :=
  if bool_decide (status e = pending) then None else Some e.

(** No stored entry carries the status [denied]. *)
Definition no_denied (q : ApprovalQueue.t) : Prop :=
  map_Forall (λ _ e, status e ≠ denied) (entries q).

(** No stored entry expires later than one TTL after the instant [t]. *)
Definition expires_within (t : Z) (q : ApprovalQueue.t) : Prop :=
  map_Forall (λ _ e, expiresAt e ≤ t + ttl q) (entries q).

(** The character [c] occurs in [s]. *)
Fixpoint occurs (c : ascii) (s : string) : bool :=
  match s with
  | EmptyString => false
  | String a s' => bool_decide (a = c) || occurs c s'
  end.

(** The four counters are non-negative and add up to [totalCalls]. *)
Definition counters_add_up (stats : StatsTracker.Stats) : Prop :=
  0 ≤ StatsTracker.allowed stats ∧ 0 ≤ StatsTracker.approved stats ∧
  0 ≤ StatsTracker.rejected stats ∧ 0 ≤ StatsTracker.blocked stats ∧
  StatsTracker.totalCalls stats
  = StatsTracker.allowed stats + StatsTracker.approved stats +
    StatsTracker.rejected stats + StatsTracker.blocked stats.

(** The calls that reach the shared queue: its own methods, a judgment of
    the arbitrator, and a reply through [clawbands_respond]. *)
Inductive Call :=
  | CallRequest (s m meth : string)
  | CallConsume (s m meth : string)
  | CallConsumePending (s m meth : string)
  | CallApprove (s : string)
  | CallDeny (s : string)
  | CallAllowFor (s m meth : string) (durationMs : Z)
  | CallHasBlanketAllow (s m meth : string)
  | CallJudge (stdinIsTTY promptDecision : bool) (context : ExecutionContext)
  | CallRespond (decision : string) (sessionKey : option string).

(** The queue after a call made at the instant [now]. *)
Definition run (now : Z) (c : Call) (q : ApprovalQueue.t) : ApprovalQueue.t :=
  match c with
  | CallRequest s m meth => (request now s m meth q).2
  | CallConsume s m meth => (consume now s m meth q).2
  | CallConsumePending s m meth => (consumePending now s m meth q).2
  | CallApprove s => (approve now s q).2
  | CallDeny s => (deny now s q).2
  | CallAllowFor s m meth durationMs => allowFor now s m meth durationMs q
  | CallHasBlanketAllow s m meth => (hasBlanketAllow now s m meth q).2
  | CallJudge tty prompt context => (judge (mkEnv tty prompt now) context q).2
  | CallRespond decision sessionKey => (handleRespondTool now decision sessionKey q).2
  end.

(** The queue after a sequence of timed calls, first call first. *)
Definition runs (calls : list (Z * Call)) (q : ApprovalQueue.t) : ApprovalQueue.t :=
  fold_left (λ q c, run c.1 c.2 q) calls q.

(** The clock does not go back: the instants of the calls are non-decreasing,
    starting from [t]. *)
Fixpoint clock_monotone (t : Z) (calls : list (Z * Call)) : Prop :=
  match calls with
  | [] => True
  | c :: calls => t ≤ c.1 ∧ clock_monotone c.1 calls
  end.

(** The instant of the last call, [t] when there is none. *)
Definition last_instant (t : Z) (calls : list (Z * Call)) : Z :=
  fold_left (λ _ c, c.1) calls t.

(** The only key a call can add to the map of entries. *)
Definition armed_key (c : Call) : option string :=
  match c with
  | CallRequest s m meth => Some (key s m meth)
  | CallJudge false _ context =>
      match ctx_sessionKey context with
      | Some s => Some (key s (ctx_moduleName context) (ctx_methodName context))
      | None => None
      end
  | _ => None
  end.

(** The message of the error [evaluate] throws when the call is not allowed:
    the approval prompt in Channel mode, the violation otherwise. *)
Definition blocked_message (this : Interceptor.t) (env : Env) (m meth : string)
  (sk : option string) : string :=
  if negb (stdinIsTTY env) && truthy sk
  then "[ClawBands:APPROVAL_REQUIRED] " +:+ m +:+ "." +:+ meth +:+
       "() is blocked pending human approval. " +:+
       "Risk: " +:+ detail (lookupRule this m meth) +:+ nl +:+
       instructions this m meth
  else "ClawBands Security Violation: " +:+ m +:+ "." +:+ meth +:+
       "() was DENIED. " +:+ detail (lookupRule this m meth).

(* ===================================================================== *)
(** * Keys and prefixes *)
(* ===================================================================== *)

Lemma prefix_app_r (p r : string) : String.prefix p (p +:+ r) = true.
Proof.
  induction p as [|a p IH]; simpl.
  - by destruct r.
  - destruct (ascii_dec a a); [done | congruence].
Qed.

Lemma append_assoc (a b c : string) : (a +:+ b) +:+ c = a +:+ (b +:+ c).
Proof. induction a as [|x a IH]; [done|]. change (String x ((a +:+ b) +:+ c) = String x (a +:+ (b +:+ c))). by f_equal. Qed.

Lemma prefix_key (s m meth : string) :
  String.prefix (s +:+ "::") (key s m meth) = true.
Proof.
  unfold key.
  rewrite <- (append_assoc s "::" (m +:+ "." +:+ meth)).
  apply prefix_app_r.
Qed.

Lemma elem_of_keysForSession (s k : string) (q : ApprovalQueue.t) :
  k ∈ keysForSession s q ↔
  is_Some (entries q !! k) ∧ String.prefix (s +:+ "::") k = true.
Proof.
  unfold keysForSession.
  rewrite list_elem_of_filter, Is_true_true, list_elem_of_fmap.
  split.
  - intros [Hp [[k' e] [-> Hin]]].
    apply elem_of_map_to_list in Hin. eauto.
  - intros [[e He] Hp]. split; [done|].
    exists (k, e). split; [done|]. by apply elem_of_map_to_list.
Qed.

Lemma NoDup_keysForSession (s : string) (q : ApprovalQueue.t) :
  NoDup (keysForSession s q).
Proof. apply NoDup_filter, NoDup_fst_map_to_list. Qed.

(* ===================================================================== *)
(** * Housekeeping *)
(* ===================================================================== *)

Lemma cleanup_lookup_Some (now : Z) (q : ApprovalQueue.t) (k : string) (e : ApprovalEntry) :
  entries (cleanup now q) !! k = Some e ↔ entries q !! k = Some e ∧ now < expiresAt e.
Proof. unfold cleanup; simpl. by rewrite map_lookup_filter_Some. Qed.

Lemma maybeCleanup_lookup_Some (now : Z) (q : ApprovalQueue.t) (k : string) (e : ApprovalEntry) :
  entries (maybeCleanup now q) !! k = Some e → entries q !! k = Some e.
Proof.
  unfold maybeCleanup. case_match; [|done].
  rewrite cleanup_lookup_Some. tauto.
Qed.

Lemma maybeCleanup_lookup_live (now : Z) (q : ApprovalQueue.t) (k : string) (e : ApprovalEntry) :
  entries q !! k = Some e → now < expiresAt e →
  entries (maybeCleanup now q) !! k = Some e.
Proof.
  intros He Hlive. unfold maybeCleanup. case_match; [|done].
  by apply cleanup_lookup_Some.
Qed.

Lemma maybeCleanup_lookup_None (now : Z) (q : ApprovalQueue.t) (k : string) :
  entries q !! k = None → entries (maybeCleanup now q) !! k = None.
Proof.
  intros Hk. destruct (entries (maybeCleanup now q) !! k) as [e|] eqn:He; [|done].
  apply maybeCleanup_lookup_Some in He. congruence.
Qed.

(** The sweep only drops entries, and only expired ones. *)
Lemma maybeCleanup_lookup (now : Z) (q : ApprovalQueue.t) (k : string) :
  entries (maybeCleanup now q) !! k = entries q !! k ∨
  (∃ e, entries q !! k = Some e ∧ expiresAt e ≤ now ∧
        entries (maybeCleanup now q) !! k = None).
Proof.
  destruct (entries q !! k) as [e|] eqn:He.
  - destruct (decide (now < expiresAt e)) as [Hlive|Hdead].
    + left. by apply maybeCleanup_lookup_live.
    + destruct (entries (maybeCleanup now q) !! k) as [e'|] eqn:He'.
      * left. apply maybeCleanup_lookup_Some in He'. congruence.
      * right. exists e. split; [done|]. split; [lia | done].
  - left. by apply maybeCleanup_lookup_None.
Qed.

Lemma maybeCleanup_ttl (now : Z) (q : ApprovalQueue.t) : ttl (maybeCleanup now q) = ttl q.
Proof. unfold maybeCleanup. by case_match. Qed.

(* ===================================================================== *)
(** * Sanity checks on concrete runs *)
(* ===================================================================== *)

Example key_ex : key "s" "Shell" "bash" = "s::Shell.bash".
Proof. reflexivity. Qed.

Example request_ex :
  (request 5 "s" "Shell" "bash" (ApprovalQueue.new 0 None)).2.(entries) !! "s::Shell.bash"
  = Some (mkEntry "s" "Shell" "bash" pending 5 120005).
Proof. vm_compute. reflexivity. Qed.

Example approve_ex :
  let q1 := (request 5 "s" "Shell" "bash" (ApprovalQueue.new 0 None)).2 in
  let '(n, q2) := approve 10 "s" q1 in
  (n, entries q2 !! "s::Shell.bash") = (1%nat, Some (mkEntry "s" "Shell" "bash" approved 5 120010)).
Proof. vm_compute. reflexivity. Qed.

Example evaluate_allow_ex :
  evaluate (new_Interceptor None None) (mkEnv false false 0) "FileSystem" "read" [] (Some "s")
           (ApprovalQueue.new 0 None)
  = (Resolved, ApprovalQueue.new 0 None).
Proof. vm_compute. reflexivity. Qed.

Example evaluate_deny_ex :
  evaluate (new_Interceptor None None) (mkEnv false false 0) "FileSystem" "delete" [] (Some "s")
           (ApprovalQueue.new 0 None)
  = (Thrown ("[ClawBands:APPROVAL_REQUIRED] FileSystem.delete() is blocked pending human approval. "
             +:+ "Risk: Deletion is strictly prohibited" +:+ nl
             +:+ "Ask the user YES or NO." +:+ nl
             +:+ "- If YES: call FileSystem.delete() again exactly as before." +:+ nl
             +:+ "- If NO: do NOT call the tool again. Tell the user the action was cancelled."),
     ApprovalQueue.new 0 None).
Proof. vm_compute. reflexivity. Qed.

Example evaluate_headless_ex :
  (evaluate (new_Interceptor None None) (mkEnv false false 0) "Unknown" "x" [] None
            (ApprovalQueue.new 0 None)).1
  = Thrown "ClawBands Security Violation: Unknown.x() was DENIED. No specific rule defined for Unknown.x".
Proof. vm_compute. reflexivity. Qed.

Example evaluate_tty_ex :
  evaluate (new_Interceptor None None) (mkEnv true true 0) "Shell" "bash" [] (Some "s")
           (ApprovalQueue.new 0 None)
  = (Resolved, ApprovalQueue.new 0 None).
Proof. vm_compute. reflexivity. Qed.

Example blanket_ex :
  let q := allowFor 0 "s" "Net" "fetch" 500 (ApprovalQueue.new 0 None) in
  (hasBlanketAllow 499 "s" "Net" "fetch" q).1 = true ∧
  hasBlanketAllow 500 "s" "Net" "fetch" q = (false, ApprovalQueue.new 0 None).
Proof. vm_compute. split; reflexivity. Qed.

(* ===================================================================== *)
(** * [request], [consume] and [consumePending] on their key *)
(* ===================================================================== *)

Lemma live_pending_true (now : Z) (e : ApprovalEntry) :
  live_pending now e = true ↔ status e = pending ∧ now < expiresAt e.
Proof.
  unfold live_pending.
  rewrite andb_true_iff, bool_decide_eq_true, Z.ltb_lt. tauto.
Qed.

Lemma live_approved_true (now : Z) (e : ApprovalEntry) :
  live_approved now e = true ↔ status e = approved ∧ now < expiresAt e.
Proof.
  unfold live_approved.
  rewrite andb_true_iff, bool_decide_eq_true, Z.ltb_lt. tauto.
Qed.

Lemma live_pending_false (now : Z) (e : ApprovalEntry) :
  live_pending now e = false ↔ ¬ (status e = pending ∧ now < expiresAt e).
Proof. rewrite <- live_pending_true. by destruct (live_pending now e). Qed.

(** The entry [request] leaves under its key is the old one when that is a
    live pending entry inside the retry window, and a fresh one otherwise. *)
Lemma request_kept (now : Z) (s m meth : string) (q : ApprovalQueue.t) (e : ApprovalEntry) :
  entries q !! key s m meth = Some e →
  status e = pending → now < expiresAt e → now - createdAt e ≤ CONSUME_MAX_AGE_MS →
  request now s m meth q = (key s m meth, maybeCleanup now q).
Proof.
  intros He Hst Hlive Hage. unfold request.
  rewrite (maybeCleanup_lookup_live now q _ e He Hlive).
  assert (live_pending now e = true) as -> by by apply live_pending_true.
  by assert ((now - createdAt e <=? CONSUME_MAX_AGE_MS) = true) as -> by lia.
Qed.

Lemma request_fresh (now : Z) (s m meth : string) (q : ApprovalQueue.t) :
  (∀ e, entries q !! key s m meth = Some e →
        ¬ (status e = pending ∧ now < expiresAt e ∧ now - createdAt e ≤ CONSUME_MAX_AGE_MS)) →
  request now s m meth q =
    (key s m meth,
     with_entries (maybeCleanup now q)
       (<[key s m meth := mkEntry s m meth pending now (now + ttl q)]>
          (entries (maybeCleanup now q)))).
Proof.
  intros Hno. unfold request, fresh_entry. rewrite maybeCleanup_ttl.
  destruct (entries (maybeCleanup now q) !! key s m meth) as [e|] eqn:He; [|done].
  apply maybeCleanup_lookup_Some in He. specialize (Hno e He).
  destruct (live_pending now e) eqn:Hl; [|done].
  apply live_pending_true in Hl as [? ?].
  destruct (now - createdAt e <=? CONSUME_MAX_AGE_MS) eqn:Hage; [|done].
  exfalso. apply Hno. repeat split; [done..|lia].
Qed.

(** Whatever the queue, [request] leaves a pending entry under its key. *)
Lemma request_arms (now : Z) (s m meth : string) (q : ApprovalQueue.t) :
  ∃ e, entries (request now s m meth q).2 !! key s m meth = Some e ∧ status e = pending.
Proof.
  unfold request.
  destruct (entries (maybeCleanup now q) !! key s m meth) as [e|] eqn:He.
  - destruct (live_pending now e) eqn:Hl.
    + apply live_pending_true in Hl as [? ?].
      destruct (now - createdAt e <=? CONSUME_MAX_AGE_MS); simpl.
      * eauto.
      * rewrite lookup_insert_eq. eauto.
    + simpl. rewrite lookup_insert_eq. eauto.
  - simpl. rewrite lookup_insert_eq. eauto.
Qed.

Lemma request_ttl (now : Z) (s m meth : string) (q : ApprovalQueue.t) :
  ttl (request now s m meth q).2 = ttl q.
Proof.
  unfold request. repeat case_match; simpl; apply maybeCleanup_ttl.
Qed.

Lemma consume_true (now : Z) (s m meth : string) (q : ApprovalQueue.t) :
  (consume now s m meth q).1 = true ↔
  ∃ e, entries q !! key s m meth = Some e ∧ status e = approved ∧ now < expiresAt e.
Proof.
  unfold consume.
  destruct (entries q !! key s m meth) as [e|] eqn:He.
  - destruct (live_approved now e) eqn:Hl; simpl.
    + apply live_approved_true in Hl. split; [eauto|done].
    + split; [done|]. intros (e' & [= <-] & Hst & Hlive).
      assert (live_approved now e = true) by by apply live_approved_true.
      congruence.
  - simpl. split; [done|]. by intros (e' & ? & _).
Qed.

Lemma consume_state (now : Z) (s m meth : string) (q : ApprovalQueue.t) :
  (consume now s m meth q).2 =
    if (consume now s m meth q).1
    then with_entries q (delete (key s m meth) (entries q))
    else q.
Proof. unfold consume. by repeat case_match. Qed.

(** C2. For a pending, unexpired entry of age at most 60 s, [consumePending]
    deletes the entry and returns true.  For a pending entry older than the
    window it returns false and keeps the entry, and a [request] made then or
    later installs a fresh entry with the new [createdAt].  For a missing key
    and for an expired entry it returns false and the queue is unchanged. *)
Theorem consumePending_spec (now : Z) (s m meth : string) (q : ApprovalQueue.t) :
  (∀ e, entries q !! key s m meth = Some e →
        status e = pending → now < expiresAt e →
        now - createdAt e ≤ CONSUME_MAX_AGE_MS →
        consumePending now s m meth q
          = (true, with_entries q (delete (key s m meth) (entries q))) ∧
        entries (consumePending now s m meth q).2 !! key s m meth = None) ∧
  (∀ e, entries q !! key s m meth = Some e →
        status e = pending → CONSUME_MAX_AGE_MS < now - createdAt e →
        consumePending now s m meth q = (false, q) ∧
        ∀ later, now ≤ later →
          entries (request later s m meth q).2 !! key s m meth
            = Some (mkEntry s m meth pending later (later + ttl q))) ∧
  (entries q !! key s m meth = None → consumePending now s m meth q = (false, q)) ∧
  (∀ e, entries q !! key s m meth = Some e → expiresAt e ≤ now →
        consumePending now s m meth q = (false, q)).
Proof.
  split; [|split; [|split]].
  - intros e He Hst Hlive Hage. unfold consumePending. rewrite He.
    assert (live_pending now e = true) as -> by by apply live_pending_true.
    assert ((CONSUME_MAX_AGE_MS <? now - createdAt e) = false) as -> by lia.
    split; [done|]. simpl. apply lookup_delete_eq.
  - intros e He Hst Hage. split.
    + unfold consumePending. rewrite He.
      destruct (live_pending now e); [|done].
      by assert ((CONSUME_MAX_AGE_MS <? now - createdAt e) = true) as -> by lia.
    + intros later Hlater. rewrite request_fresh.
      * simpl. apply lookup_insert_eq.
      * intros e' He'. assert (e' = e) as -> by congruence. lia.
  - intros Hnone. unfold consumePending. by rewrite Hnone.
  - intros e He Hdead. unfold consumePending. rewrite He.
    assert (live_pending now e = false) as ->; [|done].
    apply live_pending_false. lia.
Qed.

(* ===================================================================== *)
(** * The loops of [approve] and [deny] *)
(* ===================================================================== *)

Lemma filter_ext_elem_of {A} (P1 P2 : A → Prop)
    `{!∀ x, base.Decision (P1 x), !∀ x, base.Decision (P2 x)} (l : list A) :
  (∀ x, x ∈ l → P1 x ↔ P2 x) → filter P1 l = filter P2 l.
Proof.
  induction l as [|x l IH]; intros Hext; [done|].
  rewrite !filter_cons.
  rewrite IH by (intros y Hy; apply Hext; by apply list_elem_of_further).
  pose proof (Hext x (list_elem_of_here x l)) as Hx.
  destruct (decide (P1 x)), (decide (P2 x)); tauto.
Qed.

(** Both loops run over a snapshot of keys; an iteration reads and writes the
    map under its own key only, and bumps the counter when it acts. *)
Section KeyLoop.
Variable step : gmap string ApprovalEntry * nat → string → gmap string ApprovalEntry * nat.
Variable effect : ApprovalEntry → option ApprovalEntry.
Variable acts : ApprovalEntry → bool.

Hypothesis step_lookup : ∀ m c a k,
  (step (m, c) a).1 !! k = if decide (k = a) then m !! k ≫= effect else m !! k.
Hypothesis step_count : ∀ m c a,
  (step (m, c) a).2 = (c + if from_option acts false (m !! a) then 1 else 0)%nat.
Hypothesis effect_idemp : ∀ e, effect e ≫= effect = effect e.

Lemma loop_lookup (ks : list string) (m : gmap string ApprovalEntry) (c : nat) (k : string) :
  (fold_left step ks (m, c)).1 !! k =
    if decide (k ∈ ks) then m !! k ≫= effect else m !! k.
Proof.
  revert m c. induction ks as [|a ks IH]; intros m c; cbn [fold_left].
  - by rewrite decide_False by apply not_elem_of_nil.
  - destruct (step (m, c) a) as [m' c'] eqn:Hstep.
    rewrite IH.
    pose proof (step_lookup m c a k) as Hk.
    rewrite Hstep in Hk; cbn [fst] in Hk. rewrite Hk.
    destruct (decide (k = a)) as [->|Hne].
    + rewrite (decide_True (P := a ∈ a :: ks)) by apply list_elem_of_here.
      destruct (decide (a ∈ ks)) as [Hin|Hnin]; [|done].
      destruct (m !! a) as [e|]; [|done]. apply effect_idemp.
    + destruct (decide (k ∈ ks)) as [Hin|Hnin].
      * by rewrite (decide_True (P := k ∈ a :: ks)) by by apply list_elem_of_further.
      * rewrite (decide_False (P := k ∈ a :: ks)); [done|].
        rewrite elem_of_cons. tauto.
Qed.

Lemma loop_count (ks : list string) (m : gmap string ApprovalEntry) (c : nat) :
  NoDup ks →
  (fold_left step ks (m, c)).2 =
    (c + length (filter (λ k, from_option acts false (m !! k)) ks))%nat.
Proof.
  intros Hnd. revert m c.
  induction Hnd as [|a ks Hnin Hnd IH]; intros m c; cbn [fold_left].
  - simpl. lia.
  - destruct (step (m, c) a) as [m' c'] eqn:Hstep.
    rewrite IH.
    pose proof (step_count m c a) as Hc.
    rewrite Hstep in Hc; cbn [snd] in Hc. subst c'.
    assert (filter (λ k, from_option acts false (m' !! k)) ks
            = filter (λ k, from_option acts false (m !! k)) ks) as ->.
    { apply filter_ext_elem_of. intros k Hk.
      pose proof (step_lookup m c a k) as Hl.
      rewrite Hstep in Hl; cbn [fst] in Hl.
      rewrite decide_False in Hl by (intros ->; done).
      by rewrite Hl. }
    rewrite filter_cons.
    destruct (from_option acts false (m !! a)); simpl; lia.
Qed.
End KeyLoop.

Lemma approve_step_lookup (now ttlMs : Z) (m : gmap string ApprovalEntry) (c : nat)
    (a k : string) :
  (approve_step now ttlMs (m, c) a).1 !! k =
    if decide (k = a) then m !! k ≫= (λ e, Some (approve_entry now ttlMs e)) else m !! k.
Proof.
  unfold approve_step, approve_entry, approved_at.
  destruct (decide (k = a)) as [->|Hk].
  - destruct (m !! a) as [e|] eqn:Ha; [|by rewrite ?Ha].
    destruct (live_pending now e) eqn:Hl; simpl;
      rewrite ?lookup_insert_eq, ?Ha; simpl; by rewrite ?Hl.
  - destruct (m !! a) as [e|] eqn:Ha; [|done].
    destruct (live_pending now e); simpl; [|done].
    by rewrite lookup_insert_ne.
Qed.

Lemma approve_step_count (now ttlMs : Z) (m : gmap string ApprovalEntry) (c : nat) (a : string) :
  (approve_step now ttlMs (m, c) a).2 =
    (c + if from_option (live_pending now) false (m !! a) then 1 else 0)%nat.
Proof.
  unfold approve_step. destruct (m !! a) as [e|]; simpl; [|lia].
  destruct (live_pending now e); simpl; lia.
Qed.

Lemma approve_entry_idemp (now ttlMs : Z) (e : ApprovalEntry) :
  approve_entry now ttlMs (approve_entry now ttlMs e) = approve_entry now ttlMs e.
Proof.
  unfold approve_entry. destruct (live_pending now e) eqn:Hl; [|by rewrite Hl].
  by unfold live_pending, approved_at.
Qed.

Lemma deny_step_lookup (m : gmap string ApprovalEntry) (c : nat) (a k : string) :
  (deny_step (m, c) a).1 !! k =
    if decide (k = a) then m !! k ≫= deny_entry else m !! k.
Proof.
  unfold deny_step, deny_entry.
  destruct (decide (k = a)) as [->|Hk].
  - destruct (m !! a) as [e|] eqn:Ha; [|by rewrite ?Ha].
    destruct (bool_decide (status e = pending)) eqn:Hp; simpl;
      rewrite ?lookup_delete_eq, ?Ha; simpl; by rewrite ?Hp.
  - destruct (m !! a) as [e|] eqn:Ha; [|done].
    destruct (bool_decide (status e = pending)); simpl; [|done].
    by rewrite lookup_delete_ne.
Qed.

Lemma deny_step_count (m : gmap string ApprovalEntry) (c : nat) (a : string) :
  (deny_step (m, c) a).2 =
    (c + if from_option (λ e, bool_decide (status e = pending)) false (m !! a)
         then 1 else 0)%nat.
Proof.
  unfold deny_step. destruct (m !! a) as [e|]; simpl; [|lia].
  destruct (bool_decide (status e = pending)); simpl; lia.
Qed.

Lemma deny_entry_idemp (e : ApprovalEntry) : deny_entry e ≫= deny_entry = deny_entry e.
Proof.
  unfold deny_entry. destruct (bool_decide (status e = pending)) eqn:Hp; simpl; [done|].
  by rewrite Hp.
Qed.

Lemma approve_fold_lookup (now ttlMs : Z) (ks : list string)
    (m : gmap string ApprovalEntry) (c : nat) (k : string) :
  (fold_left (approve_step now ttlMs) ks (m, c)).1 !! k =
    if decide (k ∈ ks) then approve_entry now ttlMs <$> m !! k else m !! k.
Proof.
  rewrite (loop_lookup _ (λ e, Some (approve_entry now ttlMs e))).
  - by destruct (m !! k).
  - apply approve_step_lookup.
  - intros e. simpl. by rewrite approve_entry_idemp.
Qed.

Lemma approve_fold_count (now ttlMs : Z) (ks : list string)
    (m : gmap string ApprovalEntry) (c : nat) :
  NoDup ks →
  (fold_left (approve_step now ttlMs) ks (m, c)).2 =
    (c + length (filter (λ k, from_option (live_pending now) false (m !! k)) ks))%nat.
Proof.
  apply (loop_count _ (λ e, Some (approve_entry now ttlMs e))).
  - apply approve_step_lookup.
  - apply approve_step_count.
Qed.

Lemma deny_fold_lookup (ks : list string) (m : gmap string ApprovalEntry) (c : nat)
    (k : string) :
  (fold_left deny_step ks (m, c)).1 !! k =
    if decide (k ∈ ks) then m !! k ≫= deny_entry else m !! k.
Proof.
  apply loop_lookup; [apply deny_step_lookup | apply deny_entry_idemp].
Qed.

Lemma deny_fold_count (ks : list string) (m : gmap string ApprovalEntry) (c : nat) :
  NoDup ks →
  (fold_left deny_step ks (m, c)).2 =
    (c + length (filter (λ k, from_option (λ e, bool_decide (status e = pending)) false (m !! k))
                        ks))%nat.
Proof.
  apply (loop_count _ deny_entry); [apply deny_step_lookup | apply deny_step_count].
Qed.

(* ===================================================================== *)
(** * [approve] and [deny] entry by entry *)
(* ===================================================================== *)

Lemma approve_unfold (now : Z) (s : string) (q : ApprovalQueue.t) :
  approve now s q =
    let q0 := maybeCleanup now q in
    let r := fold_left (approve_step now (ttl q0)) (keysForSession s q0) (entries q0, 0%nat) in
    (r.2, with_entries q0 r.1).
Proof. unfold approve. simpl. by destruct (fold_left _ _ _). Qed.

Lemma deny_unfold (now : Z) (s : string) (q : ApprovalQueue.t) :
  deny now s q =
    let q0 := maybeCleanup now q in
    let r := fold_left deny_step (keysForSession s q0) (entries q0, 0%nat) in
    (r.2, with_entries q0 r.1).
Proof. unfold deny. simpl. by destruct (fold_left _ _ _). Qed.

Lemma approve_lookup (now : Z) (s k : string) (q : ApprovalQueue.t) :
  entries (approve now s q).2 !! k =
    if String.prefix (s +:+ "::") k
    then approve_entry now (ttl q) <$> entries (maybeCleanup now q) !! k
    else entries (maybeCleanup now q) !! k.
Proof.
  rewrite approve_unfold. simpl. rewrite approve_fold_lookup, maybeCleanup_ttl.
  destruct (decide (k ∈ keysForSession s (maybeCleanup now q))) as [Hin|Hnin].
  - apply elem_of_keysForSession in Hin as [_ ->]. done.
  - destruct (String.prefix (s +:+ "::") k) eqn:Hp; [|done].
    destruct (entries (maybeCleanup now q) !! k) as [e|] eqn:He; [|done].
    exfalso. apply Hnin, elem_of_keysForSession. eauto.
Qed.

Lemma deny_lookup (now : Z) (s k : string) (q : ApprovalQueue.t) :
  entries (deny now s q).2 !! k =
    if String.prefix (s +:+ "::") k
    then entries (maybeCleanup now q) !! k ≫= deny_entry
    else entries (maybeCleanup now q) !! k.
Proof.
  rewrite deny_unfold. simpl. rewrite deny_fold_lookup.
  destruct (decide (k ∈ keysForSession s (maybeCleanup now q))) as [Hin|Hnin].
  - apply elem_of_keysForSession in Hin as [_ ->]. done.
  - destruct (String.prefix (s +:+ "::") k) eqn:Hp; [|done].
    destruct (entries (maybeCleanup now q) !! k) as [e|] eqn:He; [|done].
    exfalso. apply Hnin, elem_of_keysForSession. eauto.
Qed.

Lemma approve_other_fields (now : Z) (s : string) (q : ApprovalQueue.t) :
  blanketAllows (approve now s q).2 = blanketAllows (maybeCleanup now q) ∧
  lastCleanup (approve now s q).2 = lastCleanup (maybeCleanup now q) ∧
  ttl (approve now s q).2 = ttl q.
Proof. rewrite approve_unfold. simpl. by rewrite maybeCleanup_ttl. Qed.

Lemma deny_other_fields (now : Z) (s : string) (q : ApprovalQueue.t) :
  blanketAllows (deny now s q).2 = blanketAllows (maybeCleanup now q) ∧
  lastCleanup (deny now s q).2 = lastCleanup (maybeCleanup now q) ∧
  ttl (deny now s q).2 = ttl q.
Proof. rewrite deny_unfold. simpl. by rewrite maybeCleanup_ttl. Qed.

(** Counting the selected keys whose entry passes a test is counting the
    entries of the map that have the prefix and pass the test. *)
Lemma keysForSession_count (s : string) (q : ApprovalQueue.t) (acts : ApprovalEntry → bool) :
  length (filter (λ k, from_option acts false (entries q !! k)) (keysForSession s q)) =
  size (filter (λ kv, String.prefix (s +:+ "::") kv.1 = true ∧ acts kv.2 = true) (entries q)).
Proof.
  set (L := filter (λ k, from_option acts false (entries q !! k)) (keysForSession s q)).
  rewrite <- size_dom.
  assert (dom (filter (λ kv : string * ApprovalEntry,
                         String.prefix (s +:+ "::") kv.1 = true ∧ acts kv.2 = true)
                      (entries q)) = list_to_set L) as ->.
  { apply set_eq. intros k.
    rewrite elem_of_dom, elem_of_list_to_set. unfold L.
    rewrite list_elem_of_filter, elem_of_keysForSession. split.
    - intros [e [He [Hp Hl]]%map_lookup_filter_Some]. simpl in *.
      rewrite He. simpl. rewrite Hl. eauto.
    - intros [Hl [[e He] Hp]]. rewrite He in Hl. simpl in Hl.
      exists e. apply map_lookup_filter_Some. simpl.
      split; [done|]. split; [done|]. by apply Is_true_true. }
  rewrite size_list_to_set; [done|].
  apply NoDup_filter, NoDup_keysForSession.
Qed.

(** The number returned by [approve] is the number of stored entries the
    loop selects and finds pending and unexpired. *)
Lemma approve_count (now : Z) (s : string) (q : ApprovalQueue.t) :
  (approve now s q).1 =
    size (filter (λ kv, String.prefix (s +:+ "::") kv.1 = true ∧ live_pending now kv.2 = true)
                 (entries (maybeCleanup now q))).
Proof.
  rewrite approve_unfold. simpl.
  rewrite approve_fold_count by apply NoDup_keysForSession. simpl.
  apply keysForSession_count.
Qed.

Lemma deny_count (now : Z) (s : string) (q : ApprovalQueue.t) :
  (deny now s q).1 =
    size (filter (λ kv, String.prefix (s +:+ "::") kv.1 = true ∧
                        bool_decide (status kv.2 = pending) = true)
                 (entries (maybeCleanup now q))).
Proof.
  rewrite deny_unfold. simpl.
  rewrite deny_fold_count by apply NoDup_keysForSession. simpl.
  apply (keysForSession_count s _ (λ e, bool_decide (status e = pending))).
Qed.

(** Removing a key the loop does not select changes neither the sweep nor
    the count. *)
Lemma maybeCleanup_delete (now : Z) (q : ApprovalQueue.t) (k : string) :
  entries (maybeCleanup now (with_entries q (delete k (entries q))))
  = delete k (entries (maybeCleanup now q)).
Proof.
  unfold maybeCleanup. simpl. case_match; [|done].
  simpl. apply map_filter_delete.
Qed.

Lemma filter_delete_unselected (P : string * ApprovalEntry → Prop)
    `{!∀ kv, base.Decision (P kv)} (m : gmap string ApprovalEntry) (k : string) :
  (∀ e, ¬ P (k, e)) → filter P (delete k m) = filter P m.
Proof.
  intros Hk. rewrite map_filter_delete. apply delete_id.
  apply map_lookup_filter_None. right. intros e _. apply Hk.
Qed.

(* ===================================================================== *)
(** * Path A: [consume] *)
(* ===================================================================== *)

(** C3. [consume] returns true exactly when an approved, unexpired entry is
    stored under the composite key, and then deletes it; when it returns false
    (in particular for a missing or an expired key) the queue is unchanged.
    After [request] then [approve], with the entry still unexpired at each
    step, the first [consume] returns true and a second one false; after
    [request] alone [consume] returns false. *)
Theorem consume_spec (s m meth : string) (q : ApprovalQueue.t) :
  (∀ now, (consume now s m meth q).1 = true ↔
          ∃ e, entries q !! key s m meth = Some e ∧ status e = approved ∧ now < expiresAt e) ∧
  (∀ now, (consume now s m meth q).1 = true →
          (consume now s m meth q).2 = with_entries q (delete (key s m meth) (entries q))) ∧
  (∀ now, (consume now s m meth q).1 = false → (consume now s m meth q).2 = q) ∧
  (∀ now, entries q !! key s m meth = None → consume now s m meth q = (false, q)) ∧
  (∀ now e, entries q !! key s m meth = Some e → expiresAt e ≤ now →
            consume now s m meth q = (false, q)) ∧
  (∀ t0 t1 t2 t3 e1,
     entries (request t0 s m meth q).2 !! key s m meth = Some e1 →
     t1 < expiresAt e1 → t2 < t1 + ttl q →
     let q2 := (approve t1 s (request t0 s m meth q).2).2 in
     (consume t2 s m meth q2).1 = true ∧
     (consume t3 s m meth (consume t2 s m meth q2).2).1 = false) ∧
  (∀ t0 t1, (consume t1 s m meth (request t0 s m meth q).2).1 = false).
Proof.
  split; [|split; [|split; [|split; [|split; [|split]]]]].
  - intros now. apply consume_true.
  - intros now Ht. by rewrite consume_state, Ht.
  - intros now Hf. by rewrite consume_state, Hf.
  - intros now Hnone. unfold consume. by rewrite Hnone.
  - intros now e He Hdead. unfold consume. rewrite He.
    assert (live_approved now e = false) as ->; [|done].
    apply not_true_iff_false. rewrite live_approved_true. lia.
  - intros t0 t1 t2 t3 e1 He1 Hlive1 Hlive2 q2.
    destruct (request_arms t0 s m meth q) as (e & He & Hpend).
    assert (e = e1) as -> by congruence.
    assert (entries q2 !! key s m meth
            = Some (approved_at t1 (ttl q) e1)) as Hq2.
    { unfold q2. rewrite approve_lookup, prefix_key, request_ttl.
      rewrite (maybeCleanup_lookup_live t1 _ _ e1 He1 Hlive1). simpl.
      unfold approve_entry.
      by assert (live_pending t1 e1 = true) as -> by by apply live_pending_true. }
    assert ((consume t2 s m meth q2).1 = true) as Hfirst.
    { apply consume_true. eexists. split; [exact Hq2|]. simpl. done. }
    split; [done|].
    apply not_true_iff_false. rewrite consume_true.
    intros (e & He' & _). rewrite consume_state, Hfirst in He'. simpl in He'.
    by rewrite lookup_delete_eq in He'.
  - intros t0 t1. apply not_true_iff_false. rewrite consume_true.
    intros (e & He & Happ & _).
    destruct (request_arms t0 s m meth q) as (e' & He' & Hpend).
    congruence.
Qed.

Lemma consume_spec_witness :
  let q2 := (approve 2000 "s" (request 1000 "s" "Shell" "bash" (ApprovalQueue.new 0 None)).2).2 in
  (consume 3000 "s" "Shell" "bash" q2).1 = true ∧
  (consume 4000 "s" "Shell" "bash" (consume 3000 "s" "Shell" "bash" q2).2).1 = false.
Proof.
  destruct (consume_spec "s" "Shell" "bash" (ApprovalQueue.new 0 None))
    as (_ & _ & _ & _ & _ & Hseq & _).
  apply (Hseq 1000 2000 3000 4000 (mkEntry "s" "Shell" "bash" pending 1000 121000)).
  - vm_compute. reflexivity.
  - simpl. lia.
  - simpl. unfold DEFAULT_TTL_MS. lia.
Defined.

Lemma consumePending_spec_witness :
  let q1 := (request 1000 "s" "Shell" "bash" (ApprovalQueue.new 0 None)).2 in
  (consumePending 60000 "s" "Shell" "bash" q1).1 = true ∧
  consumePending 62000 "s" "Shell" "bash" q1 = (false, q1) ∧
  entries (request 62000 "s" "Shell" "bash" q1).2 !! "s::Shell.bash"
    = Some (mkEntry "s" "Shell" "bash" pending 62000 182000).
Proof.
  set (e := mkEntry "s" "Shell" "bash" pending 1000 121000).
  intros q1.
  assert (entries q1 !! key "s" "Shell" "bash" = Some e) as He by (vm_compute; reflexivity).
  split; [|split].
  - destruct (consumePending_spec 60000 "s" "Shell" "bash" q1) as (Hfresh & _).
    destruct (Hfresh e He) as [-> _]; simpl; unfold CONSUME_MAX_AGE_MS; [done|lia..].
  - destruct (consumePending_spec 62000 "s" "Shell" "bash" q1) as (_ & Hstale & _).
    destruct (Hstale e He) as [-> _]; simpl; unfold CONSUME_MAX_AGE_MS; [done|lia|done].
  - destruct (consumePending_spec 62000 "s" "Shell" "bash" q1) as (_ & Hstale & _).
    destruct (Hstale e He) as [_ Hre]; simpl; unfold CONSUME_MAX_AGE_MS; [done|lia|].
    apply (Hre 62000). lia.
Defined.

(* ===================================================================== *)
(** * [request] *)
(* ===================================================================== *)

(** C4. When a pending, unexpired entry inside the 60 s window is stored under
    the key, [request] leaves it as it is (the call only runs the throttled
    sweep); in every other case it installs a fresh pending entry with
    [createdAt = now] and [expiresAt = now + ttl].  A second [request] inside
    the window of the entry armed by the first one keeps that entry and does
    not add any entry to the map.  The default TTL is 120 s. *)
Theorem request_idempotent (now : Z) (s m meth : string) (q : ApprovalQueue.t) :
  (∀ e, entries q !! key s m meth = Some e →
        status e = pending → now < expiresAt e →
        now - createdAt e ≤ CONSUME_MAX_AGE_MS →
        request now s m meth q = (key s m meth, maybeCleanup now q) ∧
        entries (request now s m meth q).2 !! key s m meth = Some e) ∧
  ((∀ e, entries q !! key s m meth = Some e →
         ¬ (status e = pending ∧ now < expiresAt e ∧
            now - createdAt e ≤ CONSUME_MAX_AGE_MS)) →
   entries (request now s m meth q).2 !! key s m meth
     = Some (mkEntry s m meth pending now (now + ttl q))) ∧
  (∀ later e1,
     entries (request now s m meth q).2 !! key s m meth = Some e1 →
     later < expiresAt e1 → later - createdAt e1 ≤ CONSUME_MAX_AGE_MS →
     entries (request later s m meth (request now s m meth q).2).2 !! key s m meth = Some e1 ∧
     (size (entries (request later s m meth (request now s m meth q).2).2)
      ≤ size (entries (request now s m meth q).2))%nat) ∧
  ttl (ApprovalQueue.new now None) = 120000.
Proof.
  assert (∀ t q' e, entries q' !! key s m meth = Some e →
            status e = pending → t < expiresAt e →
            t - createdAt e ≤ CONSUME_MAX_AGE_MS →
            request t s m meth q' = (key s m meth, maybeCleanup t q') ∧
            entries (request t s m meth q').2 !! key s m meth = Some e) as Hkept.
  { intros t q' e He Hst Hlive Hage.
    rewrite (request_kept t s m meth q' e) by done.
    split; [done|]. simpl. by apply maybeCleanup_lookup_live. }
  split; [|split; [|split]].
  - intros e. apply Hkept.
  - intros Hno. rewrite request_fresh by done. simpl. apply lookup_insert_eq.
  - intros later e1 He1 Hlive Hage.
    destruct (request_arms now s m meth q) as (e & He & Hpend).
    assert (e = e1) as -> by congruence.
    destruct (Hkept later _ e1 He1 Hpend Hlive Hage) as [Heq Hlook].
    split; [done|]. rewrite Heq. simpl.
    unfold maybeCleanup. case_match; [|done].
    simpl. apply map_size_filter.
  - done.
Qed.

Lemma request_idempotent_witness :
  let q1 := (request 1000 "s" "Shell" "bash" (ApprovalQueue.new 0 None)).2 in
  entries q1 !! "s::Shell.bash" = Some (mkEntry "s" "Shell" "bash" pending 1000 121000) ∧
  entries (request 5000 "s" "Shell" "bash" q1).2 !! "s::Shell.bash"
    = Some (mkEntry "s" "Shell" "bash" pending 1000 121000).
Proof.
  intros q1.
  destruct (request_idempotent 1000 "s" "Shell" "bash" (ApprovalQueue.new 0 None))
    as (_ & Hfresh & Hsecond & _).
  assert (entries q1 !! key "s" "Shell" "bash"
          = Some (mkEntry "s" "Shell" "bash" pending 1000 (1000 + 120000))) as He.
  { apply Hfresh. intros e He. vm_compute in He. discriminate. }
  split; [exact He|].
  apply (Hsecond 5000 _ He); simpl; unfold CONSUME_MAX_AGE_MS; lia.
Defined.

(* ===================================================================== *)
(** * Path B: [consumePending] as a test *)
(* ===================================================================== *)

Lemma consumePending_true (now : Z) (s m meth : string) (q : ApprovalQueue.t) :
  (consumePending now s m meth q).1 = true ↔
  ∃ e, entries q !! key s m meth = Some e ∧ status e = pending ∧ now < expiresAt e ∧
       now - createdAt e ≤ CONSUME_MAX_AGE_MS.
Proof.
  unfold consumePending.
  destruct (entries q !! key s m meth) as [e|] eqn:He.
  - destruct (live_pending now e) eqn:Hl.
    + apply live_pending_true in Hl as [Hst Hlive].
      destruct (CONSUME_MAX_AGE_MS <? now - createdAt e) eqn:Hage; simpl.
      * split; [done|]. intros (e' & [= <-] & _ & _ & Hage'). lia.
      * split; [|done]. intros _. exists e. repeat split; [done..|lia].
    + simpl. split; [done|]. intros (e' & [= <-] & Hst & Hlive & _).
      apply live_pending_false in Hl. tauto.
  - simpl. split; [done|]. by intros (e' & ? & _).
Qed.

Lemma consumePending_state (now : Z) (s m meth : string) (q : ApprovalQueue.t) :
  (consumePending now s m meth q).2 =
    if (consumePending now s m meth q).1
    then with_entries q (delete (key s m meth) (entries q))
    else q.
Proof. unfold consumePending. by repeat case_match. Qed.

(* ===================================================================== *)
(** * The arbitrator *)
(* ===================================================================== *)

Lemma judge_channel (env : Env) (ctx : ExecutionContext) (s : string) (q : ApprovalQueue.t) :
  stdinIsTTY env = false → ctx_sessionKey ctx = Some s → s ≠ "" →
  judge env ctx q = judgeChannel env s ctx q.
Proof.
  intros Htty Hs Hne. unfold judge. rewrite Htty, Hs. simpl.
  destruct (String.eqb_spec s ""); [done|done].
Qed.

Lemma judgeChannel_unfold (env : Env) (ctx : ExecutionContext) (s : string) (q : ApprovalQueue.t) :
  judgeChannel env s ctx q =
    let now := dateNow env in
    let m := ctx_moduleName ctx in
    let meth := ctx_methodName ctx in
    if (consume now s m meth q).1 then (true, (consume now s m meth q).2)
    else if (consumePending now s m meth q).1 then (true, (consumePending now s m meth q).2)
    else (false, (request now s m meth q).2).
Proof.
  unfold judgeChannel. cbv zeta.
  pose proof (consume_state (dateNow env) s (ctx_moduleName ctx) (ctx_methodName ctx) q) as Hs.
  destruct (consume _ _ _ _ q) as [a q1]. cbn [fst snd] in *.
  destruct a; [done|]. subst q1.
  pose proof (consumePending_state (dateNow env) s (ctx_moduleName ctx) (ctx_methodName ctx) q)
    as Hp.
  destruct (consumePending _ _ _ _ q) as [b q2]. cbn [fst snd] in *.
  destruct b; [done|]. subst q2.
  by destruct (request _ _ _ _ q).
Qed.

(** C1. In Channel mode (no terminal, a non-empty session key) the arbitrator
    approves through [consume] when that succeeds; otherwise through
    [consumePending] when that succeeds; and only when both return false does
    it call [request], which then arms a fresh pending entry, and return false.
    An approval deletes the consumed entry and adds no entry to the queue. *)
Theorem judge_channel_order (env : Env) (ctx : ExecutionContext) (s : string)
    (q : ApprovalQueue.t) :
  stdinIsTTY env = false → ctx_sessionKey ctx = Some s → s ≠ "" →
  let now := dateNow env in
  let m := ctx_moduleName ctx in
  let meth := ctx_methodName ctx in
  ((consume now s m meth q).1 = true →
     judge env ctx q = (true, with_entries q (delete (key s m meth) (entries q)))) ∧
  ((consume now s m meth q).1 = false → (consumePending now s m meth q).1 = true →
     judge env ctx q = (true, with_entries q (delete (key s m meth) (entries q)))) ∧
  ((consume now s m meth q).1 = false → (consumePending now s m meth q).1 = false →
     judge env ctx q = (false, (request now s m meth q).2) ∧
     entries (judge env ctx q).2 !! key s m meth
       = Some (mkEntry s m meth pending now (now + ttl q))) ∧
  ((judge env ctx q).1 = true →
     ∀ k e, entries (judge env ctx q).2 !! k = Some e → entries q !! k = Some e) ∧
  ((judge env ctx q).1 = false ↔
     (consume now s m meth q).1 = false ∧ (consumePending now s m meth q).1 = false).
Proof.
  intros Htty Hs Hne. cbv zeta.
  rewrite (judge_channel env ctx s q Htty Hs Hne), judgeChannel_unfold. cbv zeta.
  set (now := dateNow env). set (m := ctx_moduleName ctx). set (meth := ctx_methodName ctx).
  pose proof (consume_state now s m meth q) as Hcs.
  pose proof (consumePending_state now s m meth q) as Hps.
  split; [|split; [|split; [|split]]].
  - intros Ha. rewrite Ha in *. by rewrite Hcs.
  - intros Ha Hb. rewrite Ha, Hb in *. by rewrite Hps.
  - intros Ha Hb. rewrite Ha, Hb. split; [done|]. simpl.
    rewrite request_fresh; [simpl; apply lookup_insert_eq|].
    intros e He Hlive.
    assert ((consumePending now s m meth q).1 = true); [|congruence].
    apply consumePending_true. exists e. tauto.
  - destruct (consume now s m meth q).1 eqn:Ha.
    + intros _ k e. rewrite Hcs. simpl.
      intros [_ ?]%lookup_delete_Some. done.
    + destruct (consumePending now s m meth q).1 eqn:Hb; [|done].
      intros _ k e. rewrite Hps. simpl.
      intros [_ ?]%lookup_delete_Some. done.
  - destruct (consume now s m meth q).1; [simpl; split; [done|by intros [? _]]|].
    destruct (consumePending now s m meth q).1; simpl; [split; [done|by intros [_ ?]]|done].
Qed.

Lemma judge_channel_order_witness :
  let env := mkEnv false false 1000 in
  let ctx := mkContext "Shell" "bash" [] (mkRule ASK (Some "Shell command execution risk"))
                       (Some "s") in
  (judge env ctx (ApprovalQueue.new 0 None)).1 = false ∧
  entries (judge env ctx (ApprovalQueue.new 0 None)).2 !! "s::Shell.bash"
    = Some (mkEntry "s" "Shell" "bash" pending 1000 121000).
Proof.
  intros env ctx.
  destruct (judge_channel_order env ctx "s" (ApprovalQueue.new 0 None))
    as (_ & _ & Hc & _); [done..|].
  destruct Hc as [Hj He]; [done..|].
  split; [by rewrite Hj | exact He].
Defined.

(* ===================================================================== *)
(** * The interceptor *)
(* ===================================================================== *)

(** C6. In Headless mode (no terminal and no usable session key) the
    evaluation of an ASK-ruled operation throws the plain violation message,
    the arbitrator's verdict is false, and the queue is returned as it was. *)
Theorem headless_ask_fails (this : Interceptor.t) (env : Env) (m meth : string)
    (args : list string) (sk : option string) (q : ApprovalQueue.t) :
  stdinIsTTY env = false → truthy sk = false →
  action (lookupRule this m meth) = ASK →
  judge env (mkContext m meth args (lookupRule this m meth) sk) q = (false, q) ∧
  evaluate this env m meth args sk q =
    (Thrown ("ClawBands Security Violation: " +:+ m +:+ "." +:+ meth +:+
             "() was DENIED. " +:+ detail (lookupRule this m meth)), q).
Proof.
  intros Htty Hsk Hask.
  assert (judge env (mkContext m meth args (lookupRule this m meth) sk) q = (false, q)) as Hj.
  { unfold judge. rewrite Htty. cbn [ctx_sessionKey].
    destruct sk as [s|]; [|done]. by rewrite Hsk. }
  split; [done|].
  unfold evaluate, executeDecision. rewrite Hask, Hj, Htty, Hsk. done.
Qed.

Lemma headless_ask_fails_witness :
  evaluate (new_Interceptor None None) (mkEnv false false 0) "Unknown" "x" [] None
           (ApprovalQueue.new 0 None)
  = (Thrown "ClawBands Security Violation: Unknown.x() was DENIED. No specific rule defined for Unknown.x",
     ApprovalQueue.new 0 None).
Proof.
  apply (headless_ask_fails (new_Interceptor None None) (mkEnv false false 0) "Unknown" "x"
           [] None (ApprovalQueue.new 0 None)); reflexivity.
Defined.

(** C8, as stated.  First, at [Unknown.x] under the default policy: no rule
    is configured, yet the description is not "No specific rule for
    Unknown.x".  Second, at [FileSystem.constructor] under the default policy:
    no rule is configured for the pair, yet the lookup does not return a rule
    with the default action: the read [moduleRules[methodName]] finds the
    member [constructor] of [Object.prototype], which has no [action], and the
    evaluation throws from the [default:] branch of [executeDecision]. *)
Lemma lookupRule_description_counterexample :
  (modules DEFAULT_POLICY !! "Unknown" = None ∧
   action (lookupRule (new_Interceptor None None) "Unknown" "x") = ASK ∧
   description (lookupRule (new_Interceptor None None) "Unknown" "x")
     ≠ Some "No specific rule for Unknown.x") ∧
  (modules DEFAULT_POLICY !! "FileSystem" ≫= (λ moduleRules, moduleRules !! "constructor")
     = None ∧
   defaultAction DEFAULT_POLICY = ASK ∧
   action (lookupRule (new_Interceptor None None) "FileSystem" "constructor") ≠ ASK ∧
   description (lookupRule (new_Interceptor None None) "FileSystem" "constructor") = None ∧
   evaluate (new_Interceptor None None) (mkEnv false false 1000) "FileSystem" "constructor"
            [] (Some "s") (ApprovalQueue.new 0 None)
   = (Thrown "Unknown decision type: undefined", ApprovalQueue.new 0 None)).
Proof.
  split.
  - split; [|split]; [vm_compute; reflexivity..|]. vm_compute. discriminate.
  - split; [vm_compute; reflexivity|]. split; [reflexivity|].
    split; [vm_compute; discriminate|]. split; vm_compute; reflexivity.
Qed.

(** C8, amended.  [lookupRule] returns the exact module+method rule of the
    policy unchanged when there is one; otherwise, when the lookup does not
    meet a member of [Object.prototype] (the module name is not the name of
    one when the policy has no such module, the method name is not the name
    of one when it has), the rule whose action is the policy's
    [defaultAction] and whose description is
    "No specific rule defined for <module>.<method>". *)
Theorem lookupRule_total (this : Interceptor.t) (m meth : string) :
  (∀ rule,
     modules (policy this) !! m ≫= (λ moduleRules, moduleRules !! meth) = Some rule →
     lookupRule this m meth = rule) ∧
  (modules (policy this) !! m ≫= (λ moduleRules, moduleRules !! meth) = None →
   (modules (policy this) !! m = None → JS.inherited m = false) →
   (is_Some (modules (policy this) !! m) → JS.inherited meth = false) →
   lookupRule this m meth =
     mkRule (defaultAction (policy this))
            (Some ("No specific rule defined for " +:+ m +:+ "." +:+ meth))).
Proof.
  unfold lookupRule, JS.get.
  destruct (modules (policy this) !! m) as [moduleRules|]; simpl.
  - destruct (moduleRules !! meth) as [rule|]; split; [congruence..|].
    intros _ _ Hmeth. by rewrite Hmeth.
  - split; [congruence|]. intros _ Hm _. by rewrite Hm.
Qed.

Lemma lookupRule_total_witness :
  lookupRule (new_Interceptor None None) "FileSystem" "delete"
    = mkRule DENY (Some "Deletion is strictly prohibited") ∧
  lookupRule (new_Interceptor None None) "Unknown" "x"
    = mkRule ASK (Some "No specific rule defined for Unknown.x") ∧
  lookupRule (new_Interceptor None None) "FileSystem" "x"
    = mkRule ASK (Some "No specific rule defined for FileSystem.x").
Proof.
  destruct (lookupRule_total (new_Interceptor None None) "FileSystem" "delete") as [Hhit _].
  destruct (lookupRule_total (new_Interceptor None None) "Unknown" "x") as [_ Hmiss].
  destruct (lookupRule_total (new_Interceptor None None) "FileSystem" "x") as [_ Hmiss'].
  split; [|split].
  - apply Hhit. vm_compute. reflexivity.
  - apply Hmiss; [vm_compute; reflexivity | reflexivity..].
  - apply Hmiss'; [vm_compute; reflexivity | reflexivity..].
Defined.

(* ===================================================================== *)
(** * Path A: [approve] *)
(* ===================================================================== *)

Lemma maybeCleanup_not_due (now : Z) (q : ApprovalQueue.t) :
  now - lastCleanup q ≤ CLEANUP_INTERVAL_MS → maybeCleanup now q = q.
Proof.
  intros Hdue. unfold maybeCleanup.
  by assert ((CLEANUP_INTERVAL_MS <? now - lastCleanup q) = false) as -> by lia.
Qed.

Lemma approve_state (now : Z) (s : string) (q : ApprovalQueue.t) :
  (approve now s q).2 = with_entries (maybeCleanup now q) (entries (approve now s q).2).
Proof. by rewrite approve_unfold. Qed.

Lemma deny_state (now : Z) (s : string) (q : ApprovalQueue.t) :
  (deny now s q).2 = with_entries (maybeCleanup now q) (entries (deny now s q).2).
Proof. by rewrite deny_unfold. Qed.

Lemma with_entries_id (q : ApprovalQueue.t) : with_entries q (entries q) = q.
Proof. by destruct q. Qed.

(** C5, as stated.  First, on a session whose only entry is approved and has
    expired: the session has zero pending entries and [approve] returns 0, yet
    the call changes the queue, because the sweep it triggers removes the
    entry.  Second, on a queue that holds no entry of session [a] and one
    pending entry of session [a::b]: [approve "a"] returns 1 and transitions
    that entry of the other session. *)
Lemma approve_changes_nothing_counterexample :
  (let q := (approve 2000 "s" (request 1000 "s" "Shell" "bash" (ApprovalQueue.new 0 None)).2).2 in
   entries q !! "s::Shell.bash" = Some (mkEntry "s" "Shell" "bash" approved 1000 122000) ∧
   (approve 200000 "s" q).1 = 0%nat ∧
   entries (approve 200000 "s" q).2 !! "s::Shell.bash" = None ∧
   (approve 200000 "s" q).2 ≠ q) ∧
  (let q := (request 1000 "a::b" "Shell" "bash" (ApprovalQueue.new 0 None)).2 in
   entries q !! "a::b::Shell.bash" = Some (mkEntry "a::b" "Shell" "bash" pending 1000 121000) ∧
   (approve 2000 "a" q).1 = 1%nat ∧
   entries (approve 2000 "a" q).2 !! "a::b::Shell.bash"
     = Some (mkEntry "a::b" "Shell" "bash" approved 1000 122000)).
Proof.
  split.
  - intros q.
    assert (entries q !! "s::Shell.bash"
            = Some (mkEntry "s" "Shell" "bash" approved 1000 122000)) as Hq
      by (vm_compute; reflexivity).
    assert (entries (approve 200000 "s" q).2 !! "s::Shell.bash" = None) as Hq'
      by (vm_compute; reflexivity).
    split; [done|]. split; [vm_compute; reflexivity|]. split; [done|].
    intros Heq. rewrite Heq in Hq'. congruence.
  - vm_compute. repeat split; reflexivity.
Qed.

(** C5, amended.  Provided [keysForSession] selects exactly the entries of the
    session: [approve] runs the throttled sweep, then turns every pending,
    unexpired entry of the session into an approved entry that expires a full
    TTL after the approval instant; every other entry is unchanged, or had
    expired and was swept; the number returned is the number of entries so
    transitioned; and when the session has no pending, unexpired entry the
    call returns 0 and does nothing but the sweep (nothing at all when the
    sweep is not due). *)
Theorem approve_spec (now : Z) (s : string) (q : ApprovalQueue.t) :
  selects_own_entries s q →
  (∀ k e, entries q !! k = Some e →
          sessionKey e = s → status e = pending → now < expiresAt e →
          entries (approve now s q).2 !! k = Some (approved_at now (ttl q) e)) ∧
  (∀ k e, entries q !! k = Some e →
          ¬ (sessionKey e = s ∧ status e = pending ∧ now < expiresAt e) →
          entries (approve now s q).2 !! k = Some e ∨
          (expiresAt e ≤ now ∧ entries (approve now s q).2 !! k = None)) ∧
  (∀ k, entries q !! k = None → entries (approve now s q).2 !! k = None) ∧
  (approve now s q).1 =
    size (filter (λ kv, sessionKey kv.2 = s ∧ status kv.2 = pending ∧ now < expiresAt kv.2)
                 (entries q)) ∧
  ((∀ k e, entries q !! k = Some e → sessionKey e = s →
           ¬ (status e = pending ∧ now < expiresAt e)) →
   approve now s q = (0%nat, maybeCleanup now q)) ∧
  (now - lastCleanup q ≤ CLEANUP_INTERVAL_MS → maybeCleanup now q = q).
Proof.
  intros Hown.
  assert (∀ k e, entries q !! k = Some e →
                 String.prefix (s +:+ "::") k = true ↔ sessionKey e = s) as Hsel.
  { intros k e He. exact (map_Forall_lookup_1 _ _ _ _ Hown He). }
  assert (∀ k e, entries q !! k = Some e →
            ¬ (sessionKey e = s ∧ status e = pending ∧ now < expiresAt e) →
            entries (maybeCleanup now q) !! k = Some e →
            entries (approve now s q).2 !! k = Some e) as Hkeep.
  { intros k e He Hno He0. rewrite approve_lookup, He0.
    destruct (String.prefix (s +:+ "::") k) eqn:Hp; [|done]. simpl.
    unfold approve_entry. destruct (live_pending now e) eqn:Hl; [|done].
    apply live_pending_true in Hl. apply (Hsel k e He) in Hp. tauto. }
  assert ((approve now s q).1 =
    size (filter (λ kv, sessionKey kv.2 = s ∧ status kv.2 = pending ∧ now < expiresAt kv.2)
                 (entries q))) as Hcount.
  { rewrite approve_count. f_equal. apply map_eq. intros k. apply option_eq. intros e.
    rewrite !map_lookup_filter_Some. simpl. rewrite live_pending_true. split.
    - intros (He0 & Hp & Hst & Hlive).
      apply maybeCleanup_lookup_Some in He0.
      split; [done|]. split; [by apply (Hsel k e)|done].
    - intros (He & Hs & Hst & Hlive).
      split; [by apply maybeCleanup_lookup_live|].
      split; [by apply (Hsel k e)|done]. }
  split; [|split; [|split; [|split; [|split]]]].
  - intros k e He Hs Hst Hlive.
    rewrite approve_lookup, (maybeCleanup_lookup_live now q k e He Hlive).
    assert (String.prefix (s +:+ "::") k = true) as -> by by apply (Hsel k e).
    simpl. unfold approve_entry.
    by assert (live_pending now e = true) as -> by by apply live_pending_true.
  - intros k e He Hno.
    destruct (maybeCleanup_lookup now q k) as [Hsame|(e' & He' & Hdead & Hgone)].
    + left. apply Hkeep; [done..|]. by rewrite Hsame.
    + right. assert (e' = e) as -> by congruence. split; [done|].
      rewrite approve_lookup, Hgone. by destruct (String.prefix _ _).
  - intros k Hnone. rewrite approve_lookup, (maybeCleanup_lookup_None now q k Hnone).
    by destruct (String.prefix _ _).
  - exact Hcount.
  - intros Hzero.
    rewrite (surjective_pairing (approve now s q)). f_equal.
    + rewrite Hcount. apply map_size_empty_iff, map_empty_filter.
      intros k e He (Hs & Hst & Hlive). simpl in *. by apply (Hzero k e).
    + rewrite approve_state.
      rewrite <- (with_entries_id (maybeCleanup now q)) at 2. f_equal.
      apply map_eq. intros k.
      destruct (entries (maybeCleanup now q) !! k) as [e|] eqn:He0.
      * pose proof (maybeCleanup_lookup_Some now q k e He0) as He.
        apply Hkeep; [done| |done]. intros (Hs & Hst & Hlive). by apply (Hzero k e).
      * rewrite approve_lookup, He0. by destruct (String.prefix _ _).
  - apply maybeCleanup_not_due.
Qed.

Lemma approve_spec_witness :
  let q := (request 1000 "t" "Shell" "exec"
              (request 1000 "s" "Shell" "bash" (ApprovalQueue.new 0 None)).2).2 in
  entries (approve 2000 "s" q).2 !! "s::Shell.bash"
    = Some (mkEntry "s" "Shell" "bash" approved 1000 122000) ∧
  (entries (approve 2000 "s" q).2 !! "t::Shell.exec"
     = Some (mkEntry "t" "Shell" "exec" pending 1000 121000) ∨
   (121000 ≤ 2000 ∧ entries (approve 2000 "s" q).2 !! "t::Shell.exec" = None)).
Proof.
  intros q.
  assert (selects_own_entries "s" q) as Hown.
  { apply (bool_decide_unpack (selects_own_entries "s" q)). vm_compute. exact I. }
  destruct (approve_spec 2000 "s" q Hown) as (Hmine & Hother & _).
  split.
  - apply (Hmine "s::Shell.bash" (mkEntry "s" "Shell" "bash" pending 1000 121000)).
    + vm_compute. reflexivity.
    + reflexivity.
    + reflexivity.
    + simpl. lia.
  - apply (Hother "t::Shell.exec" (mkEntry "t" "Shell" "exec" pending 1000 121000)).
    + vm_compute. reflexivity.
    + simpl. intros [Hs _]. discriminate Hs.
Defined.

(* ===================================================================== *)
(** * Every entry sits under its own composite key *)
(* ===================================================================== *)

Lemma well_keyed_new (now : Z) (ttlMs : option Z) : well_keyed (ApprovalQueue.new now ttlMs).
Proof. apply map_Forall_empty. Qed.

Lemma well_keyed_maybeCleanup (now : Z) (q : ApprovalQueue.t) :
  well_keyed q → well_keyed (maybeCleanup now q).
Proof.
  intros Hwk k e He. apply maybeCleanup_lookup_Some in He.
  exact (map_Forall_lookup_1 _ _ _ _ Hwk He).
Qed.

Lemma well_keyed_request (now : Z) (s m meth : string) (q : ApprovalQueue.t) :
  well_keyed q → well_keyed (request now s m meth q).2.
Proof.
  intros Hwk. apply (well_keyed_maybeCleanup now) in Hwk.
  unfold request. repeat case_match; simpl; try done;
    by apply map_Forall_insert_2.
Qed.

Lemma well_keyed_consume (now : Z) (s m meth : string) (q : ApprovalQueue.t) :
  well_keyed q → well_keyed (consume now s m meth q).2.
Proof.
  intros Hwk. rewrite consume_state. case_match; [|done].
  by apply map_Forall_delete.
Qed.

Lemma well_keyed_consumePending (now : Z) (s m meth : string) (q : ApprovalQueue.t) :
  well_keyed q → well_keyed (consumePending now s m meth q).2.
Proof.
  intros Hwk. rewrite consumePending_state. case_match; [|done].
  by apply map_Forall_delete.
Qed.

Lemma well_keyed_approve (now : Z) (s : string) (q : ApprovalQueue.t) :
  well_keyed q → well_keyed (approve now s q).2.
Proof.
  intros Hwk. apply (well_keyed_maybeCleanup now) in Hwk.
  intros k e'. rewrite approve_lookup.
  destruct (entries (maybeCleanup now q) !! k) as [e|] eqn:He; [|by case_match].
  pose proof (map_Forall_lookup_1 _ _ _ _ Hwk He) as Hk. simpl in Hk.
  case_match; simpl; intros [= <-]; [|done].
  unfold approve_entry. by case_match.
Qed.

Lemma well_keyed_deny (now : Z) (s : string) (q : ApprovalQueue.t) :
  well_keyed q → well_keyed (deny now s q).2.
Proof.
  intros Hwk. apply (well_keyed_maybeCleanup now) in Hwk.
  intros k e'. rewrite deny_lookup.
  destruct (entries (maybeCleanup now q) !! k) as [e|] eqn:He; [|by case_match].
  pose proof (map_Forall_lookup_1 _ _ _ _ Hwk He) as Hk. simpl in Hk.
  case_match; simpl; [|by intros [= <-]].
  unfold deny_entry. case_match; [done|by intros [= <-]].
Qed.

Lemma well_keyed_judge (env : Env) (ctx : ExecutionContext) (q : ApprovalQueue.t) :
  well_keyed q → well_keyed (judge env ctx q).2.
Proof.
  intros Hwk. unfold judge. repeat case_match; simpl; try done.
  rewrite judgeChannel_unfold. cbv zeta. repeat case_match; simpl;
    auto using well_keyed_consume, well_keyed_consumePending, well_keyed_request.
Qed.

(* ===================================================================== *)
(** * Sessions *)
(* ===================================================================== *)

(** Two strings with a common extension are comparable for the prefix order. *)
Lemma prefix_app_comparable (a b x y : string) :
  String.prefix (a +:+ x) (b +:+ y) = true →
  String.prefix a b = true ∨ String.prefix b a = true.
Proof.
  revert b. induction a as [|c a IH]; intros b.
  - intros _. left. by destruct b.
  - destruct b as [|d b]; [by right|].
    simpl. destruct (ascii_dec c d) as [->|]; [|done].
    destruct (ascii_dec d d) as [_|]; [|done]. apply IH.
Qed.

(** When neither session key is a prefix of the other, no key of one session
    is selected by [keysForSession] of the other. *)
Lemma key_prefix_incomparable (s1 s2 m meth : string) :
  String.prefix s1 s2 = false → String.prefix s2 s1 = false →
  String.prefix (s1 +:+ "::") (key s2 m meth) = false.
Proof.
  intros H12 H21. apply not_true_iff_false. intros Hp.
  apply prefix_app_comparable in Hp as [?|?]; congruence.
Qed.

Lemma selects_own_entries_incomparable (s : string) (q : ApprovalQueue.t) :
  well_keyed q →
  (∀ k e, entries q !! k = Some e → sessionKey e ≠ s →
          String.prefix s (sessionKey e) = false ∧ String.prefix (sessionKey e) s = false) →
  selects_own_entries s q.
Proof.
  intros Hwk Hinc k e He. simpl.
  pose proof (map_Forall_lookup_1 _ _ _ _ Hwk He) as Hk. simpl in Hk.
  split.
  - intros Hp. destruct (decide (sessionKey e = s)) as [|Hne]; [done|].
    destruct (Hinc k e He Hne) as [H1 H2].
    rewrite Hk, key_prefix_incomparable in Hp; done.
  - intros <-. rewrite Hk. apply prefix_key.
Qed.

(** C9, as stated.  First, for the sessions [s1] and [s2]: the entry of [s2]
    has expired, and [approve] and [deny] addressed to [s1] delete it through
    the sweep they trigger.  Second, for the sessions [a] and [a::b]: the key
    of the entry of [a::b] begins with [a::], so [approve] and [deny]
    addressed to [a] select it, count it, and approve or delete it. *)
Lemma session_frame_counterexample :
  (let q := (request 1000 "s2" "Shell" "bash" (ApprovalQueue.new 0 None)).2 in
   "s1" ≠ "s2" ∧
   entries q !! "s2::Shell.bash" = Some (mkEntry "s2" "Shell" "bash" pending 1000 121000) ∧
   entries (approve 200000 "s1" q).2 !! "s2::Shell.bash" = None ∧
   entries (deny 200000 "s1" q).2 !! "s2::Shell.bash" = None) ∧
  (let q := (request 1000 "a::b" "Shell" "bash" (ApprovalQueue.new 0 None)).2 in
   "a" ≠ "a::b" ∧
   keysForSession "a" q = ["a::b::Shell.bash"] ∧
   (approve 2000 "a" q).1 = 1%nat ∧
   entries (approve 2000 "a" q).2 !! "a::b::Shell.bash"
     = Some (mkEntry "a::b" "Shell" "bash" approved 1000 122000) ∧
   (deny 2000 "a" q).1 = 1%nat ∧
   entries (deny 2000 "a" q).2 !! "a::b::Shell.bash" = None).
Proof.
  split.
  - split; [done|]. vm_compute. repeat split; reflexivity.
  - split; [done|]. vm_compute. repeat split; reflexivity.
Qed.

(** C9, amended.  For distinct session keys [s1 ≠ s2], an entry of [s2] whose
    key does not begin with [s1 ++ "::"] is left unchanged by [approve s1] and
    by [deny s1] as long as it has not expired; an expired one is unchanged or
    removed by the sweep; and the entry is not counted by either call.  In a
    queue where every entry sits under its own composite key, the key of an
    entry of [s2] does not begin with [s1 ++ "::"] when neither session key is
    a prefix of the other. *)
Theorem session_frame (now : Z) (s1 s2 k : string) (e : ApprovalEntry) (q : ApprovalQueue.t) :
  s1 ≠ s2 → entries q !! k = Some e → sessionKey e = s2 →
  (well_keyed q → String.prefix s1 s2 = false → String.prefix s2 s1 = false →
   String.prefix (s1 +:+ "::") k = false) ∧
  (String.prefix (s1 +:+ "::") k = false →
   (now < expiresAt e →
      entries (approve now s1 q).2 !! k = Some e ∧
      entries (deny now s1 q).2 !! k = Some e) ∧
   (entries (approve now s1 q).2 !! k = Some e ∨
      (expiresAt e ≤ now ∧ entries (approve now s1 q).2 !! k = None)) ∧
   (entries (deny now s1 q).2 !! k = Some e ∨
      (expiresAt e ≤ now ∧ entries (deny now s1 q).2 !! k = None)) ∧
   (approve now s1 (with_entries q (delete k (entries q)))).1 = (approve now s1 q).1 ∧
   (deny now s1 (with_entries q (delete k (entries q)))).1 = (deny now s1 q).1).
Proof.
  intros _ He Hs2. split.
  - intros Hwk H12 H21.
    rewrite (map_Forall_lookup_1 _ _ _ _ Hwk He), Hs2.
    by apply key_prefix_incomparable.
  - intros Hp.
    assert (entries (approve now s1 q).2 !! k = entries (maybeCleanup now q) !! k) as Ha
      by by rewrite approve_lookup, Hp.
    assert (entries (deny now s1 q).2 !! k = entries (maybeCleanup now q) !! k) as Hd
      by by rewrite deny_lookup, Hp.
    rewrite Ha, Hd.
    assert (entries (maybeCleanup now q) !! k = Some e ∨
            (expiresAt e ≤ now ∧ entries (maybeCleanup now q) !! k = None)) as Hsweep.
    { destruct (maybeCleanup_lookup now q k) as [Hsame|(e' & He' & Hdead & Hgone)].
      - left. by rewrite Hsame.
      - right. assert (e' = e) as -> by congruence. done. }
    split; [|split; [|split; [|split]]]; [|done|done|..].
    + intros Hlive. by rewrite (maybeCleanup_lookup_live now q k e He Hlive).
    + rewrite !approve_count, maybeCleanup_delete. f_equal.
      apply filter_delete_unselected. intros e' [Hp' _]. simpl in Hp'. congruence.
    + rewrite !deny_count, maybeCleanup_delete. f_equal.
      apply filter_delete_unselected. intros e' [Hp' _]. simpl in Hp'. congruence.
Qed.

Lemma session_frame_witness :
  let q := (request 1000 "agent:main:telegram:42" "Shell" "bash" (ApprovalQueue.new 0 None)).2 in
  entries (approve 2000 "agent:main:whatsapp:7" q).2 !! "agent:main:telegram:42::Shell.bash"
    = Some (mkEntry "agent:main:telegram:42" "Shell" "bash" pending 1000 121000) ∧
  entries (deny 2000 "agent:main:whatsapp:7" q).2 !! "agent:main:telegram:42::Shell.bash"
    = Some (mkEntry "agent:main:telegram:42" "Shell" "bash" pending 1000 121000).
Proof.
  intros q.
  destruct (session_frame 2000 "agent:main:whatsapp:7" "agent:main:telegram:42"
              "agent:main:telegram:42::Shell.bash"
              (mkEntry "agent:main:telegram:42" "Shell" "bash" pending 1000 121000) q)
    as (Hprefix & Hframe).
  - discriminate.
  - vm_compute. reflexivity.
  - reflexivity.
  - destruct Hframe as (Hlive & _).
    + apply Hprefix.
      * apply well_keyed_request, well_keyed_new.
      * reflexivity.
      * reflexivity.
    + apply Hlive. simpl. lia.
Defined.

(* ===================================================================== *)
(** * Path A: [deny] *)
(* ===================================================================== *)

(** C10, as stated, on an approved entry that has expired: [deny] removes it
    through the sweep, although its status is not pending. *)
Lemma deny_only_pending_counterexample :
  let q := (approve 2000 "s" (request 1000 "s" "Shell" "bash" (ApprovalQueue.new 0 None)).2).2 in
  entries q !! "s::Shell.bash" = Some (mkEntry "s" "Shell" "bash" approved 1000 122000) ∧
  entries (deny 200000 "s" q).2 !! "s::Shell.bash" = None.
Proof. vm_compute. split; reflexivity. Qed.

(** C10, amended.  [deny] leaves every approved, unexpired entry untouched, and
    such an entry of the session is still consumed by a later [consume] made
    before it expires; an entry that [deny] removes was pending, or had
    expired and was swept. *)
Theorem deny_keeps_approved (now : Z) (s : string) (q : ApprovalQueue.t) :
  (∀ k e, entries q !! k = Some e → status e = approved → now < expiresAt e →
          entries (deny now s q).2 !! k = Some e) ∧
  (∀ m meth e t,
     entries q !! key s m meth = Some e → status e = approved → now < expiresAt e →
     t < expiresAt e →
     (consume t s m meth (deny now s q).2).1 = true) ∧
  (∀ k e, entries q !! k = Some e → entries (deny now s q).2 !! k = None →
          status e = pending ∨ expiresAt e ≤ now).
Proof.
  assert (∀ k e, entries q !! k = Some e → status e = approved → now < expiresAt e →
                 entries (deny now s q).2 !! k = Some e) as Hkeep.
  { intros k e He Hst Hlive.
    rewrite deny_lookup, (maybeCleanup_lookup_live now q k e He Hlive).
    destruct (String.prefix _ _); [|done]. simpl.
    unfold deny_entry. rewrite bool_decide_eq_false_2; [done|congruence]. }
  split; [done|]. split.
  - intros m meth e t He Hst Hlive Ht.
    apply consume_true. exists e. split; [by apply Hkeep|done].
  - intros k e He Hgone.
    destruct (decide (status e = pending)) as [|Hnp]; [by left|right].
    destruct (decide (expiresAt e ≤ now)) as [|Hlive]; [done|].
    rewrite deny_lookup, (maybeCleanup_lookup_live now q k e He) in Hgone by lia.
    destruct (String.prefix _ _); [|done]. simpl in Hgone.
    unfold deny_entry in Hgone. by rewrite bool_decide_eq_false_2 in Hgone.
Qed.

Lemma deny_keeps_approved_witness :
  let q := (approve 2000 "s" (request 1000 "s" "Shell" "bash" (ApprovalQueue.new 0 None)).2).2 in
  entries (deny 3000 "s" q).2 !! "s::Shell.bash"
    = Some (mkEntry "s" "Shell" "bash" approved 1000 122000) ∧
  (consume 4000 "s" "Shell" "bash" (deny 3000 "s" q).2).1 = true.
Proof.
  intros q.
  destruct (deny_keeps_approved 3000 "s" q) as (Hkeep & Hconsume & _).
  assert (entries q !! key "s" "Shell" "bash"
          = Some (mkEntry "s" "Shell" "bash" approved 1000 122000)) as He
    by (vm_compute; reflexivity).
  split.
  - apply Hkeep; [exact He | reflexivity | simpl; lia].
  - apply (Hconsume "Shell" "bash" _ 4000 He); [reflexivity | simpl; lia..].
Defined.

(* ===================================================================== *)
(** * Blanket allows *)
(* ===================================================================== *)

(** A blanket allow installed by [allowFor] is reported by [hasBlanketAllow]
    exactly until its duration has elapsed. *)
Lemma hasBlanketAllow_allowFor (now t durationMs : Z) (s m meth : string)
    (q : ApprovalQueue.t) :
  now + durationMs ≠ 0 →
  (hasBlanketAllow t s m meth (allowFor now s m meth durationMs q)).1 = true
  ↔ t < now + durationMs.
Proof.
  intros Hnz. unfold hasBlanketAllow, allowFor. simpl.
  rewrite lookup_insert_eq.
  assert ((now + durationMs =? 0) = false) as -> by lia.
  destruct (now + durationMs <=? t) eqn:Hle; simpl; split; (done || lia).
Qed.

Lemma consume_ignores_blanketAllows (now : Z) (s m meth : string) (q : ApprovalQueue.t)
    (b : gmap string Z) :
  (consume now s m meth (with_blanketAllows q b)).1 = (consume now s m meth q).1.
Proof. unfold consume. simpl. by repeat case_match. Qed.

Lemma consumePending_ignores_blanketAllows (now : Z) (s m meth : string)
    (q : ApprovalQueue.t) (b : gmap string Z) :
  (consumePending now s m meth (with_blanketAllows q b)).1
  = (consumePending now s m meth q).1.
Proof. unfold consumePending. simpl. by repeat case_match. Qed.

(** The verdict of the arbitrator does not depend on the blanket allows. *)
Lemma judge_ignores_blanketAllows (env : Env) (ctx : ExecutionContext) (q : ApprovalQueue.t)
    (b : gmap string Z) :
  (judge env ctx (with_blanketAllows q b)).1 = (judge env ctx q).1.
Proof.
  unfold judge. destruct (stdinIsTTY env); [done|].
  destruct (ctx_sessionKey ctx) as [s|]; [|done].
  destruct (truthy (Some s)); [|done].
  rewrite !judgeChannel_unfold. cbv zeta.
  rewrite consume_ignores_blanketAllows, consumePending_ignores_blanketAllows.
  by repeat case_match.
Qed.

(** C7 on the code.  First run: a blanket allow for [Network.fetch] is
    installed for 15 minutes and [hasBlanketAllow] reports it one second later,
    yet the arbitration of that operation at that instant is not approved: it
    arms a pending entry and [evaluate] throws.  Second run, through the reply
    tool: the operation is blocked, the user answers ALLOW, the retry is
    approved by consuming the approved entry, and the next call of the same
    operation, one second later and with the blanket allow still active, is
    blocked again. *)
Theorem blanket_allow_not_consulted :
  let env t := mkEnv false false t in
  let ctx := mkContext "Network" "fetch" [] (mkRule ASK (Some "Potential data exfiltration"))
                       (Some "s") in
  let q := allowFor 0 "s" "Network" "fetch" 900000 (ApprovalQueue.new 0 None) in
  ((hasBlanketAllow 1000 "s" "Network" "fetch" q).1 = true ∧
   (judge (env 1000) ctx q).1 = false ∧
   entries (judge (env 1000) ctx q).2 !! "s::Network.fetch"
     = Some (mkEntry "s" "Network" "fetch" pending 1000 121000) ∧
   (evaluate (new_Interceptor None None) (env 1000) "Network" "fetch" [] (Some "s") q).1
     ≠ Resolved) ∧
  let q1 := (judge (env 1000) ctx (ApprovalQueue.new 0 None)).2 in
  let r := handleRespondTool 2000 "allow" (Some "s") q1 in
  let j3 := judge (env 3000) ctx r.2 in
  (blockReason r.1 = "Approved for 15 minutes: Network.fetch. Retry the blocked tool." ∧
   j3.1 = true ∧
   (hasBlanketAllow 4000 "s" "Network" "fetch" j3.2).1 = true ∧
   (judge (env 4000) ctx j3.2).1 = false).
Proof.
  intros env ctx q. split.
  - split; [vm_compute; reflexivity|].
    split; [vm_compute; reflexivity|].
    split; [vm_compute; reflexivity|].
    vm_compute. discriminate.
  - vm_compute. repeat split; reflexivity.
Qed.


(* ===================================================================== *)
(** * Further properties of the queue *)
(* ===================================================================== *)

Lemma hasPending_true (now : Z) (s : string) (q : ApprovalQueue.t) :
  hasPending now s q = true ↔
  ∃ k e, entries q !! k = Some e ∧ String.prefix (s +:+ "::") k = true ∧
         status e = pending ∧ now < expiresAt e.
Proof.
  unfold hasPending. rewrite existsb_exists. split.
  - intros (k & Hin & Hl).
    apply list_elem_of_In, elem_of_keysForSession in Hin as [[e He] Hp].
    rewrite He in Hl. simpl in Hl. apply live_pending_true in Hl.
    exists k, e. tauto.
  - intros (k & e & He & Hp & Hst & Hlive). exists k. split.
    + apply list_elem_of_In, elem_of_keysForSession. eauto.
    + rewrite He. simpl. by apply live_pending_true.
Qed.

Lemma getPendingActions_length (now : Z) (s : string) (q : ApprovalQueue.t) :
  length (getPendingActions now s q) =
  size (filter (λ kv, String.prefix (s +:+ "::") kv.1 = true ∧ live_pending now kv.2 = true)
               (entries q)).
Proof.
  unfold getPendingActions. rewrite length_map, <- keysForSession_count.
  induction (keysForSession s q) as [|k ks IH]; [done|].
  cbn [omap list_omap]. rewrite (filter_cons _ k ks).
  destruct (entries q !! k) as [e|]; simpl.
  - rewrite filter_cons.
    destruct (decide (live_pending now e)) as [Hl|Hl];
      destruct (live_pending now e); simpl in *; try done; by rewrite IH.
  - exact IH.
Qed.

(** The pending, unexpired entries are the same before and after the sweep. *)
Lemma live_pending_entries_swept (now : Z) (s : string) (q : ApprovalQueue.t) :
  filter (λ kv, String.prefix (s +:+ "::") kv.1 = true ∧ live_pending now kv.2 = true)
         (entries (maybeCleanup now q))
  = filter (λ kv, String.prefix (s +:+ "::") kv.1 = true ∧ live_pending now kv.2 = true)
           (entries q).
Proof.
  apply map_eq. intros k. apply option_eq. intros e.
  rewrite !map_lookup_filter_Some. simpl. rewrite live_pending_true. split.
  - intros (He & Hp & Hl). apply maybeCleanup_lookup_Some in He. done.
  - intros (He & Hp & Hst & Hlive). split; [|done].
    by apply maybeCleanup_lookup_live.
Qed.

(** X1. The three views of the pending entries of a session agree:
    [hasPending] is true exactly when [getPendingActions] is not empty, and
    [approve] transitions, and returns, as many entries as
    [getPendingActions] lists. *)
Theorem pending_views_agree (now : Z) (s : string) (q : ApprovalQueue.t) :
  (hasPending now s q = true ↔ getPendingActions now s q ≠ []) ∧
  length (getPendingActions now s q) = (approve now s q).1 ∧
  (hasPending now s q = true ↔ (0 < (approve now s q).1)%nat).
Proof.
  assert (length (getPendingActions now s q) = (approve now s q).1) as Hlen.
  { by rewrite getPendingActions_length, approve_count, live_pending_entries_swept. }
  assert (hasPending now s q = true ↔ (0 < length (getPendingActions now s q))%nat) as Hhas.
  { rewrite getPendingActions_length, hasPending_true. split.
    - intros (k & e & He & Hp & Hst & Hlive).
      assert (size (filter (λ kv : string * ApprovalEntry,
                String.prefix (s +:+ "::") kv.1 = true ∧ live_pending now kv.2 = true)
                (entries q)) ≠ 0%nat); [|lia].
      apply map_size_ne_0_lookup. exists k, e.
      apply map_lookup_filter_Some. simpl. rewrite live_pending_true. done.
    - intros Hpos.
      destruct (map_size_ne_0_lookup_1
                  (filter (λ kv : string * ApprovalEntry,
                     String.prefix (s +:+ "::") kv.1 = true ∧ live_pending now kv.2 = true)
                     (entries q))) as (k & e & Hke); [lia|].
      apply map_lookup_filter_Some in Hke as (He & Hp & Hl). simpl in *.
      apply live_pending_true in Hl. exists k, e. tauto. }
  split; [|split].
  - rewrite Hhas. destruct (getPendingActions now s q); simpl; split; (done || lia).
  - exact Hlen.
  - by rewrite <- Hlen.
Qed.

Lemma deny_entries (now : Z) (s : string) (q : ApprovalQueue.t) :
  entries (deny now s q).2
  = filter (λ kv, ¬ (String.prefix (s +:+ "::") kv.1 = true ∧
                     bool_decide (status kv.2 = pending) = true))
           (entries (maybeCleanup now q)).
Proof.
  apply map_eq. intros k. apply option_eq. intros e.
  rewrite deny_lookup, map_lookup_filter_Some. simpl.
  destruct (entries (maybeCleanup now q) !! k) as [e0|] eqn:He0.
  - destruct (String.prefix (s +:+ "::") k); simpl.
    + unfold deny_entry. destruct (bool_decide (status e0 = pending)) eqn:Hp.
      * split; [done|]. intros [[= <-] Hno]. tauto.
      * split; [intros [= <-]; split; [done|] |by intros [? _]].
        intros [_ ?]. congruence.
    + split; [intros [= <-]; split; [done|] |by intros [? _]].
      intros [? _]. done.
  - destruct (String.prefix (s +:+ "::") k); simpl; split; (done || by intros [? _]).
Qed.

(** X2. After [deny session] no pending entry is left under the keys of the
    session, expired or not: [hasPending] is false and [getPendingActions] is
    empty at every instant, [consumePending] fails for every operation of the
    session without touching the queue, and [approve] approves nothing. *)
Theorem deny_clears_pending (now : Z) (s : string) (q : ApprovalQueue.t) :
  (∀ k e, entries (deny now s q).2 !! k = Some e →
          String.prefix (s +:+ "::") k = true → status e ≠ pending) ∧
  (∀ t, hasPending t s (deny now s q).2 = false) ∧
  (∀ t, getPendingActions t s (deny now s q).2 = []) ∧
  (∀ t m meth, consumePending t s m meth (deny now s q).2 = (false, (deny now s q).2)) ∧
  (∀ t, (approve t s (deny now s q).2).1 = 0%nat).
Proof.
  assert (∀ k e, entries (deny now s q).2 !! k = Some e →
                 String.prefix (s +:+ "::") k = true → status e ≠ pending) as Hnone.
  { intros k e. rewrite deny_entries, map_lookup_filter_Some. simpl.
    intros [_ Hno] Hp Hst. apply Hno. split; [done|]. by apply bool_decide_eq_true. }
  assert (∀ t, size (filter (λ kv : string * ApprovalEntry,
                 String.prefix (s +:+ "::") kv.1 = true ∧ live_pending t kv.2 = true)
                 (entries (deny now s q).2)) = 0%nat) as Hzero.
  { intros t. apply map_size_empty_iff, map_empty_filter.
    intros k e He [Hp Hl]. simpl in *. apply live_pending_true in Hl as [Hst _].
    by apply (Hnone k e). }
  split; [done|]. split; [|split; [|split]].
  - intros t. apply not_true_iff_false. rewrite hasPending_true.
    intros (k & e & He & Hp & Hst & _). by apply (Hnone k e).
  - intros t. apply length_zero_iff_nil. by rewrite getPendingActions_length.
  - intros t m meth.
    pose proof (consumePending_state t s m meth (deny now s q).2) as Hstate.
    destruct (consumePending t s m meth (deny now s q).2) as [b q'] eqn:Hc.
    simpl in Hstate. destruct b; [|by subst].
    exfalso.
    assert ((consumePending t s m meth (deny now s q).2).1 = true) as Ht by by rewrite Hc.
    apply consumePending_true in Ht as (e & He & Hst & _).
    apply (Hnone _ e He); [apply prefix_key | done].
  - intros t. by rewrite approve_count, live_pending_entries_swept.
Qed.

(** X3. [deny] returns the number of entries its loop deletes: the entries
    left by the sweep are those left by [deny] plus that many. *)
Theorem deny_returns_deleted (now : Z) (s : string) (q : ApprovalQueue.t) :
  ((deny now s q).1 + size (entries (deny now s q).2))%nat
  = size (entries (maybeCleanup now q)) ∧
  (size (entries (deny now s q).2) ≤ size (entries q))%nat ∧
  (deny now s q).1 =
    size (filter (λ kv, String.prefix (s +:+ "::") kv.1 = true ∧ status kv.2 = pending)
                 (entries (maybeCleanup now q))).
Proof.
  assert ((deny now s q).1 =
    size (filter (λ kv, String.prefix (s +:+ "::") kv.1 = true ∧ status kv.2 = pending)
                 (entries (maybeCleanup now q)))) as Hcount.
  { rewrite deny_count. f_equal. apply map_filter_ext. intros k e _. simpl.
    by rewrite bool_decide_eq_true. }
  assert (((deny now s q).1 + size (entries (deny now s q).2))%nat
          = size (entries (maybeCleanup now q))) as Hsum.
  { rewrite deny_count, deny_entries.
    rewrite <- map_size_disj_union by apply map_disjoint_filter_complement.
    by rewrite map_filter_union_complement. }
  split; [done|]. split; [|done].
  assert (size (entries (maybeCleanup now q)) ≤ size (entries q))%nat; [|lia].
  unfold maybeCleanup. case_match; [|done]. simpl. apply map_size_filter.
Qed.

(* ===================================================================== *)
(** * The sweep *)
(* ===================================================================== *)

(** X4. When the sweep is due, [maybeCleanup] leaves exactly the entries and
    blanket allows that have not expired and records the instant; it is then
    not run again for 30 s, and sweeping twice at one instant is sweeping
    once. *)
Theorem maybeCleanup_spec (now : Z) (q : ApprovalQueue.t) :
  CLEANUP_INTERVAL_MS < now - lastCleanup q →
  (∀ k e, entries (maybeCleanup now q) !! k = Some e ↔
          entries q !! k = Some e ∧ now < expiresAt e) ∧
  (∀ k x, blanketAllows (maybeCleanup now q) !! k = Some x ↔
          blanketAllows q !! k = Some x ∧ now < x) ∧
  lastCleanup (maybeCleanup now q) = now ∧
  (∀ t, t - now ≤ CLEANUP_INTERVAL_MS →
        maybeCleanup t (maybeCleanup now q) = maybeCleanup now q) ∧
  cleanup now (maybeCleanup now q) = maybeCleanup now q.
Proof.
  intros Hdue.
  assert (maybeCleanup now q = cleanup now q) as ->.
  { unfold maybeCleanup.
    by assert ((CLEANUP_INTERVAL_MS <? now - lastCleanup q) = true) as -> by lia. }
  split; [|split; [|split; [|split]]].
  - intros k e. apply cleanup_lookup_Some.
  - intros k x. unfold cleanup; simpl. by rewrite map_lookup_filter_Some.
  - done.
  - intros t Ht. by apply maybeCleanup_not_due.
  - unfold cleanup; simpl. f_equal.
    + apply map_filter_id. intros k e [_ ?]%map_lookup_filter_Some. done.
    + apply map_filter_id. intros k x [_ ?]%map_lookup_filter_Some. done.
Qed.

Lemma maybeCleanup_spec_witness :
  let q := (request 1000 "s" "Shell" "bash" (ApprovalQueue.new 0 None)).2 in
  entries (maybeCleanup 200000 q) !! "s::Shell.bash" = None ∧
  lastCleanup (maybeCleanup 200000 q) = 200000.
Proof.
  intros q.
  destruct (maybeCleanup_spec 200000 q) as (Hentries & _ & Hlast & _).
  - vm_compute. reflexivity.
  - split; [|exact Hlast].
    destruct (entries (maybeCleanup 200000 q) !! "s::Shell.bash") as [e|] eqn:He; [|done].
    apply Hentries in He as [He Hlive]. vm_compute in He. injection He as <-.
    simpl in Hlive. lia.
Defined.

(** The sweep against the read paths. *)
Lemma hasBlanketAllow_cleanup (now : Z) (s m meth : string) (q : ApprovalQueue.t) :
  (hasBlanketAllow now s m meth (cleanup now q)).1 = (hasBlanketAllow now s m meth q).1.
Proof.
  unfold hasBlanketAllow.
  destruct (blanketAllows (cleanup now q) !! key s m meth) as [y|] eqn:Hy.
  - unfold cleanup in Hy; simpl in Hy.
    apply map_lookup_filter_Some in Hy as [-> Hlive]. simpl in Hlive.
    by repeat case_match.
  - unfold cleanup in Hy; simpl in Hy.
    destruct (blanketAllows q !! key s m meth) as [x|] eqn:Hx; [|done].
    apply map_lookup_filter_None in Hy as [Hy|Hy]; [congruence|].
    specialize (Hy x Hx). simpl in Hy.
    destruct (x =? 0); [done|]. by assert ((x <=? now) = true) as -> by lia.
Qed.

(** X5. The sweep cannot be observed through the read paths: at the instant
    of the sweep, [consume], [consumePending], [hasPending] and
    [hasBlanketAllow] answer the same on the swept queue as on the queue that
    still holds the expired entries, and consuming after the sweep gives the
    queue that sweeping after consuming gives. *)
Theorem sweep_unobservable (now : Z) (s m meth : string) (q : ApprovalQueue.t) :
  (consume now s m meth (cleanup now q)).1 = (consume now s m meth q).1 ∧
  (consumePending now s m meth (cleanup now q)).1 = (consumePending now s m meth q).1 ∧
  hasPending now s (cleanup now q) = hasPending now s q ∧
  (hasBlanketAllow now s m meth (cleanup now q)).1 = (hasBlanketAllow now s m meth q).1 ∧
  (consume now s m meth (cleanup now q)).2 = cleanup now (consume now s m meth q).2 ∧
  (consumePending now s m meth (cleanup now q)).2
    = cleanup now (consumePending now s m meth q).2.
Proof.
  assert ((consume now s m meth (cleanup now q)).1 = (consume now s m meth q).1) as Hc.
  { apply eq_true_iff_eq. rewrite !consume_true. split.
    - intros (e & [He _]%cleanup_lookup_Some & ?). eauto.
    - intros (e & He & Hst & Hlive). exists e. by rewrite cleanup_lookup_Some. }
  assert ((consumePending now s m meth (cleanup now q)).1
          = (consumePending now s m meth q).1) as Hp.
  { apply eq_true_iff_eq. rewrite !consumePending_true. split.
    - intros (e & [He _]%cleanup_lookup_Some & ?). eauto.
    - intros (e & He & Hst & Hlive & Hage). exists e. by rewrite cleanup_lookup_Some. }
  split; [done|]. split; [done|]. split; [|split; [|split]].
  - apply eq_true_iff_eq. rewrite !hasPending_true. split.
    + intros (k & e & [He _]%cleanup_lookup_Some & ?). eauto.
    + intros (k & e & He & Hpre & Hst & Hlive). exists k, e.
      by rewrite cleanup_lookup_Some.
  - apply hasBlanketAllow_cleanup.
  - rewrite !consume_state, Hc. destruct (consume now s m meth q).1; [|done].
    unfold cleanup, with_entries. simpl. f_equal. symmetry. apply map_filter_delete.
  - rewrite !consumePending_state, Hp. destruct (consumePending now s m meth q).1; [|done].
    unfold cleanup, with_entries. simpl. f_equal. symmetry. apply map_filter_delete.
Qed.

(* ===================================================================== *)
(** * Blanket allows, continued *)
(* ===================================================================== *)

(** X6. A blanket allow installed by [allowFor] is active for its operation
    until its duration has elapsed; the first check after that removes it;
    [allowFor] overwrites an earlier allow for the same operation, changes
    the allow of no other key, and never changes the entries. *)
Theorem blanket_allow_lifecycle (now durationMs : Z) (s m meth : string)
    (q : ApprovalQueue.t) :
  now + durationMs ≠ 0 →
  (∀ t, t < now + durationMs →
        hasBlanketAllow t s m meth (allowFor now s m meth durationMs q)
        = (true, allowFor now s m meth durationMs q)) ∧
  (∀ t, now + durationMs ≤ t →
        (hasBlanketAllow t s m meth (allowFor now s m meth durationMs q)).1 = false ∧
        blanketAllows (hasBlanketAllow t s m meth (allowFor now s m meth durationMs q)).2
          !! key s m meth = None) ∧
  (∀ now' durationMs',
        allowFor now' s m meth durationMs' (allowFor now s m meth durationMs q)
        = allowFor now' s m meth durationMs' q) ∧
  (∀ k, k ≠ key s m meth →
        blanketAllows (allowFor now s m meth durationMs q) !! k = blanketAllows q !! k) ∧
  entries (allowFor now s m meth durationMs q) = entries q ∧
  (∀ t, entries (hasBlanketAllow t s m meth q).2 = entries q).
Proof.
  intros Hnz. split; [|split; [|split; [|split; [|split]]]].
  - intros t Ht. unfold hasBlanketAllow, allowFor. simpl. rewrite lookup_insert_eq.
    assert ((now + durationMs =? 0) = false) as -> by lia.
    by assert ((now + durationMs <=? t) = false) as -> by lia.
  - intros t Ht. unfold hasBlanketAllow, allowFor. simpl. rewrite lookup_insert_eq.
    assert ((now + durationMs =? 0) = false) as -> by lia.
    assert ((now + durationMs <=? t) = true) as -> by lia.
    simpl. split; [done|]. apply lookup_delete_eq.
  - intros now' durationMs'. unfold allowFor, with_blanketAllows. simpl.
    by rewrite insert_insert_eq.
  - intros k Hk. unfold allowFor. simpl. by rewrite lookup_insert_ne.
  - done.
  - intros t. unfold hasBlanketAllow. by repeat case_match.
Qed.

Lemma blanket_allow_lifecycle_witness :
  let q := allowFor 1000 "s" "Network" "fetch" 900000 (ApprovalQueue.new 0 None) in
  hasBlanketAllow 900999 "s" "Network" "fetch" q = (true, q) ∧
  (hasBlanketAllow 901000 "s" "Network" "fetch" q).1 = false.
Proof.
  intros q.
  destruct (blanket_allow_lifecycle 1000 900000 "s" "Network" "fetch"
              (ApprovalQueue.new 0 None)) as (Hactive & Hgone & _); [lia|].
  split.
  - apply Hactive. lia.
  - apply Hgone. lia.
Defined.

(* ===================================================================== *)
(** * Where the entries of the queue come from *)
(* ===================================================================== *)

Lemma request_lookup_inv (now : Z) (s m meth k : string) (q : ApprovalQueue.t)
    (e : ApprovalEntry) :
  entries (request now s m meth q).2 !! k = Some e →
  entries q !! k = Some e ∨
  (k = key s m meth ∧ e = mkEntry s m meth pending now (now + ttl q)).
Proof.
  unfold request, fresh_entry. rewrite maybeCleanup_ttl.
  repeat case_match; simpl;
    rewrite ?lookup_insert_Some; intros H';
    try (left; by eapply maybeCleanup_lookup_Some);
    destruct H' as [[<- <-]|[_ H']]; try (by right);
    left; by eapply maybeCleanup_lookup_Some.
Qed.

Lemma consume_lookup_inv (now : Z) (s m meth k : string) (q : ApprovalQueue.t)
    (e : ApprovalEntry) :
  entries (consume now s m meth q).2 !! k = Some e → entries q !! k = Some e.
Proof.
  rewrite consume_state. case_match; [|done]. simpl.
  by intros [_ ?]%lookup_delete_Some.
Qed.

Lemma consumePending_lookup_inv (now : Z) (s m meth k : string) (q : ApprovalQueue.t)
    (e : ApprovalEntry) :
  entries (consumePending now s m meth q).2 !! k = Some e → entries q !! k = Some e.
Proof.
  rewrite consumePending_state. case_match; [|done]. simpl.
  by intros [_ ?]%lookup_delete_Some.
Qed.

Lemma deny_lookup_inv (now : Z) (s k : string) (q : ApprovalQueue.t) (e : ApprovalEntry) :
  entries (deny now s q).2 !! k = Some e → entries q !! k = Some e.
Proof.
  rewrite deny_entries. intros [He _]%map_lookup_filter_Some.
  by eapply maybeCleanup_lookup_Some.
Qed.

Lemma approve_lookup_inv (now : Z) (s k : string) (q : ApprovalQueue.t) (e' : ApprovalEntry) :
  entries (approve now s q).2 !! k = Some e' →
  ∃ e, entries q !! k = Some e ∧
       (e' = e ∨ (e' = approved_at now (ttl q) e ∧ status e = pending ∧ now < expiresAt e)).
Proof.
  rewrite approve_lookup.
  destruct (entries (maybeCleanup now q) !! k) as [e|] eqn:He; [|by case_match].
  apply maybeCleanup_lookup_Some in He.
  case_match; simpl; intros [= <-]; exists e; (split; [done|]); [|by left].
  unfold approve_entry. destruct (live_pending now e) eqn:Hl; [|by left].
  apply live_pending_true in Hl. right. tauto.
Qed.

Lemma hasBlanketAllow_entries (now : Z) (s m meth : string) (q : ApprovalQueue.t) :
  entries (hasBlanketAllow now s m meth q).2 = entries q ∧
  ttl (hasBlanketAllow now s m meth q).2 = ttl q.
Proof. unfold hasBlanketAllow. by repeat case_match. Qed.

Lemma judge_lookup_inv (env : Env) (ctx : ExecutionContext) (q : ApprovalQueue.t)
    (k : string) (e : ApprovalEntry) :
  entries (judge env ctx q).2 !! k = Some e →
  entries q !! k = Some e ∨
  (stdinIsTTY env = false ∧
   ∃ s, ctx_sessionKey ctx = Some s ∧
        k = key s (ctx_moduleName ctx) (ctx_methodName ctx) ∧
        e = mkEntry s (ctx_moduleName ctx) (ctx_methodName ctx) pending
                    (dateNow env) (dateNow env + ttl q)).
Proof.
  unfold judge. destruct (stdinIsTTY env); [by left|].
  destruct (ctx_sessionKey ctx) as [s|]; [|by left].
  destruct (truthy (Some s)); [|by left].
  rewrite judgeChannel_unfold. cbv zeta.
  destruct (consume _ _ _ _ q).1 eqn:Ha; cbn [snd].
  - intros ?%consume_lookup_inv. by left.
  - destruct (consumePending _ _ _ _ q).1 eqn:Hb; cbn [snd].
    + intros ?%consumePending_lookup_inv. by left.
    + intros [?|[-> ->]]%request_lookup_inv; [by left|right]. eauto.
Qed.

(** The blanket allows do not take part in what [approve] does to the entries. *)
Lemma approve_entries_blanketAllows (now : Z) (s : string) (q : ApprovalQueue.t)
    (b : gmap string Z) :
  entries (approve now s (with_blanketAllows q b)).2 = entries (approve now s q).2.
Proof.
  apply map_eq. intros k. rewrite !approve_lookup.
  assert (entries (maybeCleanup now (with_blanketAllows q b))
          = entries (maybeCleanup now q)) as ->; [|done].
  unfold maybeCleanup. simpl. by case_match.
Qed.

Lemma fold_allowFor (now d : Z) (s : string) (acts : list (string * string))
    (q : ApprovalQueue.t) :
  ∃ b, fold_left (λ q p, allowFor now s p.1 p.2 d q) acts q = with_blanketAllows q b.
Proof.
  revert q. induction acts as [|p acts IH]; intros q; simpl.
  - exists (blanketAllows q). by destruct q.
  - destruct (IH (allowFor now s p.1 p.2 d q)) as [b ->]. by exists b.
Qed.

(** What a reply through the tool does to the entries: nothing, or what
    [approve] or [deny] of the session does. *)
Lemma handleRespondTool_entries (now : Z) (decision : string) (sk : option string)
    (q : ApprovalQueue.t) :
  entries (handleRespondTool now decision sk q).2 = entries q ∨
  ∃ s, sk = Some s ∧
       (entries (handleRespondTool now decision sk q).2 = entries (approve now s q).2 ∨
        entries (handleRespondTool now decision sk q).2 = entries (deny now s q).2).
Proof.
  unfold handleRespondTool. destruct sk as [s|]; [|by left].
  destruct (String.eqb s ""); [by left|].
  destruct (String.eqb decision "yes").
  { destruct (negb (hasPending now s q)); [by left|].
    right. exists s. split; [done|left]. by destruct (approve now s q). }
  destruct (String.eqb decision "no").
  { right. exists s. split; [done|right]. by destruct (deny now s q). }
  destruct (String.eqb decision "allow"); [|by left].
  destruct (getPendingActions now s q) as [|p acts]; [by left|].
  right. exists s. split; [done|left].
  destruct (fold_allowFor now (15 * 60 * 1000) s (p :: acts) q) as [b Hb].
  cbv zeta. rewrite Hb.
  rewrite <- (approve_entries_blanketAllows now s q b).
  by destruct (approve now s (with_blanketAllows q b)).
Qed.

Lemma handleRespondTool_ttl (now : Z) (decision : string) (sk : option string)
    (q : ApprovalQueue.t) :
  ttl (handleRespondTool now decision sk q).2 = ttl q.
Proof.
  unfold handleRespondTool. destruct sk as [s|]; [|done].
  destruct (String.eqb s ""); [done|].
  destruct (String.eqb decision "yes").
  { destruct (negb (hasPending now s q)); [done|].
    pose proof (approve_other_fields now s q) as (_ & _ & Ht).
    by destruct (approve now s q). }
  destruct (String.eqb decision "no").
  { pose proof (deny_other_fields now s q) as (_ & _ & Ht).
    by destruct (deny now s q). }
  destruct (String.eqb decision "allow"); [|done].
  destruct (getPendingActions now s q) as [|p acts]; [done|].
  destruct (fold_allowFor now (15 * 60 * 1000) s (p :: acts) q) as [b Hb].
  cbv zeta. rewrite Hb.
  pose proof (approve_other_fields now s (with_blanketAllows q b)) as (_ & _ & Ht).
  by destruct (approve now s (with_blanketAllows q b)).
Qed.

Lemma run_ttl (now : Z) (c : Call) (q : ApprovalQueue.t) : ttl (run now c q) = ttl q.
Proof.
  destruct c; simpl.
  - apply request_ttl.
  - rewrite consume_state. by case_match.
  - rewrite consumePending_state. by case_match.
  - apply approve_other_fields.
  - apply deny_other_fields.
  - done.
  - apply hasBlanketAllow_entries.
  - unfold judge. repeat case_match; try done.
    rewrite judgeChannel_unfold. cbv zeta. repeat case_match; simpl.
    + rewrite consume_state. by case_match.
    + rewrite consumePending_state. by case_match.
    + apply request_ttl.
  - apply handleRespondTool_ttl.
Qed.

(** Every entry found after a call was there before, or is the fresh pending
    entry armed under the key of the call, or is the approved version of a
    pending, unexpired entry that was there before. *)
Lemma run_lookup_inv (now : Z) (c : Call) (q : ApprovalQueue.t) (k : string)
    (e' : ApprovalEntry) :
  entries (run now c q) !! k = Some e' →
  entries q !! k = Some e' ∨
  (armed_key c = Some k ∧
   ∃ s m meth, k = key s m meth ∧ e' = mkEntry s m meth pending now (now + ttl q)) ∨
  (∃ e, entries q !! k = Some e ∧ e' = approved_at now (ttl q) e ∧
        status e = pending ∧ now < expiresAt e).
Proof.
  destruct c as [s m meth|s m meth|s m meth|s|s|s m meth d|s m meth|tty prompt ctx|d sk];
    simpl.
  - intros [?|[-> ->]]%request_lookup_inv; [by left|right; left]. eauto 10.
  - intros ?%consume_lookup_inv. by left.
  - intros ?%consumePending_lookup_inv. by left.
  - intros (e & He & [->|?])%approve_lookup_inv; [by left|right; right]. eauto.
  - intros ?%deny_lookup_inv. by left.
  - by left.
  - rewrite (proj1 (hasBlanketAllow_entries now s m meth q)). by left.
  - intros [?|(Htty & s & Hs & -> & ->)]%judge_lookup_inv; [by left|right; left].
    simpl in *. subst tty. rewrite Hs. eauto 10.
  - destruct (handleRespondTool_entries now d sk q) as [->|(s & _ & [->| ->])].
    + by left.
    + intros (e & He & [->|?])%approve_lookup_inv; [by left|right; right]. eauto.
    + intros ?%deny_lookup_inv. by left.
Qed.

(* ===================================================================== *)
(** * Invariants of the reachable queues *)
(* ===================================================================== *)

Lemma runs_cons (c : Z * Call) (calls : list (Z * Call)) (q : ApprovalQueue.t) :
  runs (c :: calls) q = runs calls (run c.1 c.2 q).
Proof. done. Qed.

Lemma runs_ttl (calls : list (Z * Call)) (q : ApprovalQueue.t) : ttl (runs calls q) = ttl q.
Proof.
  revert q. induction calls as [|c calls IH]; intros q; [done|].
  by rewrite runs_cons, IH, run_ttl.
Qed.

Lemma well_keyed_run (now : Z) (c : Call) (q : ApprovalQueue.t) :
  well_keyed q → well_keyed (run now c q).
Proof.
  intros Hwk k e' [He|[(_ & s & m & meth & -> & ->)|(e & He & -> & _)]]%run_lookup_inv.
  - exact (map_Forall_lookup_1 _ _ _ _ Hwk He).
  - done.
  - exact (map_Forall_lookup_1 _ _ _ _ Hwk He).
Qed.

(** X7. In every queue reached from a new one by calls of the queue's
    methods, judgments and replies, each entry is stored under the composite
    key of its own session, module and method. *)
Theorem reachable_well_keyed (calls : list (Z * Call)) (now0 : Z) (ttlMs : option Z) :
  well_keyed (runs calls (ApprovalQueue.new now0 ttlMs)).
Proof.
  assert (∀ q, well_keyed q → well_keyed (runs calls q)) as Hstep.
  { induction calls as [|c calls IH]; intros q Hq; [done|].
    rewrite runs_cons. by apply IH, well_keyed_run. }
  apply Hstep, map_Forall_empty.
Qed.

Lemma no_denied_run (now : Z) (c : Call) (q : ApprovalQueue.t) :
  no_denied q → no_denied (run now c q).
Proof.
  intros Hnd k e' [He|[(_ & s & m & meth & -> & ->)|(e & He & -> & _)]]%run_lookup_inv.
  - exact (map_Forall_lookup_1 _ _ _ _ Hnd He).
  - done.
  - done.
Qed.

(** X8. The status [denied] is never stored: in every reachable queue each
    entry is pending or approved, and a denial is the absence of the entry. *)
Theorem reachable_never_denied (calls : list (Z * Call)) (now0 : Z) (ttlMs : option Z) :
  ∀ k e, entries (runs calls (ApprovalQueue.new now0 ttlMs)) !! k = Some e →
         status e = pending ∨ status e = approved.
Proof.
  assert (∀ q, no_denied q → no_denied (runs calls q)) as Hstep.
  { induction calls as [|c calls IH]; intros q Hq; [done|].
    rewrite runs_cons. by apply IH, no_denied_run. }
  intros k e He.
  pose proof (map_Forall_lookup_1 _ _ _ _ (Hstep _ (map_Forall_empty _)) He) as Hnd.
  simpl in Hnd. destruct (status e); tauto.
Qed.

Lemma expires_within_run (t now : Z) (c : Call) (q : ApprovalQueue.t) :
  t ≤ now → expires_within t q → expires_within now (run now c q).
Proof.
  intros Ht Hq k e'. rewrite run_ttl.
  intros [He|[(_ & s & m & meth & -> & ->)|(e & He & -> & _)]]%run_lookup_inv; simpl.
  - pose proof (map_Forall_lookup_1 _ _ _ _ Hq He) as Hb. simpl in Hb. lia.
  - lia.
  - lia.
Qed.

Lemma expires_within_runs (t : Z) (calls : list (Z * Call)) (q : ApprovalQueue.t) :
  clock_monotone t calls → expires_within t q →
  expires_within (last_instant t calls) (runs calls q).
Proof.
  revert t q. induction calls as [|c calls IH]; intros t q Hmono Hq; [done|].
  destruct Hmono as [Ht Hmono]. rewrite runs_cons.
  change (last_instant t (c :: calls)) with (last_instant c.1 calls).
  apply IH; [done|]. by apply (expires_within_run t).
Qed.

(** X9. When the clock does not go back, no entry of a reachable queue
    expires later than one TTL after the last call; so once the queue has been
    left alone for one TTL, no approval can be consumed from it, by [consume]
    or by [consumePending], and no session has a pending entry. *)
Theorem idle_queue_is_dead (calls : list (Z * Call)) (now0 : Z) (ttlMs : option Z) :
  clock_monotone now0 calls →
  let q := runs calls (ApprovalQueue.new now0 ttlMs) in
  let last := last_instant now0 calls in
  (∀ k e, entries q !! k = Some e → expiresAt e ≤ last + ttl q) ∧
  (∀ t s m meth, last + ttl q ≤ t →
     consume t s m meth q = (false, q) ∧
     consumePending t s m meth q = (false, q) ∧
     hasPending t s q = false).
Proof.
  intros Hmono q last.
  assert (expires_within last q) as Hq.
  { apply expires_within_runs; [done|]. apply map_Forall_empty. }
  split.
  - intros k e He. exact (map_Forall_lookup_1 _ _ _ _ Hq He).
  - intros t s m meth Ht.
    assert (∀ k e, entries q !! k = Some e → ¬ t < expiresAt e) as Hdead.
    { intros k e He. pose proof (map_Forall_lookup_1 _ _ _ _ Hq He) as Hb.
      simpl in Hb. lia. }
    split; [|split].
    + pose proof (consume_state t s m meth q) as Hs.
      destruct (consume t s m meth q) as [b q'] eqn:Hc. simpl in Hs.
      destruct b; [|by subst]. exfalso.
      assert ((consume t s m meth q).1 = true) as Hb by by rewrite Hc.
      apply consume_true in Hb as (e & He & _ & Hlive). by apply (Hdead _ e He).
    + pose proof (consumePending_state t s m meth q) as Hs.
      destruct (consumePending t s m meth q) as [b q'] eqn:Hc. simpl in Hs.
      destruct b; [|by subst]. exfalso.
      assert ((consumePending t s m meth q).1 = true) as Hb by by rewrite Hc.
      apply consumePending_true in Hb as (e & He & _ & Hlive & _).
      by apply (Hdead _ e He).
    + apply not_true_iff_false. rewrite hasPending_true.
      intros (k & e & He & _ & _ & Hlive). by apply (Hdead k e He).
Qed.

Lemma idle_queue_is_dead_witness :
  let q := runs [(1000, CallRequest "s" "Shell" "bash"); (2000, CallApprove "s")]
                (ApprovalQueue.new 0 None) in
  entries q !! "s::Shell.bash" = Some (mkEntry "s" "Shell" "bash" approved 1000 122000) ∧
  consume 122000 "s" "Shell" "bash" q = (false, q).
Proof.
  intros q. split; [vm_compute; reflexivity|].
  destruct (idle_queue_is_dead
              [(1000, CallRequest "s" "Shell" "bash"); (2000, CallApprove "s")] 0 None)
    as [_ Hdead].
  - simpl. lia.
  - apply (Hdead 122000 "s" "Shell" "bash"). vm_compute. discriminate.
Defined.

(** X10. Only a [request], made directly or by a judgment in Channel mode,
    can add a key to the map of entries, and it adds at most the key of its
    own operation; no call changes the TTL of the queue. *)
Theorem only_request_adds_keys (now : Z) (c : Call) (q : ApprovalQueue.t) :
  dom (entries (run now c q)) ⊆
    dom (entries q) ∪ from_option (λ k, {[k]}) (∅ : gset string) (armed_key c) ∧
  (size (entries (run now c q)) ≤ S (size (entries q)))%nat ∧
  ttl (run now c q) = ttl q.
Proof.
  assert (dom (entries (run now c q)) ⊆
    dom (entries q) ∪ from_option (λ k, {[k]}) (∅ : gset string) (armed_key c)) as Hdom.
  { intros k [e' He']%elem_of_dom.
    apply run_lookup_inv in He' as [He|[(Hk & _)|(e & He & _)]].
    - apply elem_of_union_l, elem_of_dom. eauto.
    - apply elem_of_union_r. rewrite Hk. simpl. by apply elem_of_singleton.
    - apply elem_of_union_l, elem_of_dom. eauto. }
  split; [done|]. split; [|apply run_ttl].
  rewrite <- !size_dom.
  pose proof (subseteq_size _ _ Hdom) as Hsize. rewrite size_union_alt in Hsize.
  assert (size (from_option (λ k, {[k]}) (∅ : gset string) (armed_key c)
                ∖ dom (entries q)) ≤ 1)%nat as Hone; [|lia].
  destruct (armed_key c) as [k|]; simpl.
  - rewrite <- (size_singleton (C := gset string) k).
    apply subseteq_size. by apply subseteq_difference_l.
  - rewrite (subseteq_empty_difference_L (C := gset string)) by done.
    rewrite size_empty. lia.
Qed.

(* ===================================================================== *)
(** * Composite keys *)
(* ===================================================================== *)

Lemma append_inj_l (a x y : string) : a +:+ x = a +:+ y → x = y.
Proof.
  induction a as [|c a IH]; [done|].
  intros Heq. apply IH. by injection Heq.
Qed.

Lemma append_split_char (c : ascii) (a b x y : string) :
  occurs c a = false → occurs c b = false →
  a +:+ String c x = b +:+ String c y → a = b ∧ x = y.
Proof.
  revert b. induction a as [|d a IH]; intros [|d' b]; simpl.
  - intros _ _ [= <-]. done.
  - intros _ [Hd _]%orb_false_iff [= <- _]. by rewrite bool_decide_eq_true_2 in Hd.
  - intros [Hd _]%orb_false_iff _ [= -> _]. by rewrite bool_decide_eq_true_2 in Hd.
  - intros [_ Ha]%orb_false_iff [_ Hb]%orb_false_iff [= <- Heq].
    destruct (IH b Ha Hb Heq) as [-> ->]. done.
Qed.

(** X11. Within one session two operations share a composite key only when
    they are the same operation, provided the module names contain no dot;
    and two sessions whose keys contain no colon never share a key.  The
    module names the hook produces, those of [TOOL_TO_MODULE] and [Unknown],
    contain no dot. *)
Theorem key_injective (s s' m m' meth meth' : string) :
  occurs "." m = false → occurs "." m' = false →
  (key s m meth = key s m' meth' → m = m' ∧ meth = meth') ∧
  (occurs ":" s = false → occurs ":" s' = false →
   key s m meth = key s' m' meth' → s = s' ∧ m = m' ∧ meth = meth') ∧
  map_Forall (λ _ mm, occurs "." mm.1 = false) ToolCallHook.TOOL_TO_MODULE ∧
  occurs "." "Unknown" = false.
Proof.
  intros Hm Hm'.
  assert (key s m meth = key s m' meth' → m = m' ∧ meth = meth') as Hsame.
  { unfold key. intros Heq%append_inj_l.
    apply (append_inj_l "::") in Heq.
    by apply (append_split_char "." m m' meth meth'). }
  split; [done|]. split; [|split; [|done]].
  - intros Hs Hs' Heq.
    assert (s = s') as <-.
    { unfold key in Heq.
      by apply (append_split_char ":" s s') in Heq as [? _]. }
    by destruct (Hsame Heq).
  - apply (bool_decide_unpack _). vm_compute. exact I.
Qed.

Lemma key_injective_witness :
  occurs "." "Shell" = false ∧
  (key "a" "Shell" "bash" = key "a" "Shell" "bash" → "Shell" = "Shell" ∧ "bash" = "bash") ∧
  (occurs ":" "a" = false → occurs ":" "b" = false →
   key "a" "Shell" "bash" = key "b" "Shell" "bash" →
   "a" = "b" ∧ "Shell" = "Shell" ∧ "bash" = "bash").
Proof.
  split; [reflexivity|].
  destruct (key_injective "a" "b" "Shell" "Shell" "bash" "bash") as (Hsame & Hother & _);
    [reflexivity..|].
  split; [exact Hsame | exact Hother].
Defined.

(* ===================================================================== *)
(** * The interceptor, continued *)
(* ===================================================================== *)

Lemma evaluate_unfold (this : Interceptor.t) (env : Env) (m meth : string)
    (args : list string) (sk : option string) (q : ApprovalQueue.t) :
  evaluate this env m meth args sk q =
    match action (lookupRule this m meth) with
    | ALLOW => (Resolved, q)
    | DENY => (Thrown (blocked_message this env m meth sk), q)
    | ASK =>
        let j := judge env (mkContext m meth args (lookupRule this m meth) sk) q in
        (if j.1 then Resolved else Thrown (blocked_message this env m meth sk), j.2)
    | UNDEFINED => (Thrown "Unknown decision type: undefined", q)
    end.
Proof.
  unfold evaluate, executeDecision, blocked_message.
  destruct (action (lookupRule this m meth)); try done.
  - by destruct (negb (stdinIsTTY env) && truthy sk).
  - destruct (judge env _ q) as [b q']. simpl. destruct b; [done|].
    by destruct (negb (stdinIsTTY env) && truthy sk).
Qed.

(** X12. A rule that says ALLOW or DENY is final: the evaluation resolves,
    respectively throws, whatever the terminal, the session and the queue
    hold, and the queue is not touched; no approved entry and no blanket allow
    overrides a DENY.  In Channel mode the error of a DENY is the approval
    prompt, with its retry instructions. *)
Theorem static_rules_bypass_queue (this : Interceptor.t) (env : Env) (m meth : string)
    (args : list string) (sk : option string) (q : ApprovalQueue.t) :
  (action (lookupRule this m meth) = ALLOW →
   evaluate this env m meth args sk q = (Resolved, q)) ∧
  (action (lookupRule this m meth) = DENY →
   evaluate this env m meth args sk q = (Thrown (blocked_message this env m meth sk), q) ∧
   (stdinIsTTY env = false → truthy sk = true →
    String.prefix "[ClawBands:APPROVAL_REQUIRED] " (blocked_message this env m meth sk)
    = true)).
Proof.
  rewrite evaluate_unfold. split; intros ->; [done|]. split; [done|].
  intros Htty Hsk. unfold blocked_message. rewrite Htty, Hsk. simpl.
  apply (prefix_app_r "[ClawBands:APPROVAL_REQUIRED] ").
Qed.

Lemma static_rules_bypass_queue_witness :
  let q := (approve 2000 "s" (request 1000 "s" "FileSystem" "delete"
                                (ApprovalQueue.new 0 None)).2).2 in
  evaluate (new_Interceptor None None) (mkEnv false true 3000) "FileSystem" "read" []
           (Some "s") q = (Resolved, q) ∧
  (evaluate (new_Interceptor None None) (mkEnv false true 3000) "FileSystem" "delete" []
            (Some "s") q).2 = q.
Proof.
  intros q.
  destruct (static_rules_bypass_queue (new_Interceptor None None) (mkEnv false true 3000)
              "FileSystem" "read" [] (Some "s") q) as [Hallow _].
  destruct (static_rules_bypass_queue (new_Interceptor None None) (mkEnv false true 3000)
              "FileSystem" "delete" [] (Some "s") q) as [_ Hdeny].
  split.
  - apply Hallow. vm_compute. reflexivity.
  - destruct Hdeny as [-> _]; [vm_compute; reflexivity | done].
Defined.

(** X13. With an interactive terminal the queue is never read or written:
    an ASK rule is decided by the prompt alone, whatever approvals, pending
    entries or session key there are; and a value without an action, returned
    by the lookup in place of a rule, makes the evaluation throw the error of
    the [default:] branch. *)
Theorem tty_never_touches_queue (this : Interceptor.t) (env : Env) (m meth : string)
    (args : list string) (sk : option string) (q : ApprovalQueue.t) :
  stdinIsTTY env = true →
  evaluate this env m meth args sk q =
    (match action (lookupRule this m meth) with
     | UNDEFINED => Thrown "Unknown decision type: undefined"
     | decision =>
         if match decision with
            | ALLOW => true
            | ASK => promptDecision env
            | _ => false
            end
         then Resolved
         else Thrown ("ClawBands Security Violation: " +:+ m +:+ "." +:+ meth +:+
                      "() was DENIED. " +:+ detail (lookupRule this m meth))
     end,
     q).
Proof.
  intros Htty. rewrite evaluate_unfold. unfold blocked_message, judge, judgeTTY.
  rewrite Htty. simpl. by destruct (action (lookupRule this m meth)).
Qed.

Lemma tty_never_touches_queue_witness :
  let q := (approve 2000 "s" (request 1000 "s" "Shell" "bash" (ApprovalQueue.new 0 None)).2).2 in
  evaluate (new_Interceptor None None) (mkEnv true false 3000) "Shell" "bash" [] (Some "s") q
  = (Thrown "ClawBands Security Violation: Shell.bash() was DENIED. Shell command execution risk",
     q).
Proof.
  intros q.
  apply (tty_never_touches_queue (new_Interceptor None None) (mkEnv true false 3000)
           "Shell" "bash" [] (Some "s") q).
  reflexivity.
Defined.

(* ===================================================================== *)
(** * Channel mode, call after call *)
(* ===================================================================== *)

Lemma evaluate_channel_ask (this : Interceptor.t) (p : bool) (t : Z) (m meth : string)
    (args : list string) (s : string) (q : ApprovalQueue.t) :
  s ≠ "" → action (lookupRule this m meth) = ASK →
  evaluate this (mkEnv false p t) m meth args (Some s) q =
    if (consume t s m meth q).1 then (Resolved, (consume t s m meth q).2)
    else if (consumePending t s m meth q).1 then (Resolved, (consumePending t s m meth q).2)
    else (Thrown (blocked_message this (mkEnv false p t) m meth (Some s)),
          (request t s m meth q).2).
Proof.
  intros Hs Hask. rewrite evaluate_unfold, Hask. cbv zeta.
  rewrite (judge_channel _ _ s) by done.
  rewrite judgeChannel_unfold. cbv zeta. simpl.
  by repeat case_match.
Qed.

(** A blocked call is one that found nothing to consume; it arms a fresh
    pending entry. *)
Lemma channel_blocked (this : Interceptor.t) (p : bool) (t : Z) (m meth : string)
    (args : list string) (s : string) (q : ApprovalQueue.t) :
  s ≠ "" → action (lookupRule this m meth) = ASK →
  (consume t s m meth q).1 = false → (consumePending t s m meth q).1 = false →
  evaluate this (mkEnv false p t) m meth args (Some s) q
    = (Thrown (blocked_message this (mkEnv false p t) m meth (Some s)),
       (request t s m meth q).2) ∧
  entries (request t s m meth q).2 !! key s m meth
    = Some (mkEntry s m meth pending t (t + ttl q)).
Proof.
  intros Hs Hask Ha Hb. rewrite evaluate_channel_ask, Ha, Hb by done.
  split; [done|].
  rewrite request_fresh; [simpl; apply lookup_insert_eq|].
  intros e He Hlive.
  assert ((consumePending t s m meth q).1 = true); [|congruence].
  apply consumePending_true. exists e. tauto.
Qed.

Lemma channel_blocked_inv (this : Interceptor.t) (p : bool) (t : Z) (m meth : string)
    (args : list string) (s : string) (q : ApprovalQueue.t) :
  s ≠ "" → action (lookupRule this m meth) = ASK →
  (evaluate this (mkEnv false p t) m meth args (Some s) q).1 ≠ Resolved →
  (consume t s m meth q).1 = false ∧ (consumePending t s m meth q).1 = false.
Proof.
  intros Hs Hask. rewrite evaluate_channel_ask by done.
  destruct (consume t s m meth q).1; [done|].
  by destruct (consumePending t s m meth q).1.
Qed.

(** A call that finds a live approved entry, or a live pending entry inside
    the retry window, resolves and removes that entry. *)
Lemma channel_resolved (this : Interceptor.t) (p : bool) (t : Z) (m meth : string)
    (args : list string) (s : string) (q : ApprovalQueue.t) (e : ApprovalEntry) :
  s ≠ "" → action (lookupRule this m meth) = ASK →
  entries q !! key s m meth = Some e → t < expiresAt e →
  status e = approved ∨ (status e = pending ∧ t - createdAt e ≤ CONSUME_MAX_AGE_MS) →
  evaluate this (mkEnv false p t) m meth args (Some s) q
    = (Resolved, with_entries q (delete (key s m meth) (entries q))).
Proof.
  intros Hs Hask He Hlive Hst. rewrite evaluate_channel_ask by done.
  destruct Hst as [Happ|[Hpend Hage]].
  - assert ((consume t s m meth q).1 = true) as Ha by (apply consume_true; eauto).
    by rewrite consume_state, Ha.
  - assert ((consume t s m meth q).1 = false) as Ha.
    { apply not_true_iff_false. rewrite consume_true.
      intros (e' & He' & Happ & _). congruence. }
    assert ((consumePending t s m meth q).1 = true) as Hb
      by (apply consumePending_true; eauto).
    by rewrite Ha, consumePending_state, Hb.
Qed.

(** A call that finds no entry, an expired entry or a stale pending entry is
    blocked. *)
Lemma channel_nothing_to_consume (t : Z) (s m meth : string) (q : ApprovalQueue.t) :
  (∀ e, entries q !! key s m meth = Some e →
        expiresAt e ≤ t ∨ (status e = pending ∧ CONSUME_MAX_AGE_MS < t - createdAt e)) →
  (consume t s m meth q).1 = false ∧ (consumePending t s m meth q).1 = false.
Proof.
  intros Hno. split; apply not_true_iff_false.
  - rewrite consume_true. intros (e & He & Happ & Hlive).
    destruct (Hno e He) as [?|[? _]]; [lia|congruence].
  - rewrite consumePending_true. intros (e & He & _ & Hlive & Hage).
    destruct (Hno e He) as [?|[_ ?]]; lia.
Qed.

(** X14. Retry-as-approval.  When an ASK-ruled call is blocked in Channel
    mode it arms a pending entry, and the same call made again is approved
    if it comes within 60 s and before the entry expires, with no reply from
    the user in between; made later it is blocked again and arms a new
    entry. *)
Theorem retry_as_approval (this : Interceptor.t) (p : bool) (t0 : Z) (m meth : string)
    (args : list string) (s : string) (q : ApprovalQueue.t) :
  s ≠ "" → action (lookupRule this m meth) = ASK →
  (evaluate this (mkEnv false p t0) m meth args (Some s) q).1 ≠ Resolved →
  let q1 := (evaluate this (mkEnv false p t0) m meth args (Some s) q).2 in
  entries q1 !! key s m meth = Some (mkEntry s m meth pending t0 (t0 + ttl q)) ∧
  (∀ p' t1, t1 - t0 ≤ CONSUME_MAX_AGE_MS → t1 < t0 + ttl q →
     evaluate this (mkEnv false p' t1) m meth args (Some s) q1
       = (Resolved, with_entries q1 (delete (key s m meth) (entries q1)))) ∧
  (∀ p' t1, CONSUME_MAX_AGE_MS < t1 - t0 ∨ t0 + ttl q ≤ t1 →
     (evaluate this (mkEnv false p' t1) m meth args (Some s) q1).1 ≠ Resolved ∧
     entries (evaluate this (mkEnv false p' t1) m meth args (Some s) q1).2 !! key s m meth
       = Some (mkEntry s m meth pending t1 (t1 + ttl q))).
Proof.
  intros Hs Hask Hblocked q1.
  destruct (channel_blocked_inv this p t0 m meth args s q Hs Hask Hblocked) as [Ha Hb].
  destruct (channel_blocked this p t0 m meth args s q Hs Hask Ha Hb) as [Heval He1].
  assert (q1 = (request t0 s m meth q).2) as Hq1 by (unfold q1; by rewrite Heval).
  assert (ttl q1 = ttl q) as Httl by (rewrite Hq1; apply request_ttl).
  rewrite <- Hq1 in He1.
  split; [done|]. split.
  - intros p' t1 Hage Hlive.
    apply (channel_resolved this p' t1 m meth args s q1 _ Hs Hask He1); simpl; [done|].
    right. done.
  - intros p' t1 Hlate.
    destruct (channel_nothing_to_consume t1 s m meth q1) as [Ha' Hb'].
    { intros e He. assert (e = mkEntry s m meth pending t0 (t0 + ttl q)) as -> by congruence.
      simpl. destruct Hlate; [right|left]; done. }
    destruct (channel_blocked this p' t1 m meth args s q1 Hs Hask Ha' Hb') as [-> Hfresh].
    split; [done|]. simpl. by rewrite Hfresh, Httl.
Qed.

Lemma retry_as_approval_witness :
  let this := new_Interceptor None None in
  let q1 := (evaluate this (mkEnv false false 1000) "Shell" "bash" [] (Some "s")
                      (ApprovalQueue.new 0 None)).2 in
  (evaluate this (mkEnv false false 31000) "Shell" "bash" [] (Some "s") q1).1 = Resolved.
Proof.
  intros this q1.
  destruct (retry_as_approval this false 1000 "Shell" "bash" [] "s" (ApprovalQueue.new 0 None))
    as (_ & Hretry & _).
  - discriminate.
  - vm_compute. reflexivity.
  - vm_compute. discriminate.
  - fold q1 in Hretry. rewrite (Hretry false 31000); [done| |].
    + unfold CONSUME_MAX_AGE_MS. lia.
    + simpl. unfold DEFAULT_TTL_MS. lia.
Defined.

(* ===================================================================== *)
(** * Replies through [clawbands_respond] *)
(* ===================================================================== *)

Lemma handleRespondTool_yes (now : Z) (s : string) (q : ApprovalQueue.t) :
  s ≠ "" → hasPending now s q = true →
  handleRespondTool now "yes" (Some s) q
  = (mkResult true "Approved. Retry the blocked tool.", (approve now s q).2).
Proof.
  intros Hs Hp. unfold handleRespondTool.
  destruct (String.eqb_spec s ""); [done|]. simpl. rewrite Hp. simpl.
  by destruct (approve now s q).
Qed.

Lemma handleRespondTool_no (now : Z) (s : string) (q : ApprovalQueue.t) :
  s ≠ "" →
  handleRespondTool now "no" (Some s) q
  = (mkResult true "Denied. Do NOT retry the blocked tool.", (deny now s q).2).
Proof.
  intros Hs. unfold handleRespondTool.
  destruct (String.eqb_spec s ""); [done|]. simpl.
  by destruct (deny now s q).
Qed.

(** X15. The explicit YES.  After a blocked call, a [yes] reply made before
    the pending entry expires is answered "Approved", the retry made within
    one TTL of the reply resolves, and the approval is used up: the same call
    made once more, at any time, is blocked again. *)
Theorem yes_reply_approves_once (this : Interceptor.t) (p : bool) (t0 t1 t2 : Z)
    (m meth : string) (args : list string) (s : string) (q : ApprovalQueue.t) :
  s ≠ "" → action (lookupRule this m meth) = ASK →
  (evaluate this (mkEnv false p t0) m meth args (Some s) q).1 ≠ Resolved →
  t1 < t0 + ttl q → t2 < t1 + ttl q →
  let q1 := (evaluate this (mkEnv false p t0) m meth args (Some s) q).2 in
  let r := handleRespondTool t1 "yes" (Some s) q1 in
  let retry := evaluate this (mkEnv false p t2) m meth args (Some s) r.2 in
  r.1 = mkResult true "Approved. Retry the blocked tool." ∧
  retry.1 = Resolved ∧
  entries retry.2 !! key s m meth = None ∧
  (∀ t3, (evaluate this (mkEnv false p t3) m meth args (Some s) retry.2).1 ≠ Resolved).
Proof.
  intros Hs Hask Hblocked Ht1 Ht2 q1 r retry.
  destruct (channel_blocked_inv this p t0 m meth args s q Hs Hask Hblocked) as [Ha Hb].
  destruct (channel_blocked this p t0 m meth args s q Hs Hask Ha Hb) as [Heval He1].
  assert (q1 = (request t0 s m meth q).2) as Hq1 by (unfold q1; by rewrite Heval).
  assert (ttl q1 = ttl q) as Httl by (rewrite Hq1; apply request_ttl).
  rewrite <- Hq1 in He1.
  assert (hasPending t1 s q1 = true) as Hpending.
  { apply hasPending_true. eexists _, _. split; [exact He1|].
    split; [apply prefix_key|]. simpl. done. }
  assert (r = (mkResult true "Approved. Retry the blocked tool.", (approve t1 s q1).2)) as Hr
    by by apply handleRespondTool_yes.
  assert (entries r.2 !! key s m meth
          = Some (approved_at t1 (ttl q) (mkEntry s m meth pending t0 (t0 + ttl q)))) as He2.
  { rewrite Hr. simpl. rewrite approve_lookup, prefix_key, Httl.
    rewrite (maybeCleanup_lookup_live t1 q1 _ _ He1) by done. simpl.
    unfold approve_entry.
    by assert (live_pending t1 (mkEntry s m meth pending t0 (t0 + ttl q)) = true) as ->
      by (by apply live_pending_true). }
  assert (retry = (Resolved, with_entries r.2 (delete (key s m meth) (entries r.2)))) as Hretry.
  { apply (channel_resolved this p t2 m meth args s r.2 _ Hs Hask He2); simpl; [done|].
    by left. }
  split; [by rewrite Hr|]. split; [by rewrite Hretry|].
  assert (entries retry.2 !! key s m meth = None) as Hgone
    by (rewrite Hretry; simpl; apply lookup_delete_eq).
  split; [done|].
  intros t3.
  destruct (channel_nothing_to_consume t3 s m meth retry.2) as [Ha' Hb'].
  { intros e He. congruence. }
  by destruct (channel_blocked this p t3 m meth args s retry.2 Hs Hask Ha' Hb') as [-> _].
Qed.

Lemma yes_reply_approves_once_witness :
  let this := new_Interceptor None None in
  let q1 := (evaluate this (mkEnv false false 1000) "Shell" "bash" [] (Some "s")
                      (ApprovalQueue.new 0 None)).2 in
  let r := handleRespondTool 100000 "yes" (Some "s") q1 in
  (evaluate this (mkEnv false false 200000) "Shell" "bash" [] (Some "s") r.2).1 = Resolved.
Proof.
  intros this q1 r.
  destruct (yes_reply_approves_once this false 1000 100000 200000 "Shell" "bash" [] "s"
              (ApprovalQueue.new 0 None)) as (_ & Hretry & _).
  - discriminate.
  - vm_compute. reflexivity.
  - vm_compute. discriminate.
  - simpl. unfold DEFAULT_TTL_MS. lia.
  - simpl. unfold DEFAULT_TTL_MS. lia.
  - exact Hretry.
Defined.

(** X16. The explicit NO.  After a blocked call, a [no] reply is answered
    "Denied" and removes the pending entry, so the next call of the operation
    is blocked; that call arms a new pending entry, and the call after it,
    made within 60 s and before the new entry expires, resolves by
    retry-as-approval. *)
Theorem no_reply_then_retries (this : Interceptor.t) (p : bool) (t0 t1 : Z)
    (m meth : string) (args : list string) (s : string) (q : ApprovalQueue.t) :
  s ≠ "" → action (lookupRule this m meth) = ASK →
  (evaluate this (mkEnv false p t0) m meth args (Some s) q).1 ≠ Resolved →
  let q1 := (evaluate this (mkEnv false p t0) m meth args (Some s) q).2 in
  let r := handleRespondTool t1 "no" (Some s) q1 in
  r.1 = mkResult true "Denied. Do NOT retry the blocked tool." ∧
  entries r.2 !! key s m meth = None ∧
  (∀ t2,
     let first := evaluate this (mkEnv false p t2) m meth args (Some s) r.2 in
     first.1 ≠ Resolved ∧
     entries first.2 !! key s m meth = Some (mkEntry s m meth pending t2 (t2 + ttl q)) ∧
     ∀ t3, t3 - t2 ≤ CONSUME_MAX_AGE_MS → t3 < t2 + ttl q →
           (evaluate this (mkEnv false p t3) m meth args (Some s) first.2).1 = Resolved).
Proof.
  intros Hs Hask Hblocked q1 r.
  destruct (channel_blocked_inv this p t0 m meth args s q Hs Hask Hblocked) as [Ha Hb].
  destruct (channel_blocked this p t0 m meth args s q Hs Hask Ha Hb) as [Heval He1].
  assert (q1 = (request t0 s m meth q).2) as Hq1 by (unfold q1; by rewrite Heval).
  assert (ttl q1 = ttl q) as Httl by (rewrite Hq1; apply request_ttl).
  rewrite <- Hq1 in He1.
  assert (r = (mkResult true "Denied. Do NOT retry the blocked tool.", (deny t1 s q1).2)) as Hr
    by by apply handleRespondTool_no.
  assert (ttl r.2 = ttl q) as Httl'.
  { rewrite Hr. simpl. rewrite <- Httl. apply deny_other_fields. }
  assert (entries r.2 !! key s m meth = None) as Hgone.
  { rewrite Hr. simpl.
    destruct (entries (deny t1 s q1).2 !! key s m meth) as [e|] eqn:He; [|done].
    pose proof (deny_lookup_inv _ _ _ _ _ He) as He'.
    assert (e = mkEntry s m meth pending t0 (t0 + ttl q)) as -> by congruence.
    rewrite deny_entries in He. apply map_lookup_filter_Some in He as [_ Hno].
    exfalso. apply Hno. simpl. by rewrite prefix_key. }
  split; [by rewrite Hr|]. split; [done|].
  intros t2 first.
  destruct (channel_nothing_to_consume t2 s m meth r.2) as [Ha' Hb'].
  { intros e He. congruence. }
  destruct (channel_blocked this p t2 m meth args s r.2 Hs Hask Ha' Hb') as [Hfirst Hfresh].
  rewrite Httl' in Hfresh.
  assert (first.2 = (request t2 s m meth r.2).2) as Hf2 by (unfold first; by rewrite Hfirst).
  split; [unfold first; by rewrite Hfirst|]. split; [by rewrite Hf2|].
  intros t3 Hage Hlive.
  rewrite <- Hf2 in Hfresh.
  by rewrite (channel_resolved this p t3 m meth args s first.2 _ Hs Hask Hfresh);
    simpl; [|done|right].
Qed.

Lemma no_reply_then_retries_witness :
  let this := new_Interceptor None None in
  let q1 := (evaluate this (mkEnv false false 1000) "Shell" "bash" [] (Some "s")
                      (ApprovalQueue.new 0 None)).2 in
  let r := handleRespondTool 2000 "no" (Some "s") q1 in
  (evaluate this (mkEnv false false 3000) "Shell" "bash" [] (Some "s") r.2).1 ≠ Resolved.
Proof.
  intros this q1 r.
  destruct (no_reply_then_retries this false 1000 2000 "Shell" "bash" [] "s"
              (ApprovalQueue.new 0 None)) as (_ & _ & Hnext).
  - discriminate.
  - vm_compute. reflexivity.
  - vm_compute. discriminate.
  - apply (Hnext 3000).
Defined.

Lemma fold_allowFor_lookup (now d : Z) (s : string) (acts : list (string * string))
    (q : ApprovalQueue.t) (k : string) :
  blanketAllows (fold_left (λ q p, allowFor now s p.1 p.2 d q) acts q) !! k =
    if decide (k ∈ map (λ p, key s p.1 p.2) acts) then Some (now + d)
    else blanketAllows q !! k.
Proof.
  revert q. induction acts as [|p acts IH]; intros q; cbn [fold_left map].
  - by rewrite decide_False by apply not_elem_of_nil.
  - rewrite IH. unfold allowFor. simpl.
    destruct (decide (k ∈ map (λ p, key s p.1 p.2) acts)) as [Hin|Hnin].
    + by rewrite decide_True by by apply list_elem_of_further.
    + destruct (decide (k = key s p.1 p.2)) as [->|Hne].
      * rewrite decide_True by apply list_elem_of_here. apply lookup_insert_eq.
      * rewrite decide_False by (rewrite elem_of_cons; tauto).
        by rewrite lookup_insert_ne.
Qed.

Lemma handleRespondTool_allow (now : Z) (s : string) (q : ApprovalQueue.t) :
  s ≠ "" → getPendingActions now s q ≠ [] →
  handleRespondTool now "allow" (Some s) q
  = (mkResult true
       ("Approved for 15 minutes: " +:+
        String.concat ", " (map (λ p, p.1 +:+ "." +:+ p.2) (getPendingActions now s q)) +:+
        ". Retry the blocked tool."),
     (approve now s
        (fold_left (λ q p, allowFor now s p.1 p.2 (15 * 60 * 1000) q)
                   (getPendingActions now s q) q)).2).
Proof.
  intros Hs Hp. unfold handleRespondTool.
  destruct (String.eqb_spec s ""); [done|]. simpl.
  destruct (getPendingActions now s q) as [|a acts] eqn:Hacts; [done|].
  cbv zeta. by destruct (approve now s _).
Qed.

(** X17. The ALLOW reply.  When the session has pending actions, an [allow]
    reply approves the pending entries exactly as [approve] does, and for
    each pending action installs a blanket allow that [hasBlanketAllow]
    reports until 15 minutes after the reply.  The reply names the pending
    actions; the order in which it names them is the order of the [Map],
    which the embedding does not represent, so the text is stated up to that
    order, and exactly when one action is pending. *)
Theorem allow_reply_grants (now : Z) (s : string) (q : ApprovalQueue.t) :
  s ≠ "" → getPendingActions now s q ≠ [] → 0 ≤ now →
  let r := handleRespondTool now "allow" (Some s) q in
  block r.1 = true ∧
  (∃ listed,
     listed ≡ₚ getPendingActions now s q ∧
     blockReason r.1 =
       "Approved for 15 minutes: " +:+
       String.concat ", " (map (λ p, p.1 +:+ "." +:+ p.2) listed) +:+
       ". Retry the blocked tool.") ∧
  (∀ m meth, getPendingActions now s q = [(m, meth)] →
     blockReason r.1 =
       "Approved for 15 minutes: " +:+ (m +:+ "." +:+ meth) +:+ ". Retry the blocked tool.") ∧
  entries r.2 = entries (approve now s q).2 ∧
  (∀ m meth t, (m, meth) ∈ getPendingActions now s q → t < now + 900000 →
               hasBlanketAllow t s m meth r.2 = (true, r.2)).
Proof.
  intros Hs Hp Hnow r. unfold r. rewrite handleRespondTool_allow by done.
  split; [done|]. split; [by exists (getPendingActions now s q)|].
  split; [by intros m meth ->|]. cbn [fst snd].
  destruct (fold_allowFor now (15 * 60 * 1000) s (getPendingActions now s q) q) as [b Hb].
  split.
  - rewrite Hb. apply approve_entries_blanketAllows.
  - intros m meth t Hin Ht.
    set (qb := fold_left _ (getPendingActions now s q) q).
    assert (blanketAllows (approve now s qb).2 !! key s m meth = Some (now + 900000)) as Hk.
    { rewrite (proj1 (approve_other_fields now s qb)).
      assert (blanketAllows qb !! key s m meth = Some (now + 900000)) as Hqb.
      { unfold qb. rewrite fold_allowFor_lookup, decide_True; [done|].
        apply list_elem_of_fmap. by exists (m, meth). }
      unfold maybeCleanup. case_match; [|done].
      unfold cleanup; simpl. apply map_lookup_filter_Some. split; [done|]. simpl. lia. }
    unfold hasBlanketAllow. rewrite Hk.
    assert ((now + 900000 =? 0) = false) as -> by lia.
    by assert ((now + 900000 <=? t) = false) as -> by lia.
Qed.

Lemma allow_reply_grants_witness :
  let q1 := (request 1000 "s" "Network" "fetch" (ApprovalQueue.new 0 None)).2 in
  let q2 := (request 1500 "s" "Shell" "bash" q1).2 in
  let r1 := handleRespondTool 2000 "allow" (Some "s") q1 in
  let r2 := handleRespondTool 2000 "allow" (Some "s") q2 in
  (blockReason r1.1 = "Approved for 15 minutes: Network.fetch. Retry the blocked tool." ∧
   hasBlanketAllow 901999 "s" "Network" "fetch" r1.2 = (true, r1.2)) ∧
  ((∃ listed,
      listed ≡ₚ [("Network", "fetch"); ("Shell", "bash")] ∧
      blockReason r2.1 =
        "Approved for 15 minutes: " +:+
        String.concat ", " (map (λ p, p.1 +:+ "." +:+ p.2) listed) +:+
        ". Retry the blocked tool.") ∧
   hasBlanketAllow 901999 "s" "Network" "fetch" r2.2 = (true, r2.2) ∧
   hasBlanketAllow 901999 "s" "Shell" "bash" r2.2 = (true, r2.2)).
Proof.
  intros q1 q2 r1 r2. split.
  - assert (getPendingActions 2000 "s" q1 = [("Network", "fetch")]) as Hacts
      by (vm_compute; reflexivity).
    destruct (allow_reply_grants 2000 "s" q1) as (_ & _ & Hreason & _ & Hallow).
    + discriminate.
    + by rewrite Hacts.
    + lia.
    + split.
      * apply (Hreason "Network" "fetch" Hacts).
      * apply Hallow; [|lia]. rewrite Hacts. apply list_elem_of_here.
  - assert (getPendingActions 2000 "s" q2 = [("Shell", "bash"); ("Network", "fetch")])
      as Hacts by (vm_compute; reflexivity).
    destruct (allow_reply_grants 2000 "s" q2) as (_ & (listed & Hperm & Hreason) & _ & _ & Hallow).
    + discriminate.
    + rewrite Hacts. discriminate.
    + lia.
    + split; [|split].
      * exists listed. split; [|exact Hreason].
        rewrite Hacts in Hperm. exact (Permutation_trans Hperm (perm_swap _ _ [])).
      * apply Hallow; [|lia]. rewrite Hacts. apply list_elem_of_further, list_elem_of_here.
      * apply Hallow; [|lia]. rewrite Hacts. apply list_elem_of_here.
Defined.

(** X18. The reply tool is a control signal: [handleRespondTool] always
    blocks the call, never adds a key to the queue, and leaves the queue as
    it is when there is no usable session key, when the decision is not
    [yes], [no] or [allow], and when a [yes] or an [allow] finds nothing
    pending. *)
Theorem respond_tool_is_control_only (now : Z) (decision : string) (sk : option string)
    (q : ApprovalQueue.t) :
  block (handleRespondTool now decision sk q).1 = true ∧
  dom (entries (handleRespondTool now decision sk q).2) ⊆ dom (entries q) ∧
  (truthy sk = false → (handleRespondTool now decision sk q).2 = q) ∧
  (decision ≠ "yes" → decision ≠ "no" → decision ≠ "allow" →
   (handleRespondTool now decision sk q).2 = q) ∧
  (∀ s, sk = Some s → hasPending now s q = false → decision ≠ "no" →
        (handleRespondTool now decision sk q).2 = q).
Proof.
  split; [|split; [|split; [|split]]].
  - unfold handleRespondTool. repeat case_match; done.
  - intros k [e He]%elem_of_dom. apply elem_of_dom.
    pose proof (run_lookup_inv now (CallRespond decision sk) q k e He)
      as [?|[(Hk & _)|(e0 & ? & _)]]; eauto. done.
  - unfold handleRespondTool, truthy. destruct sk as [s|]; [|done].
    destruct (String.eqb s ""); [done|]. done.
  - intros Hy Hn Ha. unfold handleRespondTool. destruct sk as [s|]; [|done].
    destruct (String.eqb s ""); [done|].
    destruct (String.eqb_spec decision "yes"); [done|].
    destruct (String.eqb_spec decision "no"); [done|].
    by destruct (String.eqb_spec decision "allow").
  - intros s -> Hnone Hno. unfold handleRespondTool.
    destruct (String.eqb s ""); [done|].
    destruct (String.eqb decision "yes"); [by rewrite Hnone|].
    destruct (String.eqb_spec decision "no"); [done|].
    destruct (String.eqb decision "allow"); [|done].
    assert (getPendingActions now s q = []) as ->; [|done].
    destruct (getPendingActions now s q) as [|a acts] eqn:Hacts; [done|].
    exfalso. apply not_true_iff_false in Hnone. apply Hnone.
    apply hasPending_true.
    assert (length (getPendingActions now s q) ≠ 0%nat) as Hlen by by rewrite Hacts.
    rewrite getPendingActions_length in Hlen.
    apply map_size_ne_0_lookup_1 in Hlen as (k & e & Hke).
    apply map_lookup_filter_Some in Hke as (He & Hp & Hl). simpl in *.
    apply live_pending_true in Hl. exists k, e. tauto.
Qed.

(* ===================================================================== *)
(** * The [before_tool_call] hook *)
(* ===================================================================== *)

(** The modules the hook evaluates, those of the table and [Unknown], are
    not names of members of [Object.prototype]. *)
Lemma hook_module_not_inherited (name : string) :
  JS.inherited (from_option fst "Unknown" (ToolCallHook.TOOL_TO_MODULE !! name)) = false.
Proof.
  assert (map_Forall (λ _ mm, JS.inherited mm.1 = false) ToolCallHook.TOOL_TO_MODULE) as Hall.
  { apply (bool_decide_unpack _). vm_compute. exact I. }
  destruct (ToolCallHook.TOOL_TO_MODULE !! name) as [mm|] eqn:Hmm; [|reflexivity].
  exact (Hall _ _ Hmm).
Qed.

(** X19. The hook never lets [clawbands_respond] through, whatever the
    policy says; every result it returns with a reason blocks the call; a
    tool for which the policy has no rule, mapped by the table or filed under
    [Unknown], follows the default action when the lookup does not meet a
    member of [Object.prototype]: it passes under ALLOW and is blocked under
    DENY; and when the policy has rules for the module, none of them for the
    tool, and the tool is named like a member of [Object.prototype], the call
    is blocked with the error of the [default:] branch, whatever the default
    action.  The queue is left as it is in these cases. *)
Theorem hook_verdicts (toLowerCase : string → string) (this : Interceptor.t) (env : Env)
    (toolName decision : string) (args : list string) (sk : option string)
    (q : ApprovalQueue.t) :
  let hook := ToolCallHook.createToolCallHook toLowerCase this env toolName decision args sk q in
  let mapping := ToolCallHook.TOOL_TO_MODULE !! toLowerCase toolName in
  let M := from_option fst "Unknown" mapping in
  let m := from_option snd toolName mapping in
  (toolName = "clawbands_respond" →
   hook = (Some (handleRespondTool (dateNow env) decision sk q).1,
           (handleRespondTool (dateNow env) decision sk q).2) ∧
   block (handleRespondTool (dateNow env) decision sk q).1 = true) ∧
  (∀ r, hook.1 = Some r → block r = true) ∧
  (toolName ≠ "clawbands_respond" →
   modules (policy this) !! M ≫= (λ moduleRules, moduleRules !! m) = None →
   (is_Some (modules (policy this) !! M) → JS.inherited m = false) →
   (defaultAction (policy this) = ALLOW → hook = (None, q)) ∧
   (defaultAction (policy this) = DENY →
    hook = (Some (mkResult true (blocked_message this env M m sk)), q))) ∧
  (toolName ≠ "clawbands_respond" →
   modules (policy this) !! M ≫= (λ moduleRules, moduleRules !! m) = None →
   is_Some (modules (policy this) !! M) → JS.inherited m = true →
   hook = (Some (mkResult true "Unknown decision type: undefined"), q)).
Proof.
  cbv zeta.
  assert (∀ now, block (handleRespondTool now decision sk q).1 = true) as Hblock.
  { intros now. unfold handleRespondTool. repeat case_match; done. }
  split; [|split; [|split]].
  - intros ->. unfold ToolCallHook.createToolCallHook. simpl.
    split; [|apply Hblock].
    by destruct (handleRespondTool (dateNow env) decision sk q).
  - intros r. unfold ToolCallHook.createToolCallHook.
    destruct (String.eqb toolName ToolCallHook.CLAWBANDS_RESPOND_TOOL).
    + pose proof (Hblock (dateNow env)) as Hb.
      destruct (handleRespondTool (dateNow env) decision sk q) as [r' q']. simpl in *.
      by intros [= <-].
    + cbv zeta. destruct (evaluate _ _ _ _ _ _ _) as [[|msg] q']; simpl; [done|].
      by intros [= <-].
  - intros Hname. unfold ToolCallHook.createToolCallHook.
    destruct (String.eqb_spec toolName ToolCallHook.CLAWBANDS_RESPOND_TOOL) as [|_]; [done|].
    cbv zeta.
    pose proof (hook_module_not_inherited (toLowerCase toolName)) as HM. revert HM.
    generalize (from_option fst "Unknown"
                  (ToolCallHook.TOOL_TO_MODULE !! toLowerCase toolName)).
    generalize (from_option snd toolName
                  (ToolCallHook.TOOL_TO_MODULE !! toLowerCase toolName)).
    intros m M HM Hnorule Hmeth. rewrite evaluate_unfold.
    assert (action (lookupRule this M m) = defaultAction (policy this)) as ->.
    { unfold lookupRule, JS.get.
      destruct (modules (policy this) !! M) as [moduleRules|]; [|by rewrite HM].
      cbn in Hnorule. rewrite Hnorule. by rewrite Hmeth. }
    split; intros ->; done.
  - intros Hname. unfold ToolCallHook.createToolCallHook.
    destruct (String.eqb_spec toolName ToolCallHook.CLAWBANDS_RESPOND_TOOL) as [|_]; [done|].
    cbv zeta.
    generalize (from_option fst "Unknown"
                  (ToolCallHook.TOOL_TO_MODULE !! toLowerCase toolName)).
    generalize (from_option snd toolName
                  (ToolCallHook.TOOL_TO_MODULE !! toLowerCase toolName)).
    intros m M Hnorule [moduleRules HM] Hmeth. rewrite evaluate_unfold.
    assert (action (lookupRule this M m) = UNDEFINED) as ->; [|done].
    unfold lookupRule, JS.get. rewrite HM in Hnorule |- *.
    cbn in Hnorule. rewrite Hnorule. by rewrite Hmeth.
Qed.

Lemma hook_verdicts_witness :
  (let this := mkInterceptor (mkPolicy DENY ∅) true false in
   ToolCallHook.createToolCallHook (λ s, s) this (mkEnv false false 0) "rm" "" [] None
                                   (ApprovalQueue.new 0 None)
   = (Some (mkResult true
              "ClawBands Security Violation: Unknown.rm() was DENIED. No specific rule defined for Unknown.rm"),
      ApprovalQueue.new 0 None)) ∧
  (let this :=
     mkInterceptor (mkPolicy ALLOW {[ "Unknown" := {[ "rm" := mkRule DENY None ]} ]})
                   true false in
   ToolCallHook.createToolCallHook (λ s, s) this (mkEnv false false 0) "toString" "" [] None
                                   (ApprovalQueue.new 0 None)
   = (Some (mkResult true "Unknown decision type: undefined"), ApprovalQueue.new 0 None) ∧
   ToolCallHook.createToolCallHook (λ s, s) this (mkEnv false false 0) "mv" "" [] None
                                   (ApprovalQueue.new 0 None)
   = (None, ApprovalQueue.new 0 None)).
Proof.
  split; [|split].
  - intros this.
    destruct (hook_verdicts (λ s, s) this (mkEnv false false 0) "rm" "" [] None
                (ApprovalQueue.new 0 None)) as (_ & _ & Hdefault & _).
    destruct Hdefault as [_ Hdeny].
    + discriminate.
    + vm_compute. reflexivity.
    + reflexivity.
    + apply Hdeny. reflexivity.
  - destruct (hook_verdicts (λ s, s)
                (mkInterceptor (mkPolicy ALLOW {[ "Unknown" := {[ "rm" := mkRule DENY None ]} ]})
                               true false)
                (mkEnv false false 0) "toString" "" [] None
                (ApprovalQueue.new 0 None)) as (_ & _ & _ & Hmember).
    apply Hmember.
    + discriminate.
    + vm_compute. reflexivity.
    + eexists. vm_compute. reflexivity.
    + reflexivity.
  - destruct (hook_verdicts (λ s, s)
                (mkInterceptor (mkPolicy ALLOW {[ "Unknown" := {[ "rm" := mkRule DENY None ]} ]})
                               true false)
                (mkEnv false false 0) "mv" "" [] None
                (ApprovalQueue.new 0 None)) as (_ & _ & Hdefault & _).
    destruct Hdefault as [Hallow _].
    + discriminate.
    + vm_compute. reflexivity.
    + reflexivity.
    + apply Hallow. reflexivity.
Defined.

(* ===================================================================== *)
(** * Plugin registration *)
(* ===================================================================== *)

(** X20. With a policy of the declared type, registration fails only when
    the policy cannot be loaded: a gateway whose [on] or [registerTool] is
    missing or throws is tolerated.
    The hook is attached exactly when [api.on] returns, so otherwise the
    plugin loads and intercepts nothing; and the prompt sent in Channel mode
    names [clawbands_respond] exactly when [api.registerTool] returned. *)
Theorem register_tolerates_gateway (loaded : option SecurityPolicy)
    (api : Plugin.OpenClawPluginApi) :
  (loaded = None → Plugin.register loaded api = None) ∧
  (∀ policy, loaded = Some policy →
     ∃ interceptor attached,
       Plugin.register loaded api = Some (interceptor, attached) ∧
       Interceptor.policy interceptor = policy ∧
       (attached = true ↔ Plugin.on api = Plugin.Returns) ∧
       (respondToolAvailable interceptor = true ↔ Plugin.registerTool api = Plugin.Returns) ∧
       ∀ m meth,
         (Plugin.registerTool api = Plugin.Returns →
          instructions interceptor m meth
          = instructions (mkInterceptor policy true true) m meth) ∧
         (Plugin.registerTool api ≠ Plugin.Returns →
          instructions interceptor m meth
          = instructions (mkInterceptor policy true false) m meth)).
Proof.
  split; [by intros ->|].
  intros policy ->. unfold Plugin.register, Plugin.tryOn, Plugin.tryRegisterTool. simpl.
  eexists _, _. split; [done|]. split; [done|].
  destruct api as [o r]. simpl.
  split; [by destruct o|]. split; [by destruct r|].
  intros m meth. by destruct r.
Qed.

Lemma register_tolerates_gateway_witness :
  ∃ interceptor,
    Plugin.register (Some DEFAULT_POLICY) (Plugin.mkApi Plugin.Throws Plugin.Missing)
    = Some (interceptor, false) ∧
    respondToolAvailable interceptor = false.
Proof.
  destruct (register_tolerates_gateway (Some DEFAULT_POLICY)
              (Plugin.mkApi Plugin.Throws Plugin.Missing)) as [_ Hok].
  destruct (Hok DEFAULT_POLICY eq_refl) as (i & a & Hreg & _ & Ha & Hr & _).
  exists i. destruct a.
  - destruct Ha as [Ha _]. specialize (Ha eq_refl). discriminate Ha.
  - split; [exact Hreg|].
    destruct (respondToolAvailable i); [|done].
    destruct Hr as [Hr _]. specialize (Hr eq_refl). discriminate Hr.
Defined.

(* ===================================================================== *)
(** * Statistics *)
(* ===================================================================== *)

(** X21. Starting from a missing file, from a reset, or from stored
    statistics whose counters add up, [increment] writes statistics whose
    counters still add up: [totalCalls] has grown by one and so has exactly
    the counter of the decision. *)
Theorem stats_counters_add_up (isoNow : string) (decision : AuditDecision)
    (decisionTime : Z) (file : StatsTracker.Store) :
  (∀ stats, file = Some stats → counters_add_up stats) →
  counters_add_up (StatsTracker.zeroStats isoNow) ∧
  StatsTracker.reset isoNow file = Some (StatsTracker.zeroStats isoNow) ∧
  ∃ before after,
    (StatsTracker.load isoNow file).1 = before ∧
    StatsTracker.increment isoNow decision decisionTime file = Some after ∧
    counters_add_up after ∧
    StatsTracker.totalCalls after = StatsTracker.totalCalls before + 1 ∧
    StatsTracker.lastReset after = StatsTracker.lastReset before ∧
    (StatsTracker.allowed after, StatsTracker.approved after,
     StatsTracker.rejected after, StatsTracker.blocked after)
    = match decision with
      | ALLOWED => (StatsTracker.allowed before + 1, StatsTracker.approved before,
                    StatsTracker.rejected before, StatsTracker.blocked before)
      | APPROVED => (StatsTracker.allowed before, StatsTracker.approved before + 1,
                     StatsTracker.rejected before, StatsTracker.blocked before)
      | REJECTED => (StatsTracker.allowed before, StatsTracker.approved before,
                     StatsTracker.rejected before + 1, StatsTracker.blocked before)
      | BLOCKED => (StatsTracker.allowed before, StatsTracker.approved before,
                    StatsTracker.rejected before, StatsTracker.blocked before + 1)
      end.
Proof.
  intros Hfile.
  assert (counters_add_up (StatsTracker.zeroStats isoNow)) as Hzero
    by (unfold counters_add_up; simpl; lia).
  split; [done|]. split; [done|].
  assert (counters_add_up (StatsTracker.load isoNow file).1) as Hbefore.
  { destruct file as [stats|]; simpl; [by apply Hfile | done]. }
  exists (StatsTracker.load isoNow file).1.
  unfold StatsTracker.increment.
  destruct (StatsTracker.load isoNow file) as [before file']. simpl in Hbefore |- *.
  unfold counters_add_up in Hbefore.
  destruct decision; eexists; (split; [reflexivity|]); (split; [reflexivity|]);
    unfold counters_add_up; simpl; (split; [lia|done]).
Qed.

Lemma stats_counters_add_up_witness :
  ∃ after,
    StatsTracker.increment "2026-01-01T00:00:00.000Z" APPROVED 1500 None = Some after ∧
    StatsTracker.totalCalls after = 1 ∧ StatsTracker.approved after = 1.
Proof.
  destruct (stats_counters_add_up "2026-01-01T00:00:00.000Z" APPROVED 1500 None)
    as (_ & _ & before & after & Hload & Hinc & _ & Htotal & _ & Hcounters).
  - intros stats Hsome. discriminate Hsome.
  - exists after. simpl in Hload. subst before. simpl in *.
    split; [exact Hinc|]. split; [exact Htotal|].
    by injection Hcounters.
Defined.

(** X22. The rolling average stays between the previous average and the
    new decision time, and it is the decision time itself on the first call
    after a reset. *)
Theorem stats_average_bounds (isoNow : string) (decision : AuditDecision)
    (decisionTime : Z) (stats : StatsTracker.Stats) :
  0 ≤ StatsTracker.totalCalls stats →
  ∃ after,
    StatsTracker.increment isoNow decision decisionTime (Some stats) = Some after ∧
    Z.min (StatsTracker.avgDecisionTime stats) decisionTime
      ≤ StatsTracker.avgDecisionTime after
      ≤ Z.max (StatsTracker.avgDecisionTime stats) decisionTime ∧
    (StatsTracker.totalCalls stats = 0 → StatsTracker.avgDecisionTime after = decisionTime).
Proof.
  intros Hn. unfold StatsTracker.increment. simpl.
  set (n := StatsTracker.totalCalls stats) in *.
  set (avg := StatsTracker.avgDecisionTime stats).
  assert (Z.min avg decisionTime
            ≤ StatsTracker.round_div (avg * (n + 1 - 1) + decisionTime) (n + 1)
            ≤ Z.max avg decisionTime) as Hbounds.
  { unfold StatsTracker.round_div. split.
    - apply Z.div_le_lower_bound; [lia|].
      destruct (Z.min_spec avg decisionTime) as [[? ->]|[? ->]]; nia.
    - apply Z.lt_succ_r, Z.div_lt_upper_bound; [lia|].
      destruct (Z.max_spec avg decisionTime) as [[? ->]|[? ->]]; nia. }
  assert (n = 0 → StatsTracker.round_div (avg * (n + 1 - 1) + decisionTime) (n + 1)
                  = decisionTime) as Hfirst.
  { intros ->. unfold StatsTracker.round_div.
    replace (2 * (avg * (0 + 1 - 1) + decisionTime) + (0 + 1)) with (1 + decisionTime * 2)
      by lia.
    replace (2 * (0 + 1)) with 2 by lia.
    rewrite Z.div_add by lia. change (1 / 2) with 0. lia. }
  destruct decision; eexists; (split; [reflexivity|]); simpl; done.
Qed.

Lemma stats_average_bounds_witness :
  ∃ after,
    StatsTracker.increment "" ALLOWED 7 (Some (StatsTracker.mkStats 2 0 0 0 2 4 "")) = Some after ∧
    4 ≤ StatsTracker.avgDecisionTime after ≤ 7.
Proof.
  destruct (stats_average_bounds "" ALLOWED 7 (StatsTracker.mkStats 2 0 0 0 2 4 ""))
    as (after & Hinc & Hbounds & _).
  - simpl. lia.
  - exists after. split; [exact Hinc|]. simpl in Hbounds. lia.
Defined.

(* ===================================================================== *)
(** * The audit trail *)
(* ===================================================================== *)

(** X23. [readLast n] returns the last [n] records, all of them when there
    are fewer; for [n = 0] it returns every record, not none; and for a
    negative [n] it drops the first [-n] records. *)
Theorem readLast_spec {A} (n : Z) (all : list A) :
  (0 < n →
   length (DecisionLog.readLast n all) = Nat.min (Z.to_nat n) (length all) ∧
   ∃ older, all = (older ++ DecisionLog.readLast n all)%list) ∧
  (n = 0 → DecisionLog.readLast n all = all) ∧
  (n < 0 → DecisionLog.readLast n all = drop (Z.to_nat (- n)) all).
Proof.
  unfold DecisionLog.readLast, DecisionLog.slice. split; [|split].
  - intros Hn. assert ((- n <? 0) = true) as -> by lia. split.
    + rewrite length_drop. lia.
    + exists (take (Z.to_nat (Z.max (Z.of_nat (length all) + - n) 0)) all).
      by rewrite take_drop.
  - intros ->. change (- 0 <? 0) with false. cbv iota.
    rewrite Z.min_l by lia. done.
  - intros Hn. assert ((- n <? 0) = false) as -> by lia.
    destruct (decide (- n ≤ Z.of_nat (length all))) as [Hle|Hgt].
    + by rewrite Z.min_l by lia.
    + rewrite Z.min_r by lia. rewrite Nat2Z.id.
      rewrite drop_all. symmetry. apply drop_ge. lia.
Qed.

Lemma readLast_spec_witness :
  DecisionLog.readLast 2 [1; 2; 3] = [2; 3] ∧ DecisionLog.readLast 0 [1; 2; 3] = [1; 2; 3].
Proof.
  destruct (readLast_spec 2 [1; 2; 3]) as [Hlast _].
  destruct (readLast_spec 0 [1; 2; 3]) as (_ & Hzero & _).
  split.
  - destruct Hlast as [Hlen [older Hsplit]]; [lia|].
    simpl in Hlen. reflexivity.
  - apply Hzero. reflexivity.
Defined.

(* ===================================================================== *)
(** * When a call goes through *)
(* ===================================================================== *)

(** X24. An evaluation resolves exactly when the rule says ALLOW, or the rule
    says ASK and either the human at the terminal approves, or, in Channel
    mode, the queue holds for the operation an unexpired entry that is
    approved or is pending and at most 60 s old.  Without a terminal and a
    session key an ASK never resolves. *)
Theorem resolves_iff (this : Interceptor.t) (env : Env) (m meth : string)
    (args : list string) (sk : option string) (q : ApprovalQueue.t) :
  (evaluate this env m meth args sk q).1 = Resolved ↔
  action (lookupRule this m meth) = ALLOW ∨
  (action (lookupRule this m meth) = ASK ∧
   ((stdinIsTTY env = true ∧ promptDecision env = true) ∨
    (stdinIsTTY env = false ∧
     ∃ s e, sk = Some s ∧ s ≠ "" ∧
            entries q !! key s m meth = Some e ∧ dateNow env < expiresAt e ∧
            (status e = approved ∨
             (status e = pending ∧ dateNow env - createdAt e ≤ CONSUME_MAX_AGE_MS))))).
Proof.
  rewrite evaluate_unfold.
  destruct (action (lookupRule this m meth)) eqn:Hact.
  - split; [by left|done].
  - split; [done|]. intros [?|[? _]]; done.
  - cbv zeta. unfold judge, judgeTTY, truthy. simpl.
    destruct (stdinIsTTY env) eqn:Htty; simpl.
    { destruct (promptDecision env) eqn:Hp.
      - split; [|done]. intros _. right. split; [done|]. by left.
      - split; [done|]. intros [?|[_ [[_ ?]|[? _]]]]; done. }
    destruct sk as [s|]; simpl.
    2:{ split; [done|]. intros [?|[_ [[? _]|[_ (s & e & ? & _)]]]]; done. }
    destruct (String.eqb_spec s "") as [->|Hs]; simpl.
    { split; [done|]. intros [?|[_ [[? _]|[_ (s & e & [= <-] & ? & _)]]]]; done. }
    rewrite judgeChannel_unfold. cbv zeta. simpl.
    destruct (consume (dateNow env) s m meth q).1 eqn:Ha; simpl.
    { split; [|done]. intros _. right. split; [done|]. right. split; [done|].
      apply consume_true in Ha as (e & He & Hst & Hlive). exists s, e. tauto. }
    destruct (consumePending (dateNow env) s m meth q).1 eqn:Hb; simpl.
    { split; [|done]. intros _. right. split; [done|]. right. split; [done|].
      apply consumePending_true in Hb as (e & He & Hst & Hlive & Hage).
      exists s, e. tauto. }
    split; [done|].
    intros [?|[_ [[? _]|[_ (s' & e & [= <-] & _ & He & Hlive & [Hst|[Hst Hage]])]]]];
      try done.
    + assert ((consume (dateNow env) s m meth q).1 = true); [|congruence].
      apply consume_true. eauto.
    + assert ((consumePending (dateNow env) s m meth q).1 = true); [|congruence].
      apply consumePending_true. eauto.
  - split; [done|]. intros [?|[? _]]; done.
Qed.

Lemma request_lookup_ne (now : Z) (s m meth k : string) (q : ApprovalQueue.t) :
  k ≠ key s m meth →
  entries (request now s m meth q).2 !! k = entries (maybeCleanup now q) !! k.
Proof.
  intros Hk. unfold request. repeat case_match; simpl; try done;
    by rewrite lookup_insert_ne.
Qed.

(** X25. One YES answers every outstanding question of the session: when two
    different operations of a session are blocked one after the other and the
    user then replies [yes] while both pending entries are alive, the retry of
    each operation resolves. *)
Theorem one_yes_approves_all (this : Interceptor.t) (p : bool) (ta tb t1 t2 t3 : Z)
    (ma metha mb methb : string) (args : list string) (s : string) (q : ApprovalQueue.t) :
  s ≠ "" →
  action (lookupRule this ma metha) = ASK → action (lookupRule this mb methb) = ASK →
  key s ma metha ≠ key s mb methb →
  let qa := (evaluate this (mkEnv false p ta) ma metha args (Some s) q).2 in
  let qb := (evaluate this (mkEnv false p tb) mb methb args (Some s) qa).2 in
  (evaluate this (mkEnv false p ta) ma metha args (Some s) q).1 ≠ Resolved →
  (evaluate this (mkEnv false p tb) mb methb args (Some s) qa).1 ≠ Resolved →
  tb < ta + ttl q → t1 < ta + ttl q → t1 < tb + ttl q →
  t2 < t1 + ttl q → t3 < t1 + ttl q →
  let r := handleRespondTool t1 "yes" (Some s) qb in
  let retry_a := evaluate this (mkEnv false p t2) ma metha args (Some s) r.2 in
  let retry_b := evaluate this (mkEnv false p t3) mb methb args (Some s) retry_a.2 in
  r.1 = mkResult true "Approved. Retry the blocked tool." ∧
  retry_a.1 = Resolved ∧ retry_b.1 = Resolved.
Proof.
  intros Hs Haska Haskb Hne qa qb Hblocka Hblockb Htb Ht1a Ht1b Ht2 Ht3 r retry_a retry_b.
  destruct (channel_blocked_inv this p ta ma metha args s q Hs Haska Hblocka) as [Ha Hb].
  destruct (channel_blocked this p ta ma metha args s q Hs Haska Ha Hb) as [Heva Hea].
  assert (qa = (request ta s ma metha q).2) as Hqa by (unfold qa; by rewrite Heva).
  assert (ttl qa = ttl q) as Httla by (rewrite Hqa; apply request_ttl).
  rewrite <- Hqa in Hea.
  destruct (channel_blocked_inv this p tb mb methb args s qa Hs Haskb Hblockb) as [Ha' Hb'].
  destruct (channel_blocked this p tb mb methb args s qa Hs Haskb Ha' Hb') as [Hevb Heb].
  assert (qb = (request tb s mb methb qa).2) as Hqb by (unfold qb; by rewrite Hevb).
  assert (ttl qb = ttl q) as Httlb by (rewrite Hqb, request_ttl; done).
  rewrite <- Hqb, Httla in Heb.
  assert (entries qb !! key s ma metha
          = Some (mkEntry s ma metha pending ta (ta + ttl q))) as Hea'.
  { rewrite Hqb, request_lookup_ne by done. by apply maybeCleanup_lookup_live. }
  assert (hasPending t1 s qb = true) as Hpending.
  { apply hasPending_true. eexists _, _. split; [exact Hea'|].
    split; [apply prefix_key|]. simpl. done. }
  assert (r = (mkResult true "Approved. Retry the blocked tool.", (approve t1 s qb).2)) as Hr
    by by apply handleRespondTool_yes.
  assert (∀ k e, entries qb !! k = Some e → String.prefix (s +:+ "::") k = true →
                 status e = pending → t1 < expiresAt e →
                 entries r.2 !! k = Some (approved_at t1 (ttl q) e)) as Happroved.
  { intros k e He Hp Hst Hlive. rewrite Hr. simpl.
    rewrite approve_lookup, Hp, Httlb, (maybeCleanup_lookup_live t1 qb k e He Hlive).
    simpl. unfold approve_entry.
    by assert (live_pending t1 e = true) as -> by by apply live_pending_true. }
  pose proof (Happroved _ _ Hea' (prefix_key s ma metha) eq_refl Ht1a) as Hra.
  pose proof (Happroved _ _ Heb (prefix_key s mb methb) eq_refl Ht1b) as Hrb.
  assert (retry_a = (Resolved, with_entries r.2 (delete (key s ma metha) (entries r.2))))
    as Hretrya.
  { apply (channel_resolved this p t2 ma metha args s r.2 _ Hs Haska Hra); simpl; [done|].
    by left. }
  assert (retry_b.1 = Resolved) as Hretryb.
  { unfold retry_b.
    rewrite (channel_resolved this p t3 mb methb args s retry_a.2
               (approved_at t1 (ttl q) (mkEntry s mb methb pending tb (tb + ttl q)))
               Hs Haskb); simpl; [done| |done|by left].
    rewrite Hretrya. simpl. rewrite lookup_delete_ne by done. exact Hrb. }
  split; [by rewrite Hr|]. split; [by rewrite Hretrya|done].
Qed.

Lemma one_yes_approves_all_witness :
  let this := new_Interceptor None None in
  let qa := (evaluate this (mkEnv false false 1000) "Shell" "bash" [] (Some "s")
                      (ApprovalQueue.new 0 None)).2 in
  let qb := (evaluate this (mkEnv false false 2000) "Network" "fetch" [] (Some "s") qa).2 in
  let r := handleRespondTool 3000 "yes" (Some "s") qb in
  let retry_a := evaluate this (mkEnv false false 4000) "Shell" "bash" [] (Some "s") r.2 in
  retry_a.1 = Resolved ∧
  (evaluate this (mkEnv false false 5000) "Network" "fetch" [] (Some "s") retry_a.2).1
  = Resolved.
Proof.
  intros this qa qb r retry_a.
  destruct (one_yes_approves_all this false 1000 2000 3000 4000 5000
              "Shell" "bash" "Network" "fetch" [] "s" (ApprovalQueue.new 0 None))
    as (_ & Hra & Hrb).
  - discriminate.
  - vm_compute. reflexivity.
  - vm_compute. reflexivity.
  - discriminate.
  - vm_compute. discriminate.
  - vm_compute. discriminate.
  - simpl. unfold DEFAULT_TTL_MS. lia.
  - simpl. unfold DEFAULT_TTL_MS. lia.
  - simpl. unfold DEFAULT_TTL_MS. lia.
  - simpl. unfold DEFAULT_TTL_MS. lia.
  - simpl. unfold DEFAULT_TTL_MS. lia.
  - split; [exact Hra | exact Hrb].
Defined.

(* ===================================================================== *)
(** * The terminal display *)
(* ===================================================================== *)

Lemma split_cons (sep : ascii) (s : string) : ∃ line lines, Display.split sep s = line :: lines.
Proof.
  induction s as [|a s IH]; simpl; [eauto|].
  destruct (bool_decide (a = sep)); [eauto|].
  destruct IH as (line & lines & ->). eauto.
Qed.

Lemma concat_cons_cons (sep x y : string) (l : list string) :
  String.concat sep (x :: y :: l) = x +:+ sep +:+ String.concat sep (y :: l).
Proof. done. Qed.

Lemma concat_split (sep : ascii) (s : string) :
  String.concat (String sep EmptyString) (Display.split sep s) = s.
Proof.
  induction s as [|a s IH]; [done|]. cbn [Display.split].
  destruct (split_cons sep s) as (line & lines & Hs). rewrite Hs in *.
  destruct (bool_decide_reflect (a = sep)) as [->|Hne].
  - rewrite concat_cons_cons, IH. done.
  - destruct lines as [|line' lines].
    + cbn in *. by rewrite IH.
    + rewrite concat_cons_cons in *.
      change (String a line +:+ String sep EmptyString +:+
              String.concat (String sep EmptyString) (line' :: lines))
        with (String a (line +:+ String sep EmptyString +:+
                        String.concat (String sep EmptyString) (line' :: lines))).
      by rewrite IH.
Qed.

Lemma split_no_sep (sep : ascii) (line : string) :
  occurs sep line = false → Display.split sep line = [line].
Proof.
  induction line as [|a line IH]; [done|]. simpl.
  intros [Ha Hl]%orb_false_iff. rewrite Ha, IH; done.
Qed.

Lemma split_app_sep (sep : ascii) (line rest : string) :
  occurs sep line = false →
  Display.split sep (line +:+ String sep rest) = line :: Display.split sep rest.
Proof.
  induction line as [|a line IH]; simpl.
  - intros _. by rewrite bool_decide_eq_true_2.
  - intros [Ha Hl]%orb_false_iff. rewrite Ha, IH; done.
Qed.

Lemma split_concat (sep : ascii) (line : string) (lines : list string) :
  Forall (λ l, occurs sep l = false) (line :: lines) →
  Display.split sep (String.concat (String sep EmptyString) (line :: lines)) = line :: lines.
Proof.
  revert line. induction lines as [|line' lines IH]; intros line Hall.
  - apply split_no_sep. by apply Forall_inv in Hall.
  - rewrite concat_cons_cons. apply Forall_cons in Hall as [Hline Hall].
    change (line +:+ String sep EmptyString +:+ String.concat (String sep EmptyString) (line' :: lines))
      with (line +:+ String sep (String.concat (String sep EmptyString) (line' :: lines))).
    rewrite split_app_sep by done. by rewrite IH.
Qed.

Lemma split_lines_no_sep (sep : ascii) (s : string) :
  Forall (λ l, occurs sep l = false) (Display.split sep s).
Proof.
  induction s as [|a s IH]; simpl; [by constructor|].
  destruct (bool_decide_reflect (a = sep)) as [->|Hne]; [by constructor|].
  destruct (Display.split sep s) as [|line lines]; simpl.
  - constructor; [|done]. simpl. by rewrite bool_decide_eq_false_2.
  - apply Forall_cons in IH as [Hline Hlines]. constructor; [|done].
    simpl. by rewrite bool_decide_eq_false_2.
Qed.

Lemma length_append (a b : string) :
  String.length (a +:+ b) = (String.length a + String.length b)%nat.
Proof. induction a as [|c a IH]; simpl; [done|]. by rewrite IH. Qed.

Lemma length_concat_indented (sep : string) (line : string) (lines : list string) :
  String.length (String.concat sep (map (λ l, "  " +:+ l) (line :: lines)))
  = (String.length (String.concat sep (line :: lines)) + 2 * length (line :: lines))%nat.
Proof.
  revert line. induction lines as [|line' lines IH]; intros line.
  - cbn [map String.concat]. rewrite length_append. cbn [String.length length]. lia.
  - cbn [map]. rewrite !concat_cons_cons, !length_append.
    cbn [map] in IH. rewrite IH. cbn [String.length length]. lia.
Qed.

(** X26. [indentJson] puts two spaces in front of every line and changes
    nothing else: the lines of its result are the lines of its argument, each
    with the two spaces in front; the result is longer by two characters per
    line; and joining the lines of a text gives the text back. *)
Theorem indentJson_lines (json : string) :
  Display.split "010" (Display.indentJson json)
    = map (λ line, "  " +:+ line) (Display.split "010" json) ∧
  String.length (Display.indentJson json)
    = (String.length json + 2 * length (Display.split "010" json))%nat ∧
  String.concat nl (Display.split "010" json) = json.
Proof.
  pose proof (concat_split "010" json) as Hjoin.
  pose proof (split_lines_no_sep "010" json) as Hlines.
  unfold Display.indentJson.
  destruct (split_cons "010" json) as (line & lines & Hs). rewrite Hs in *.
  split; [|split; [|done]].
  - apply (split_concat "010" ("  " +:+ line) (map (λ l, "  " +:+ l) lines)).
    change (Forall (λ l, occurs "010" l = false) (map (λ l, "  " +:+ l) (line :: lines))).
    apply Forall_fmap. eapply Forall_impl; [exact Hlines|].
    intros l Hl. simpl. done.
  - unfold nl. rewrite length_concat_indented.
    change (String "010" EmptyString) with nl in Hjoin. unfold nl in Hjoin.
    by rewrite Hjoin.
Qed.

(* ===================================================================== *)
(** * Instances *)
(* ===================================================================== *)

Lemma deny_clears_pending_witness :
  let q := (request 1000 "s" "Shell" "bash" (ApprovalQueue.new 0 None)).2 in
  hasPending 1000 "s" q = true ∧
  hasPending 2000 "s" (deny 2000 "s" q).2 = false ∧
  consumePending 2000 "s" "Shell" "bash" (deny 2000 "s" q).2 = (false, (deny 2000 "s" q).2).
Proof.
  intros q.
  destruct (deny_clears_pending 2000 "s" q) as (_ & Hhas & _ & Hconsume & _).
  split; [vm_compute; reflexivity|]. split; [apply Hhas | apply Hconsume].
Defined.

Lemma reachable_never_denied_witness :
  status (mkEntry "s" "Shell" "bash" pending 1000 121000) = pending ∨
  status (mkEntry "s" "Shell" "bash" pending 1000 121000) = approved.
Proof.
  apply (reachable_never_denied
           [(1000, CallRequest "s" "Shell" "bash"); (2000, CallDeny "t")] 0 None
           "s::Shell.bash").
  vm_compute. reflexivity.
Defined.

Lemma respond_tool_is_control_only_witness :
  let q := (request 1000 "s" "Shell" "bash" (ApprovalQueue.new 0 None)).2 in
  (handleRespondTool 2000 "maybe" (Some "s") q).2 = q ∧
  (handleRespondTool 2000 "yes" None q).2 = q ∧
  (handleRespondTool 2000 "yes" (Some "t") q).2 = q.
Proof.
  intros q.
  destruct (respond_tool_is_control_only 2000 "maybe" (Some "s") q) as (_ & _ & _ & Hbad & _).
  destruct (respond_tool_is_control_only 2000 "yes" None q) as (_ & _ & Hnone & _).
  destruct (respond_tool_is_control_only 2000 "yes" (Some "t") q) as (_ & _ & _ & _ & Hidle).
  split; [|split].
  - apply Hbad; discriminate.
  - apply Hnone. reflexivity.
  - apply (Hidle "t"); [reflexivity | vm_compute; reflexivity | discriminate].
Defined.
